(** * A linear-hashing table: sequential model of [linear_hash.h]

    The class [LinearHash<K, V>] is embedded as a record of its data members
    and one Rocq function per member function.  The embedding is sequential:
    the mutexes only order concurrent callers and carry no data, so the
    [Bucket] and [LinearHash] records leave them out, and [std::atomic<size_t>]
    is a plain [size_t].

    - [size_t] is a [Z] in [0, 2^64) and every arithmetic operation of the
      source is written with its wrap-around ([size_add], [size_sub],
      [size_shl]);
    - [double] is the kernel's binary64 ([PrimFloat.float]); the cast of a
      [size_t] to [double] rounds to nearest even ([size_to_double]);
    - [std::vector] is a [list], indexed with stdpp's lookup and insert;
      [vector::at] is [at_], which throws [out_of_range];
    - a member function that can throw returns a [result]. *)

From Stdlib Require Import ZArith Lia PrimFloat FloatOps SpecFloat FloatAxioms.
From stdpp Require Import base decidable option numbers list.

Set Default Proof Using "Type*".
Open Scope Z_scope.

(** ** Exceptions and the [result] monad *)

Inductive exn : Set :=
  | invalid_argument   (* std::invalid_argument, thrown by the constructor *)
  | out_of_range.      (* std::out_of_range, thrown by vector::at *)

Inductive result (A : Type) : Type :=
  | Ok (a : A)
  | Throw (e : exn).
Arguments Ok {A} a.
Arguments Throw {A} e.

#[global] Instance result_ret : MRet result := λ A a, Ok a.
#[global] Instance result_bind : MBind result := λ A B f m,
  match m with
  | Ok a => f a
  | Throw e => Throw e
  end.

(** ** [size_t] arithmetic *)

Definition SIZE_WIDTH : Z := 64.
Definition SIZE_MOD : Z := 2 ^ SIZE_WIDTH.

Definition size_wrap (x : Z) : Z := x mod SIZE_MOD.
Definition size_add (a b : Z) : Z := size_wrap (a + b).
Definition size_sub (a b : Z) : Z := size_wrap (a - b).
(** [a << n]; the source only shifts by [depth] or by [1].  C++ leaves a
    shift by 64 or more undefined; the model lets it wrap like the others,
    and the state invariants keep [depth] below 64. *)
Definition size_shl (a n : Z) : Z := size_wrap (Z.shiftl a n).

(** [static_cast<double>(n)] for a [size_t]: the nearest binary64. *)
Definition size_to_double (n : Z) : float :=
  SF2Prim (binary_normalize 53 1024 n 0 false).

(** [std::vector::at]. *)
Definition at_ {A} (v : list A) (i : Z) : result A :=
  if bool_decide (0 ≤ i < Z.of_nat (length v)) then
    match v !! Z.to_nat i with
    | Some a => Ok a
    | None => Throw out_of_range
    end
  else Throw out_of_range.

(** ** Keys: [operator==] and [std::hash<K>] *)

Class Hash (K : Type) := {
  std_hash : K → Z;
  std_hash_range : ∀ k, 0 ≤ std_hash k < SIZE_MOD
}.

Section LinearHash.

Context {K V : Type} `{EqDecision K} `{Hash K}.

(** ** Data members *)

Record Entry := { key : K; value : V }.

Record Bucket := { entries : list Entry }.

Record LinearHash := {
  table : list Bucket;
  max_load_factor : float;
  num_elem : Z;
  split_ptr : Z;
  init_size : Z;
  depth : Z
}.

Definition with_table (hm : LinearHash) (t : list Bucket) : LinearHash :=
  {| table := t; max_load_factor := max_load_factor hm;
     num_elem := num_elem hm; split_ptr := split_ptr hm;
     init_size := init_size hm; depth := depth hm |}.

Definition with_num_elem (hm : LinearHash) (n : Z) : LinearHash :=
  {| table := table hm; max_load_factor := max_load_factor hm;
     num_elem := n; split_ptr := split_ptr hm;
     init_size := init_size hm; depth := depth hm |}.

Definition with_split (hm : LinearHash) (sp d : Z) : LinearHash :=
  {| table := table hm; max_load_factor := max_load_factor hm;
     num_elem := num_elem hm; split_ptr := sp;
     init_size := init_size hm; depth := d |}.

(** [table.size()], and the three public getters. *)
Definition table_size (hm : LinearHash) : Z := Z.of_nat (length (table hm)).
Definition get_table_size (hm : LinearHash) : Z := table_size hm.
Definition get_num_elem (hm : LinearHash) : Z := num_elem hm.
Definition get_split_ptr (hm : LinearHash) : Z := split_ptr hm.

(** ** Constructor *)

Definition LinearHash_ctor (size : Z) (load_factor : float) : result LinearHash :=
  if bool_decide (size = 0) || negb (bool_decide (Z.land size (size_sub size 1) = 0)) then
    Throw invalid_argument
  else
    Ok {| table := replicate (Z.to_nat size) {| entries := [] |};
          max_load_factor := load_factor;
          num_elem := 0; split_ptr := 0; init_size := size; depth := 0 |}.

(** ** Addressing *)

Definition hash2bucket (hm : LinearHash) (k : K) : Z :=
  let h := std_hash k in
  let pre_expansion_size := size_shl (init_size hm) (depth hm) in
  let mask := size_sub pre_expansion_size 1 in
  let index := Z.land h mask in
  if index <? split_ptr hm then
    let mask := size_add (size_shl mask 1) 1 in
    Z.land h mask
  else index.

(** [static_cast<double>(num_elem) / static_cast<double>(table.size())] *)
Definition load_of (num_elem table_size : Z) : float :=
  PrimFloat.div (size_to_double num_elem) (size_to_double table_size).

Definition should_split (hm : LinearHash) : bool :=
  match table hm with
  | [] => false
  | _ :: _ =>
      let load := load_of (num_elem hm) (table_size hm) in
      PrimFloat.ltb (max_load_factor hm) load
  end.

(** ** The linear scan shared by [insert], [get], [in] and [remove]:
    position and entry of the first entry whose key equals [k]. *)
Definition scan (k : K) (es : list Entry) : option (nat * Entry) :=
  list_find (λ e, key e = k) es.

(** ** The split step (the body of [if (should_split())] in [insert]) *)

(** The loop over [original.entries]: an entry whose hash has the
    [higher_mask] bit goes to the back of [new_bucket.entries], the others to
    the back of [temp.entries]. *)
Fixpoint redistribute (higher_mask : Z) (es new_entries temp : list Entry)
  : list Entry * list Entry :=
  match es with
  | [] => (new_entries, temp)
  | entry :: es' =>
      if negb (Z.land (std_hash (key entry)) higher_mask =? 0)
      then redistribute higher_mask es' (new_entries ++ [entry]) temp
      else redistribute higher_mask es' new_entries (temp ++ [entry])
  end.

Definition split_step (hm : LinearHash) : result LinearHash :=
  let new_idx := length (table hm) in
  let table1 := table hm ++ [ {| entries := [] |} ] in
  original ← at_ table1 (split_ptr hm);
  new_bucket ← at_ table1 (Z.of_nat new_idx);
  let higher_mask := size_shl (init_size hm) (depth hm) in
  let '(new_entries, temp) :=
    redistribute higher_mask (entries original) (entries new_bucket) [] in
  let table2 := <[new_idx := {| entries := new_entries |}]> table1 in
  let table3 := <[Z.to_nat (split_ptr hm) := {| entries := temp |}]> table2 in
  let split_ptr1 := size_add (split_ptr hm) 1 in
  if size_shl (init_size hm) (depth hm) <=? split_ptr1 then
    Ok (with_split (with_table hm table3) 0 (size_add (depth hm) 1))
  else
    Ok (with_split (with_table hm table3) split_ptr1 (depth hm)).

(** ** Public operations *)

(** The second revision of the header evaluates the load inside the lock
    scope ([should_split = split_cond()]) and tests it again before the
    split; in a sequential run both revisions read the same state twice. *)
Definition insert (hm : LinearHash) (k : K) (val : V) : result LinearHash :=
  let i := hash2bucket hm k in
  bucket ← at_ (table hm) i;
  match scan k (entries bucket) with
  | Some (j, entry) =>
      let es := <[j := {| key := key entry; value := val |}]> (entries bucket) in
      Ok (with_table hm (<[Z.to_nat i := {| entries := es |}]> (table hm)))
  | None =>
      let es := entries bucket ++ [ {| key := k; value := val |} ] in
      let hm1 := with_num_elem
                   (with_table hm (<[Z.to_nat i := {| entries := es |}]> (table hm)))
                   (size_add (num_elem hm) 1) in
      if should_split hm1 then
        if negb (should_split hm1) then Ok hm1 else split_step hm1
      else Ok hm1
  end.

Definition get (hm : LinearHash) (k : K) : result (option V) :=
  bucket ← at_ (table hm) (hash2bucket hm k);
  match scan k (entries bucket) with
  | Some (_, entry) => Ok (Some (value entry))
  | None => Ok None
  end.

Definition in_ (hm : LinearHash) (k : K) : result bool :=
  bucket ← at_ (table hm) (hash2bucket hm k);
  match scan k (entries bucket) with
  | Some _ => Ok true
  | None => Ok false
  end.

(** [bucket[i] = std::move(bucket.back()); bucket.pop_back();] *)
Definition swap_pop (i : nat) (bucket : list Entry) : list Entry :=
  match last bucket with
  | Some back => take (length bucket - 1)%nat (<[i := back]> bucket)
  | None => bucket
  end.

Definition remove (hm : LinearHash) (k : K) : result (LinearHash * bool) :=
  let i := hash2bucket hm k in
  bucket_struct ← at_ (table hm) i;
  let bucket := entries bucket_struct in
  match scan k bucket with
  | Some (j, _) =>
      let bucket' := swap_pop j bucket in
      Ok (with_num_elem
            (with_table hm (<[Z.to_nat i := {| entries := bucket' |}]> (table hm)))
            (size_sub (num_elem hm) 1),
          true)
  | None => Ok (hm, false)
  end.

(** ** The forward iterator

    [_hm] is the table the iterator was made from; every function below takes
    it as its [hm] argument, and [Iterator_eq] compares two iterators of the
    same table. *)

Record Iterator := { _bucket_idx : Z; _entry_idx : Z }.

Definition is_empty (b : Bucket) : bool :=
  match entries b with [] => true | _ :: _ => false end.

(** The [while] loop of [go2data]; one unit of fuel per evaluation of the
    loop condition. *)
Fixpoint go2data_loop (fuel : nat) (hm : LinearHash) (bucket_idx : Z) : result Z :=
  match fuel with
  | O => Ok bucket_idx
  | S fuel' =>
      if bucket_idx <? table_size hm then
        b ← at_ (table hm) bucket_idx;
        if negb (is_empty b) then Ok bucket_idx
        else go2data_loop fuel' hm (size_add bucket_idx 1)
      else Ok bucket_idx
  end.

(** The loop condition is evaluated at most [table.size() + 1] times
    (lemma [go2data_loop_exit]). *)
Definition go2data (hm : LinearHash) (it : Iterator) : result Iterator :=
  b ← go2data_loop (S (length (table hm))) hm (_bucket_idx it);
  Ok {| _bucket_idx := b; _entry_idx := _entry_idx it |}.

Definition Iterator_ctor (hm : LinearHash) (bucket_idx entry_idx : Z) : result Iterator :=
  let it := {| _bucket_idx := bucket_idx; _entry_idx := entry_idx |} in
  if bucket_idx <? table_size hm then
    b ← at_ (table hm) bucket_idx;
    if is_empty b then go2data hm it else Ok it
  else Ok it.

(** [operator*] *)
Definition Iterator_deref (hm : LinearHash) (it : Iterator) : result Entry :=
  b ← at_ (table hm) (_bucket_idx it);
  at_ (entries b) (_entry_idx it).

(** [operator++] (prefix) *)
Definition Iterator_incr (hm : LinearHash) (it : Iterator) : result Iterator :=
  let entry_idx := size_add (_entry_idx it) 1 in
  b ← at_ (table hm) (_bucket_idx it);
  if Z.of_nat (length (entries b)) <=? entry_idx then
    go2data hm {| _bucket_idx := size_add (_bucket_idx it) 1; _entry_idx := 0 |}
  else
    go2data hm {| _bucket_idx := _bucket_idx it; _entry_idx := entry_idx |}.

(** [operator==] *)
Definition Iterator_eq (a b : Iterator) : bool :=
  (_bucket_idx a =? _bucket_idx b) && (_entry_idx a =? _entry_idx b).

Definition begin_ (hm : LinearHash) : result Iterator := Iterator_ctor hm 0 0.
Definition end_ (hm : LinearHash) : result Iterator := Iterator_ctor hm (table_size hm) 0.

(** The loop [for (it = first; it != last; ++it) visit(it, *it)], as the
    range-for of the tests runs it; [None] when the fuel runs out. *)
Fixpoint traverse (fuel : nat) (hm : LinearHash) (it last : Iterator)
  : option (result (list (Iterator * Entry))) :=
  match fuel with
  | O => None
  | S fuel' =>
      if Iterator_eq it last then Some (Ok [])
      else
        match Iterator_deref hm it with
        | Throw e => Some (Throw e)
        | Ok entry =>
            match Iterator_incr hm it with
            | Throw e => Some (Throw e)
            | Ok it' =>
                match traverse fuel' hm it' last with
                | Some (Ok rest) => Some (Ok ((it, entry) :: rest))
                | other => other
                end
            end
        end
  end.

Definition for_each (fuel : nat) (hm : LinearHash)
  : option (result (list (Iterator * Entry))) :=
  match begin_ hm, end_ hm with
  | Ok first, Ok last => traverse fuel hm first last
  | Throw e, _ | _, Throw e => Some (Throw e)
  end.

(** The iterator [end()] returns (lemma [end_eq]). *)
Definition end_position (hm : LinearHash) : Iterator :=
  {| _bucket_idx := table_size hm; _entry_idx := 0 |}.

(** What a traversal is expected to visit: the positions [(i, j)] of the
    entries with the entries, bucket after bucket ([i] ascending) and inside a
    bucket in storage order ([j] ascending). *)
Fixpoint bucket_positions (i j : nat) (es : list Entry) : list (Iterator * Entry) :=
  match es with
  | [] => []
  | e :: es' =>
      ({| _bucket_idx := Z.of_nat i; _entry_idx := Z.of_nat j |}, e)
        :: bucket_positions i (S j) es'
  end.

Fixpoint positions_from (i : nat) (bs : list Bucket) : list (Iterator * Entry) :=
  match bs with
  | [] => []
  | b :: bs' => bucket_positions i 0 (entries b) ++ positions_from (S i) bs'
  end.

Definition positions (hm : LinearHash) : list (Iterator * Entry) :=
  positions_from 0 (table hm).

(** The number of empty buckets at the front of [bs]. *)
Fixpoint leading_empty (bs : list Bucket) : nat :=
  match bs with
  | [] => 0
  | b :: bs' => if is_empty b then S (leading_empty bs') else 0
  end.

(** ** Sequences of operations *)

Inductive op :=
  | Insert (k : K) (v : V)
  | Remove (k : K).

Fixpoint run (hm : LinearHash) (ops : list op) : result LinearHash :=
  match ops with
  | [] => Ok hm
  | Insert k v :: ops' => hm' ← insert hm k v; run hm' ops'
  | Remove k :: ops' => r ← remove hm k; run r.1 ops'
  end.

(** What the specification promises of [get]: the value of the last
    [insert(k, v)] that no [remove(k)] follows. *)
Definition op_key (o : op) : K :=
  match o with Insert k _ | Remove k => k end.

Definition write (k : K) (acc : option V) (o : op) : option V :=
  match o with
  | Insert k' v => if decide (k' = k) then Some v else acc
  | Remove k' => if decide (k' = k) then None else acc
  end.

Definition last_write (ops : list op) (k : K) : option V :=
  fold_left (write k) ops None.

(** The value [get] finds in a bucket, and the two halves a split makes of
    a bucket (proved equal to what [redistribute] builds). *)
Definition find_value (k : K) (es : list Entry) : option V :=
  (λ p, value p.2) <$> scan k es.

Definition high_half (higher_mask : Z) (es : list Entry) : list Entry :=
  filter (λ e, Z.land (std_hash (key e)) higher_mask ≠ 0) es.

Definition low_half (higher_mask : Z) (es : list Entry) : list Entry :=
  filter (λ e, Z.land (std_hash (key e)) higher_mask = 0) es.

(** The state after [table[i]->entries] has been replaced by [es] and
    [num_elem] set to [n]. *)
Definition rewrite_bucket (hm : LinearHash) (i : Z) (es : list Entry) (n : Z)
  : LinearHash :=
  with_num_elem
    (with_table hm (<[Z.to_nat i := {| entries := es |}]> (table hm))) n.

(** The state a split step leaves, [original] being [table[split_ptr]]. *)
Definition split_state (hm : LinearHash) (original : Bucket) : LinearHash :=
  let L := size_shl (init_size hm) (depth hm) in
  let table' :=
    <[Z.to_nat (split_ptr hm) := {| entries := low_half L (entries original) |}]>
      (table hm) ++ [ {| entries := high_half L (entries original) |} ] in
  if L <=? split_ptr hm + 1
  then with_split (with_table hm table') 0 (depth hm + 1)
  else with_split (with_table hm table') (split_ptr hm + 1) (depth hm).

(** ** The address function in the words of the specification

    [L = init_size << depth], [mask_low = L - 1], [i0 = h & mask_low], and
    [mask_hi = (mask_low << 1) | 1], over the integers. *)
Definition addr (h init_size depth split_ptr : Z) : Z :=
  let L := Z.shiftl init_size depth in
  let mask_low := L - 1 in
  let i0 := Z.land h mask_low in
  if i0 <? split_ptr then
    let mask_hi := Z.lor (Z.shiftl mask_low 1) 1 in
    Z.land h mask_hi
  else i0.

(** ** State invariants *)

Definition is_pow2 (x : Z) : Prop := ∃ n, 0 ≤ n ∧ x = 2 ^ n.

(** [init_size << depth], as [hash2bucket] and the split step compute it. *)
Definition pre_expansion_size (hm : LinearHash) : Z :=
  size_shl (init_size hm) (depth hm).

(** Invariants 1 to 3. *)
Record shape_inv (hm : LinearHash) : Prop := {
  shape_init : is_pow2 (init_size hm);
  shape_depth : 0 ≤ depth hm;
  shape_len : table_size hm = pre_expansion_size hm + split_ptr hm;
  shape_sp : 0 ≤ split_ptr hm < pre_expansion_size hm
}.

(** How the split pointer and the depth move in one split step: step 5 and
    step 6 of the split engine. *)
Definition split_advanced (hm hm' : LinearHash) : Prop :=
  (split_ptr hm + 1 < pre_expansion_size hm
   ∧ split_ptr hm' = split_ptr hm + 1 ∧ depth hm' = depth hm)
  ∨ (split_ptr hm + 1 = pre_expansion_size hm
     ∧ split_ptr hm' = 0 ∧ depth hm' = depth hm + 1).

(** Every entry of the table, bucket after bucket. *)
Definition all_entries (hm : LinearHash) : list Entry :=
  mjoin (entries <$> table hm).

(** Invariant 4: every entry sits in the bucket its key is addressed to. *)
Definition placed (hm : LinearHash) : Prop :=
  ∀ (i : nat) b e,
    table hm !! i = Some b → e ∈ entries b → hash2bucket hm (key e) = Z.of_nat i.

(** Invariant 5, within a bucket. *)
Definition bucket_keys_distinct (hm : LinearHash) : Prop :=
  ∀ (i : nat) b, table hm !! i = Some b → NoDup (key <$> entries b).

(** Invariant 5, across buckets. *)
Definition one_bucket_per_key (hm : LinearHash) : Prop :=
  ∀ (i j : nat) bi bj ei ej,
    table hm !! i = Some bi → table hm !! j = Some bj →
    ei ∈ entries bi → ej ∈ entries bj → key ei = key ej → i = j.

Record Inv (hm : LinearHash) : Prop := {
  inv_shape : shape_inv hm;
  inv_placed : placed hm;
  inv_distinct : bucket_keys_distinct hm;
  (* invariant 6 *)
  inv_count : num_elem hm = Z.of_nat (length (all_entries hm))
}.

(** ** The rest of the iterator's operators *)

(** [operator++(int)]: the copy made before the increment is returned; the
    second component is the iterator itself after the call. *)
Definition Iterator_post_incr (hm : LinearHash) (it : Iterator)
  : result (Iterator * Iterator) :=
  let tmp := it in
  it' ← Iterator_incr hm it;
  Ok (tmp, it').

(** [operator!=] *)
Definition Iterator_neq (a b : Iterator) : bool := negb (Iterator_eq a b).

(** Positions in the order of a traversal: by bucket, then by entry. *)
Definition Iterator_lt (a b : Iterator) : Prop :=
  _bucket_idx a < _bucket_idx b
  ∨ (_bucket_idx a = _bucket_idx b ∧ _entry_idx a < _entry_idx b).

(** [entry.value = val] on the entries whose key is [k], for a whole
    bucket. *)
Definition set_value (k : K) (val : V) (e : Entry) : Entry :=
  if decide (key e = k) then {| key := key e; value := val |} else e.

Definition set_value_in (k : K) (val : V) (b : Bucket) : Bucket :=
  {| entries := set_value k val <$> entries b |}.

(** The number of [insert] calls in a sequence of operations. *)
Fixpoint count_inserts (ops : list op) : nat :=
  match ops with
  | [] => 0
  | Insert _ _ :: ops' => S (count_inserts ops')
  | Remove _ :: ops' => count_inserts ops'
  end.

End LinearHash.

Arguments Entry : clear implicits.
Arguments Bucket : clear implicits.
Arguments LinearHash : clear implicits.
Arguments op : clear implicits.

(** ** [int] keys

    [std::hash<int>] of libstdc++ is the conversion to [size_t]. *)
Module IntKeys.

#[global] Instance int_hash : Hash Z :=
  {| std_hash k := k mod SIZE_MOD;
     std_hash_range k := Z.mod_pos_bound k SIZE_MOD eq_refl |}.

Definition IntMap : Type := LinearHash Z Z.

(** The table [LinearHash<int, int>(size, load_factor)] builds. *)
Definition fresh (size : Z) (load_factor : float) : IntMap :=
  {| table := replicate (Z.to_nat size) {| entries := [] |};
     max_load_factor := load_factor;
     num_elem := 0; split_ptr := 0; init_size := size; depth := 0 |}.

(** The inserts of the test "Incremental split", and a longer sequence
    with an overwrite and a removal. *)
Definition scenario_ops : list (op Z Z) :=
  [Insert 1 1; Insert 2 2; Insert 3 3].

Definition mixed_ops : list (op Z Z) :=
  [Insert 1 1; Insert 2 2; Insert 3 3; Remove 2; Insert 1 7].

(** The table after [scenario_ops] on [fresh 2 0.5]. *)
Definition after_scenario : IntMap :=
  {| table := [ {| entries := [] |};
                {| entries := [ {| key := 1; value := 1 |} ] |};
                {| entries := [ {| key := 2; value := 2 |} ] |};
                {| entries := [ {| key := 3; value := 3 |} ] |} ];
     max_load_factor := 0.5;
     num_elem := 3; split_ptr := 0; init_size := 2; depth := 1 |}.

(** The table after [scenario_ops] on [fresh 2 nan], which never splits. *)
Definition after_scenario_nan : IntMap :=
  {| table := [ {| entries := [ {| key := 2; value := 2 |} ] |};
                {| entries := [ {| key := 1; value := 1 |};
                                {| key := 3; value := 3 |} ] |} ];
     max_load_factor := nan;
     num_elem := 3; split_ptr := 0; init_size := 2; depth := 0 |}.

(** [after_scenario] with its four buckets emptied. *)
Definition four_empty : IntMap :=
  with_num_elem (with_table after_scenario (replicate 4 {| entries := [] |})) 0.

End IntKeys.

(** * Properties *)

(** ** [size_t] arithmetic *)

Lemma SIZE_MOD_eq : SIZE_MOD = 2 ^ 64.
Proof. reflexivity. Qed.

Lemma size_wrap_small (x : Z) : 0 ≤ x < SIZE_MOD → size_wrap x = x.
Proof. intros Hx. unfold size_wrap. by apply Z.mod_small. Qed.

(** Only the low 64 bits of a mask matter to a 64-bit hash. *)
Lemma land_size_wrap (h x : Z) :
  0 ≤ h < SIZE_MOD → Z.land h (size_wrap x) = Z.land h x.
Proof.
  intros Hh. apply Z.bits_inj'. intros n Hn.
  rewrite !Z.land_spec. unfold size_wrap, SIZE_MOD, SIZE_WIDTH.
  destruct (Z.lt_ge_cases n 64) as [Hlt|Hge].
  - by rewrite Z.mod_pow2_bits_low.
  - assert (Z.testbit h n = false) as ->; [|done].
    destruct (Z.eq_dec h 0) as [->|Hne]; [apply Z.bits_0|].
    apply Z.bits_above_log2; [lia|].
    assert (Z.log2 h < 64); [|lia].
    apply Z.log2_lt_pow2; [lia|]. rewrite SIZE_MOD_eq in Hh. lia.
Qed.

Lemma land_pred_pow2 (h m : Z) :
  0 ≤ m → Z.land h (2 ^ m - 1) = h mod 2 ^ m.
Proof.
  intros Hm. rewrite <-Z.land_ones by done. by rewrite Z.ones_equiv, Z.sub_1_r.
Qed.

(** [h & 2^m] is the single bit [m] of [h]. *)
Lemma land_pow2 (h m : Z) :
  0 ≤ m → Z.land h (2 ^ m) = 2 ^ m * ((h / 2 ^ m) mod 2).
Proof.
  intros Hm. rewrite <-Z.testbit_spec' by done.
  apply Z.bits_inj'. intros n Hn.
  rewrite Z.land_spec, Z.pow2_bits_eqb by done.
  destruct (Z.eqb_spec m n) as [->|Hne].
  - rewrite andb_true_r. destruct (Z.testbit h n); simpl.
    + by rewrite Z.mul_1_r, Z.pow2_bits_true.
    + by rewrite Z.mul_0_r, Z.bits_0.
  - rewrite andb_false_r. destruct (Z.testbit h m); simpl.
    + rewrite Z.mul_1_r, Z.pow2_bits_false; done.
    + by rewrite Z.mul_0_r, Z.bits_0.
Qed.

(** One more low bit: [h mod 2^(m+1)] is [h mod 2^m], plus [2^m] when bit
    [m] of [h] is set. *)
Lemma mod_pow2_succ (h m : Z) :
  0 ≤ m → h mod (2 * 2 ^ m) = h mod 2 ^ m + Z.land h (2 ^ m).
Proof.
  intros Hm. rewrite land_pow2 by done.
  rewrite (Z.mul_comm 2). apply Z.rem_mul_r; lia.
Qed.

Lemma land_pow2_cases (h m : Z) :
  0 ≤ m → Z.land h (2 ^ m) = 0 ∨ Z.land h (2 ^ m) = 2 ^ m.
Proof.
  intros Hm. rewrite land_pow2 by done.
  assert (0 ≤ (h / 2 ^ m) mod 2 < 2) by (apply Z.mod_pos_bound; lia).
  assert ((h / 2 ^ m) mod 2 = 0 ∨ (h / 2 ^ m) mod 2 = 1) as [->| ->] by lia; lia.
Qed.

(** The constructor's test [(size & (size - 1)) == 0] on a positive [size]. *)
Lemma pow2_land_pred (n : Z) : 0 ≤ n → Z.land (2 ^ n) (2 ^ n - 1) = 0.
Proof.
  intros Hn. rewrite land_pred_pow2 by done. apply Z.mod_same.
  apply Z.pow_nonzero; lia.
Qed.

Lemma land_pred_zero_pow2 (x : Z) :
  0 < x → Z.land x (x - 1) = 0 → is_pow2 x.
Proof.
  intros Hx Hland. exists (Z.log2 x). split; [apply Z.log2_nonneg|].
  destruct (Z.log2_spec x Hx) as [Hlo Hhi].
  destruct (Z.eq_dec x (2 ^ Z.log2 x)) as [|Hne]; [done|exfalso].
  assert (Z.log2 (x - 1) = Z.log2 x) as Hlog.
  { apply Z.log2_unique; [apply Z.log2_nonneg|lia]. }
  assert (0 < 2 ^ Z.log2 x) by (apply Z.pow_pos_nonneg; [lia|apply Z.log2_nonneg]).
  assert (Z.testbit (Z.land x (x - 1)) (Z.log2 x) = true) as Hbit.
  { rewrite Z.land_spec, Z.bit_log2 by done.
    rewrite <-Hlog. rewrite Z.bit_log2 by lia. done. }
  rewrite Hland, Z.bits_0 in Hbit. done.
Qed.

Lemma size_wrap_congr (x y : Z) :
  x mod SIZE_MOD = y mod SIZE_MOD → size_wrap x = size_wrap y.
Proof. done. Qed.

Lemma land_congr (h x y : Z) :
  0 ≤ h < SIZE_MOD → size_wrap x = size_wrap y → Z.land h x = Z.land h y.
Proof.
  intros Hh Hxy. rewrite <-(land_size_wrap h x), <-(land_size_wrap h y) by done.
  by rewrite Hxy.
Qed.

Lemma lor_shiftl_1 (a : Z) : Z.lor (Z.shiftl a 1) 1 = 2 * a + 1.
Proof.
  rewrite Z.shiftl_mul_pow2 by lia. change (2 ^ 1) with 2.
  assert (Z.land (a * 2) 1 = 0) as Hland.
  { change 1 with (Z.ones 1). rewrite Z.land_ones by lia.
    change (2 ^ 1) with 2. by rewrite Z.mod_mul. }
  rewrite <-Z.lxor_lor, <-Z.add_nocarry_lxor by done. lia.
Qed.

(** The high mask of [hash2bucket], [(mask << 1) + 1] computed in [size_t],
    agrees modulo [2^64] with [2 * mask + 1]. *)
Lemma mask_hi_wrap (x : Z) :
  size_wrap (size_add (size_shl (size_wrap x) 1) 1) = size_wrap (2 * x + 1).
Proof.
  unfold size_add, size_shl, size_wrap.
  rewrite Z.shiftl_mul_pow2 by lia. change (2 ^ 1) with 2.
  rewrite Z.mod_mod by done.
  rewrite Zmult_mod_idemp_l, Zplus_mod_idemp_l. f_equal. lia.
Qed.

Section Theory.

Context {K V : Type} `{EqDecision K} `{Hash K}.

Implicit Types (hm : LinearHash K V) (k : K) (v : V) (e : Entry K V)
  (b : Bucket K V).

(** ** Addressing *)

(** C3. [hash2bucket] reads [std::hash] of the key and the three state
    variables [init_size], [depth] and [split_ptr] only, and it is the address
    function of the specification: with [L = init_size << depth] and
    [i0 = h & (L - 1)], the result is [h & (((L - 1) << 1) | 1)] when
    [i0 < split_ptr] and [i0] otherwise.  The 64-bit wrap-around of the
    source's intermediate values does not show in the result. *)
Theorem C3_hash2bucket_addr hm k :
  hash2bucket hm k = addr (std_hash k) (init_size hm) (depth hm) (split_ptr hm).
Proof.
  pose proof (std_hash_range k) as Hh.
  unfold hash2bucket, addr. cbv zeta.
  set (L := Z.shiftl (init_size hm) (depth hm)).
  assert (Z.land (std_hash k) (size_sub (size_shl (init_size hm) (depth hm)) 1)
          = Z.land (std_hash k) (L - 1)) as ->.
  { unfold size_sub, size_shl. rewrite land_size_wrap by done.
    apply land_congr; [done|]. unfold size_wrap. fold L.
    by rewrite Zminus_mod_idemp_l. }
  destruct (Z.land (std_hash k) (L - 1) <? split_ptr hm); [|done].
  apply land_congr; [done|].
  rewrite lor_shiftl_1. unfold size_sub, size_shl at 2. fold L.
  rewrite mask_hi_wrap. apply size_wrap_congr.
  rewrite <-Zplus_mod_idemp_l, <-Zmult_mod_idemp_r.
  unfold size_wrap. rewrite Zminus_mod_idemp_l.
  by rewrite Zmult_mod_idemp_r, Zplus_mod_idemp_l.
Qed.

(** Under the shape invariants the shift does not wrap: the pre-expansion
    size is a power of two below [2^64]. *)
Lemma shape_pre_expansion hm :
  shape_inv hm →
  ∃ m, 0 ≤ m < 64 ∧ pre_expansion_size hm = 2 ^ m
       ∧ init_size hm * 2 ^ depth hm = 2 ^ m.
Proof.
  intros [(n & Hn & Hinit) Hd _ Hsp].
  unfold pre_expansion_size, size_shl, size_wrap in *.
  rewrite Z.shiftl_mul_pow2, Hinit, <-Z.pow_add_r in * by lia.
  exists (n + depth hm). rewrite SIZE_MOD_eq in *.
  destruct (Z.lt_ge_cases (n + depth hm) 64) as [Hlt|Hge].
  - split; [lia|]. split; [|done]. apply Z.mod_small. split.
    + apply Z.pow_nonneg; lia.
    + apply Z.pow_lt_mono_r; lia.
  - exfalso.
    replace (n + depth hm) with ((n + depth hm - 64) + 64) in Hsp by lia.
    rewrite Z.pow_add_r, Z.mod_mul in Hsp by lia. lia.
Qed.

Lemma pow2_lt_half (m : Z) : 0 ≤ m < 64 → 0 < 2 ^ m ∧ 2 * 2 ^ m ≤ SIZE_MOD.
Proof.
  intros Hm. split; [apply Z.pow_pos_nonneg; lia|].
  rewrite SIZE_MOD_eq. change (2 ^ 64) with (2 * 2 ^ 63).
  apply Z.mul_le_mono_nonneg_l; [lia|]. apply Z.pow_le_mono_r; lia.
Qed.

(** [hash2bucket] in modular form: the low [m] bits of the hash, or the low
    [m + 1] bits for a bucket that has been split in this round. *)
Lemma hash2bucket_mod hm k m :
  0 ≤ m < 64 → pre_expansion_size hm = 2 ^ m →
  hash2bucket hm k =
    if std_hash k mod 2 ^ m <? split_ptr hm
    then std_hash k mod (2 * 2 ^ m) else std_hash k mod 2 ^ m.
Proof.
  intros Hm Hpre. pose proof (std_hash_range k) as Hh.
  pose proof (pow2_lt_half m Hm) as [Hpos Hhalf].
  unfold hash2bucket. cbv zeta. fold (pre_expansion_size hm). rewrite Hpre.
  assert (size_sub (2 ^ m) 1 = 2 ^ m - 1) as ->.
  { apply size_wrap_small. lia. }
  rewrite land_pred_pow2 by lia.
  destruct (std_hash k mod 2 ^ m <? split_ptr hm); [|done].
  replace (2 * 2 ^ m) with (2 ^ (m + 1)) by (rewrite Z.pow_add_r by lia; lia).
  rewrite <-(land_pred_pow2 _ (m + 1)) by lia.
  apply land_congr; [done|].
  rewrite <-(size_wrap_small (2 ^ m - 1)) at 1 by lia.
  rewrite mask_hi_wrap. f_equal. rewrite Z.pow_add_r by lia. lia.
Qed.

Lemma table_size_lt_mod hm : shape_inv hm → table_size hm < SIZE_MOD.
Proof.
  intros Hs. destruct (shape_pre_expansion hm Hs) as (m & Hm & Hpre & _).
  destruct Hs as [_ _ Hlen Hsp]. rewrite Hpre in *.
  pose proof (pow2_lt_half m Hm). lia.
Qed.

(** The index [hash2bucket] returns is inside the table. *)
Lemma hash2bucket_range hm k :
  shape_inv hm → 0 ≤ hash2bucket hm k < table_size hm.
Proof.
  intros Hs. destruct (shape_pre_expansion hm Hs) as (m & Hm & Hpre & _).
  rewrite (hash2bucket_mod hm k m) by done.
  destruct Hs as [_ _ Hlen Hsp]. rewrite Hpre in *.
  pose proof (pow2_lt_half m Hm) as [Hpos _].
  pose proof (Z.mod_pos_bound (std_hash k) (2 ^ m) Hpos).
  destruct (Z.ltb_spec (std_hash k mod 2 ^ m) (split_ptr hm)) as [Hlt|Hge]; [|lia].
  rewrite mod_pow2_succ by lia.
  destruct (land_pow2_cases (std_hash k) m) as [-> | ->]; lia.
Qed.

Lemma at_Ok {A} (v : list A) (i : Z) (a : A) :
  at_ v i = Ok a ↔ 0 ≤ i ∧ v !! Z.to_nat i = Some a.
Proof.
  unfold at_. case_bool_decide as Hi.
  - destruct (v !! Z.to_nat i) as [a'|] eqn:Hl.
    + split; [intros [= ->]; split; [lia|done] | intros [_ [= ->]]; done].
    + apply lookup_ge_None in Hl. lia.
  - split; [done|]. intros [? Hl]. apply lookup_lt_Some in Hl. lia.
Qed.

Lemma at_in_range {A} (v : list A) (i : Z) :
  0 ≤ i < Z.of_nat (length v) → ∃ a, at_ v i = Ok a ∧ v !! Z.to_nat i = Some a.
Proof.
  intros Hi. destruct (lookup_lt_is_Some_2 v (Z.to_nat i)) as [a Ha]; [lia|].
  exists a. split; [|done]. apply at_Ok. split; [lia|done].
Qed.

Lemma at_hash2bucket hm k :
  shape_inv hm →
  ∃ b, at_ (table hm) (hash2bucket hm k) = Ok b
       ∧ table hm !! Z.to_nat (hash2bucket hm k) = Some b.
Proof. intros Hs. apply at_in_range. by apply hash2bucket_range. Qed.

(** ** Buckets: the linear scan *)

Lemma scan_cons k e (es : list (Entry K V)) :
  scan k (e :: es) =
    if decide (key e = k) then Some (0%nat, e)
    else prod_map S id <$> scan k es.
Proof. reflexivity. Qed.

Lemma find_value_nil k : find_value (V:=V) k [] = None.
Proof. reflexivity. Qed.

Lemma find_value_cons k e (es : list (Entry K V)) :
  find_value k (e :: es) =
    if decide (key e = k) then Some (value e) else find_value k es.
Proof.
  unfold find_value. rewrite scan_cons. case_decide; [done|].
  by destruct (scan k es) as [[??]|].
Qed.

Lemma find_value_app k (l1 l2 : list (Entry K V)) :
  find_value k (l1 ++ l2) =
    match find_value k l1 with Some v => Some v | None => find_value k l2 end.
Proof.
  induction l1 as [|e l1 IH]; [done|]. simpl.
  rewrite !find_value_cons. by case_decide.
Qed.

Lemma scan_Some k (es : list (Entry K V)) j e :
  scan k es = Some (j, e) → es !! j = Some e ∧ key e = k.
Proof. intros Hs. apply list_find_Some in Hs as (? & ? & _). done. Qed.

Lemma scan_None k (es : list (Entry K V)) :
  scan k es = None ↔ k ∉ key <$> es.
Proof.
  unfold scan. rewrite list_find_None, Forall_forall. split.
  - intros Hall (e & -> & He)%list_elem_of_fmap. by apply (Hall e).
  - intros Hk e He Hkey. apply Hk. apply list_elem_of_fmap. by exists e.
Qed.

Lemma find_value_None k (es : list (Entry K V)) :
  find_value k es = None ↔ k ∉ key <$> es.
Proof.
  rewrite <-scan_None. unfold find_value. by destruct (scan k es).
Qed.

Lemma find_value_Some_elem k (es : list (Entry K V)) v :
  find_value k es = Some v → {| key := k; value := v |} ∈ es.
Proof.
  unfold find_value. destruct (scan k es) as [[j e]|] eqn:Hs; [|done].
  intros [= <-]. apply scan_Some in Hs as [Hj Hk]. subst k.
  destruct e. by eapply list_elem_of_lookup_2.
Qed.

(** With distinct keys the scan finds the one entry of the key, wherever it
    is stored. *)
Lemma find_value_elem k (es : list (Entry K V)) e :
  NoDup (key <$> es) → e ∈ es → key e = k → find_value k es = Some (value e).
Proof.
  induction es as [|e' es IH]; intros Hnd He Hk; [by apply not_elem_of_nil in He|].
  rewrite fmap_cons, NoDup_cons in Hnd. destruct Hnd as [Hnotin Hnd].
  rewrite find_value_cons. apply elem_of_cons in He as [->|He].
  - by rewrite decide_True.
  - rewrite decide_False; [by apply IH|].
    intros Heq. apply Hnotin. apply list_elem_of_fmap. exists e.
    split; [congruence|done].
Qed.

Lemma find_value_ext k (l1 l2 : list (Entry K V)) :
  NoDup (key <$> l1) → NoDup (key <$> l2) →
  (∀ e, key e = k → e ∈ l1 ↔ e ∈ l2) →
  find_value k l1 = find_value k l2.
Proof.
  intros Hnd1 Hnd2 Hiff.
  destruct (find_value k l1) as [v1|] eqn:H1.
  - apply find_value_Some_elem in H1. apply Hiff in H1; [|done].
    symmetry. by apply (find_value_elem k l2 _ Hnd2 H1).
  - destruct (find_value k l2) as [v2|] eqn:H2; [|done].
    apply find_value_Some_elem in H2. apply Hiff in H2; [|done].
    apply find_value_None in H1. exfalso. apply H1.
    apply list_elem_of_fmap. by exists {| key := k; value := v2 |}.
Qed.

(** Overwriting the value of the entry found. *)
Lemma keys_insert_same (es : list (Entry K V)) j e v :
  es !! j = Some e →
  key <$> <[j := {| key := key e; value := v |}]> es = key <$> es.
Proof.
  intros Hj. rewrite list_fmap_insert. simpl.
  apply list_insert_id. by rewrite list_lookup_fmap, Hj.
Qed.

Lemma find_value_overwrite k k' (es : list (Entry K V)) j e v :
  scan k es = Some (j, e) →
  find_value k' (<[j := {| key := key e; value := v |}]> es) =
    if decide (k = k') then Some v else find_value k' es.
Proof.
  revert j. induction es as [|e' es IH]; intros j Hs; [done|].
  rewrite scan_cons in Hs. destruct (decide (key e' = k)) as [Hk|Hk].
  - injection Hs as <- <-. simpl. rewrite !find_value_cons. simpl.
    subst k. by repeat case_decide.
  - destruct (scan k es) as [[j' e'']|] eqn:Hs'; [|done].
    injection Hs as <- <-. simpl. rewrite !find_value_cons.
    rewrite (IH j') by done. repeat case_decide; congruence.
Qed.

(** Appending an entry for a key the bucket does not hold. *)
Lemma find_value_snoc k k' (es : list (Entry K V)) v :
  scan k es = None →
  find_value k' (es ++ [ {| key := k; value := v |} ]) =
    if decide (k = k') then Some v else find_value k' es.
Proof.
  intros Hs. rewrite find_value_app, find_value_cons, find_value_nil. simpl.
  destruct (decide (k = k')) as [<-|Hne].
  - apply scan_None, find_value_None in Hs. by rewrite Hs.
  - by destruct (find_value k' es).
Qed.

(** ** Buckets: swap-and-pop *)

Lemma swap_pop_last (l : list (Entry K V)) back :
  swap_pop (length l) (l ++ [back]) = l.
Proof.
  unfold swap_pop. rewrite last_snoc, length_app. simpl.
  replace (length l + 1 - 1)%nat with (length l) by lia.
  rewrite insert_app_r_alt, Nat.sub_diag by lia. simpl.
  by rewrite take_app_length.
Qed.

Lemma swap_pop_inner (l : list (Entry K V)) back j :
  (j < length l)%nat → swap_pop j (l ++ [back]) = <[j := back]> l.
Proof.
  intros Hj. unfold swap_pop. rewrite last_snoc, length_app. simpl.
  replace (length l + 1 - 1)%nat with (length l) by lia.
  rewrite insert_app_l by done.
  rewrite <-(length_insert l j back) at 1. by rewrite take_app_length.
Qed.

(** The bucket after swap-and-pop holds what it held, less the entry at the
    position removed. *)
Lemma swap_pop_perm (es : list (Entry K V)) j e :
  es !! j = Some e → es ≡ₚ e :: swap_pop j es.
Proof.
  intros Hj.
  destruct (last es) as [back|] eqn:Hlast.
  2:{ apply last_None in Hlast. by subst es. }
  apply last_Some in Hlast as [l ->].
  pose proof (lookup_lt_Some _ _ _ Hj) as Hlt. rewrite length_app in Hlt. simpl in Hlt.
  destruct (decide (j = length l)) as [->|Hne].
  - rewrite swap_pop_last.
    rewrite lookup_app_r, Nat.sub_diag in Hj by lia. injection Hj as <-.
    by rewrite Permutation_app_comm.
  - assert (j < length l)%nat as Hj' by lia.
    rewrite swap_pop_inner by done.
    rewrite lookup_app_l in Hj by done.
    rewrite <-(take_drop_middle l j e Hj) at 1.
    rewrite insert_take_drop by done.
    rewrite <-!app_assoc. simpl.
    rewrite (Permutation_app_comm (drop (S j) l) [back]). simpl.
    by rewrite !Permutation_middle, Permutation_swap.
Qed.

Lemma swap_pop_length (es : list (Entry K V)) j e :
  es !! j = Some e → length es = S (length (swap_pop j es)).
Proof. intros Hj. by rewrite (swap_pop_perm es j e Hj) at 1. Qed.

Lemma swap_pop_NoDup (es : list (Entry K V)) j e :
  es !! j = Some e → NoDup (key <$> es) →
  (key e ∉ key <$> swap_pop j es) ∧ NoDup (key <$> swap_pop j es).
Proof.
  intros Hj Hnd. rewrite (swap_pop_perm es j e Hj), fmap_cons in Hnd.
  by apply NoDup_cons in Hnd.
Qed.

Lemma swap_pop_elem (es : list (Entry K V)) j e e' :
  es !! j = Some e → e' ∈ es ↔ e' = e ∨ e' ∈ swap_pop j es.
Proof.
  intros Hj. rewrite (swap_pop_perm es j e Hj) at 1. by rewrite elem_of_cons.
Qed.

Lemma find_value_swap_pop k k' (es : list (Entry K V)) j e :
  NoDup (key <$> es) → scan k es = Some (j, e) →
  find_value k' (swap_pop j es) =
    if decide (k = k') then None else find_value k' es.
Proof.
  intros Hnd [Hj Hk]%scan_Some.
  destruct (swap_pop_NoDup es j e Hj Hnd) as [Hnotin Hnd'].
  case_decide as Hkk.
  - apply find_value_None. congruence.
  - apply find_value_ext; [done..|]. intros e' He'.
    rewrite (swap_pop_elem es j e e' Hj). split; [tauto|].
    intros [->|?]; [congruence|done].
Qed.

(** ** Buckets: the two halves of a split *)

Lemma redistribute_halves mask (es new_entries temp : list (Entry K V)) :
  redistribute mask es new_entries temp =
    (new_entries ++ high_half mask es, temp ++ low_half mask es).
Proof.
  revert new_entries temp. induction es as [|e es IH]; intros new_entries temp.
  - by rewrite !app_nil_r.
  - simpl. unfold high_half, low_half in *. rewrite !filter_cons.
    destruct (Z.eqb_spec (Z.land (std_hash (key e)) mask) 0) as [Heq|Hne]; simpl.
    + rewrite IH, decide_False, decide_True by tauto. by rewrite <-app_assoc.
    + rewrite IH, decide_True, decide_False by tauto. by rewrite <-app_assoc.
Qed.

Lemma halves_length mask (es : list (Entry K V)) :
  (length (high_half mask es) + length (low_half mask es))%nat = length es.
Proof.
  unfold high_half, low_half. induction es as [|e es IH]; [done|].
  rewrite !filter_cons.
  destruct (decide (Z.land (std_hash (key e)) mask = 0)).
  - rewrite decide_False by tauto. simpl. lia.
  - rewrite decide_True by tauto. simpl. lia.
Qed.

Lemma filter_keys_NoDup (P : Entry K V → Prop) `{!∀ e, Decision (P e)}
    (es : list (Entry K V)) :
  NoDup (key <$> es) → NoDup (key <$> filter P es).
Proof.
  induction es as [|e es IH]; [done|].
  rewrite fmap_cons, NoDup_cons. intros [Hnotin Hnd].
  rewrite filter_cons. case_decide; [|by apply IH].
  rewrite fmap_cons, NoDup_cons. split; [|by apply IH].
  intros (e' & Hk & [_ He']%list_elem_of_filter)%list_elem_of_fmap.
  apply Hnotin, list_elem_of_fmap. by exists e'.
Qed.

(** ** The table: one bucket rewritten *)

Lemma entries_count_insert (t : list (Bucket K V)) (i : nat) b b' :
  t !! i = Some b →
  (length (mjoin (entries <$> <[i := b']> t)) + length (entries b))%nat =
  (length (mjoin (entries <$> t)) + length (entries b'))%nat.
Proof.
  intros Hi. pose proof (lookup_lt_Some _ _ _ Hi) as Hlt.
  rewrite insert_take_drop by done.
  rewrite <-(take_drop_middle t i b Hi) at 3.
  rewrite !fmap_app, !fmap_cons, !join_app. simpl.
  rewrite !length_app. lia.
Qed.

Lemma entries_count_snoc (t : list (Bucket K V)) b :
  length (mjoin (entries <$> (t ++ [b]))) =
  (length (mjoin (entries <$> t)) + length (entries b))%nat.
Proof.
  rewrite fmap_app, join_app, length_app. simpl. by rewrite app_nil_r.
Qed.

Lemma get_eq hm k b :
  table hm !! Z.to_nat (hash2bucket hm k) = Some b → 0 ≤ hash2bucket hm k →
  get hm k = Ok (find_value k (entries b)).
Proof.
  intros Hb Hi. unfold get.
  assert (at_ (table hm) (hash2bucket hm k) = Ok b) as -> by (by apply at_Ok).
  simpl. unfold find_value. by destruct (scan k (entries b)) as [[??]|].
Qed.

Lemma in_eq hm k b :
  table hm !! Z.to_nat (hash2bucket hm k) = Some b → 0 ≤ hash2bucket hm k →
  in_ hm k = Ok (bool_decide (is_Some (find_value k (entries b)))).
Proof.
  intros Hb Hi. unfold in_.
  assert (at_ (table hm) (hash2bucket hm k) = Ok b) as -> by (by apply at_Ok).
  simpl. unfold find_value. by destruct (scan k (entries b)) as [[??]|].
Qed.

Lemma shape_inv_ext hm hm' :
  init_size hm' = init_size hm → depth hm' = depth hm →
  split_ptr hm' = split_ptr hm → table_size hm' = table_size hm →
  shape_inv hm → shape_inv hm'.
Proof.
  intros Hi Hd Hs Ht [? ? ? ?].
  split; unfold pre_expansion_size in *; rewrite ?Hi, ?Hd, ?Hs, ?Ht; done.
Qed.

Lemma rewrite_bucket_get hm k i es n b k' :
  shape_inv hm → i = hash2bucket hm k →
  table hm !! Z.to_nat i = Some b →
  (hash2bucket hm k' = i → find_value k' es = find_value k' (entries b)) →
  get (rewrite_bucket hm i es n) k' = get hm k'.
Proof.
  intros Hs -> Hb Hfv.
  pose proof (hash2bucket_range hm k' Hs) as Hr'.
  destruct (at_hash2bucket hm k' Hs) as (b' & _ & Hb').
  rewrite (get_eq hm k' b') by (done || lia).
  pose proof (lookup_lt_Some _ _ _ Hb) as Hlt.
  destruct (decide (hash2bucket hm k' = hash2bucket hm k)) as [Heq|Hne].
  - rewrite (get_eq _ k' {| entries := es |}).
    + simpl. rewrite Hfv by done. rewrite Heq in Hb'. congruence.
    + change (hash2bucket (rewrite_bucket _ _ _ _) k') with (hash2bucket hm k').
      simpl. rewrite Heq. by apply list_lookup_insert_eq.
    + change (hash2bucket (rewrite_bucket _ _ _ _) k') with (hash2bucket hm k'). lia.
  - rewrite (get_eq _ k' b'); [done| |].
    + change (hash2bucket (rewrite_bucket _ _ _ _) k') with (hash2bucket hm k').
      simpl. rewrite list_lookup_insert_ne; [done|].
      pose proof (hash2bucket_range hm k Hs). lia.
    + change (hash2bucket (rewrite_bucket _ _ _ _) k') with (hash2bucket hm k'). lia.
Qed.

Lemma rewrite_bucket_Inv hm i es n b :
  Inv hm → table hm !! Z.to_nat i = Some b → 0 ≤ i →
  (∀ e, e ∈ es → hash2bucket hm (key e) = i) →
  NoDup (key <$> es) →
  n + Z.of_nat (length (entries b)) = num_elem hm + Z.of_nat (length es) →
  Inv (rewrite_bucket hm i es n).
Proof.
  intros [Hs Hpl Hnd Hc] Hb Hi Hes Hnd' Hn.
  pose proof (lookup_lt_Some _ _ _ Hb) as Hlt.
  split.
  - eapply shape_inv_ext; [..|exact Hs]; try done.
    unfold table_size. simpl. by rewrite length_insert.
  - intros j bj e Hj He.
    change (hash2bucket (rewrite_bucket _ _ _ _) (key e)) with (hash2bucket hm (key e)).
    simpl in Hj. destruct (decide (Z.to_nat i = j)) as [<-|Hne].
    + rewrite list_lookup_insert_eq in Hj by done. injection Hj as <-.
      rewrite (Hes e He). lia.
    + rewrite list_lookup_insert_ne in Hj by done. by eapply Hpl.
  - intros j bj Hj. simpl in Hj. destruct (decide (Z.to_nat i = j)) as [<-|Hne].
    + rewrite list_lookup_insert_eq in Hj by done. by injection Hj as <-.
    + rewrite list_lookup_insert_ne in Hj by done. by eapply Hnd.
  - unfold all_entries in *. simpl.
    pose proof (entries_count_insert (table hm) (Z.to_nat i) b {| entries := es |} Hb)
      as Hcount. simpl in Hcount. lia.
Qed.

(** ** The split step *)

(** Addresses before and after a split of bucket [sp], for a table of
    pre-expansion size [L = 2^m]. *)
Lemma addr_split_other (h m sp : Z) :
  0 ≤ m → 0 ≤ sp < 2 ^ m → h mod 2 ^ m ≠ sp →
  let old := if h mod 2 ^ m <? sp then h mod (2 * 2 ^ m) else h mod 2 ^ m in
  let new := if h mod 2 ^ m <? sp + 1 then h mod (2 * 2 ^ m) else h mod 2 ^ m in
  new = old ∧ old ≠ sp ∧ 0 ≤ old < 2 ^ m + sp.
Proof.
  intros Hm Hsp Hne. cbv zeta.
  assert (0 ≤ h mod 2 ^ m < 2 ^ m) by (apply Z.mod_pos_bound; lia).
  rewrite mod_pow2_succ by done.
  destruct (Z.ltb_spec (h mod 2 ^ m) sp), (Z.ltb_spec (h mod 2 ^ m) (sp + 1));
    destruct (land_pow2_cases h m Hm) as [Hl|Hl]; lia.
Qed.

Lemma addr_split_self (h m sp : Z) :
  0 ≤ m → 0 ≤ sp < 2 ^ m → h mod 2 ^ m = sp →
  let old := if h mod 2 ^ m <? sp then h mod (2 * 2 ^ m) else h mod 2 ^ m in
  let new := if h mod 2 ^ m <? sp + 1 then h mod (2 * 2 ^ m) else h mod 2 ^ m in
  old = sp ∧ new = sp + Z.land h (2 ^ m).
Proof.
  intros Hm Hsp Heq. cbv zeta.
  rewrite mod_pow2_succ by done.
  destruct (Z.ltb_spec (h mod 2 ^ m) sp), (Z.ltb_spec (h mod 2 ^ m) (sp + 1)); lia.
Qed.

Lemma split_step_eq hm original :
  shape_inv hm → table hm !! Z.to_nat (split_ptr hm) = Some original →
  split_step hm = Ok (split_state hm original).
Proof.
  intros Hs Ho. destruct (shape_pre_expansion hm Hs) as (m & Hm & Hpre & _).
  pose proof (pow2_lt_half m Hm) as [Hpos Hhalf].
  pose proof (shape_sp hm Hs) as Hsp. pose proof (shape_init hm Hs) as (n & Hn & Hinit).
  pose proof (lookup_lt_Some _ _ _ Ho) as Hlt.
  assert (depth hm < 64) as Hd.
  { pose proof (shape_depth hm Hs). destruct (shape_pre_expansion hm Hs) as (m' & Hm' & _ & Hm'').
    rewrite Hinit, <-Z.pow_add_r in Hm'' by lia.
    apply Z.pow_inj_r in Hm''; lia. }
  unfold split_step, split_state. cbv zeta.
  assert (at_ (table hm ++ [ {| entries := [] |} ]) (split_ptr hm) = Ok original) as ->.
  { apply at_Ok. split; [lia|]. by rewrite lookup_app_l. }
  assert (at_ (table hm ++ [ {| entries := [] |} ]) (Z.of_nat (length (table hm)))
          = Ok {| entries := [] |}) as ->.
  { apply at_Ok. split; [lia|]. rewrite Nat2Z.id.
    by rewrite lookup_app_r, Nat.sub_diag by lia. }
  simpl. rewrite redistribute_halves. simpl.
  assert (size_add (split_ptr hm) 1 = split_ptr hm + 1) as ->.
  { apply size_wrap_small. unfold pre_expansion_size in *. lia. }
  assert (size_add (depth hm) 1 = depth hm + 1) as ->.
  { apply size_wrap_small. pose proof (shape_depth hm Hs). rewrite SIZE_MOD_eq. lia. }
  assert (<[Z.to_nat (split_ptr hm) := {| entries := low_half (size_shl (init_size hm) (depth hm)) (entries original) |}]>
            (<[length (table hm) := {| entries := high_half (size_shl (init_size hm) (depth hm)) (entries original) |}]>
               (table hm ++ [ {| entries := [] |} ]))
          = <[Z.to_nat (split_ptr hm) := {| entries := low_half (size_shl (init_size hm) (depth hm)) (entries original) |}]> (table hm)
            ++ [ {| entries := high_half (size_shl (init_size hm) (depth hm)) (entries original) |} ]) as ->.
  { rewrite insert_app_r_alt, Nat.sub_diag by lia. simpl.
    by rewrite insert_app_l. }
  by destruct (size_shl (init_size hm) (depth hm) <=? split_ptr hm + 1).
Qed.

Lemma split_state_table hm original :
  table (split_state hm original) =
    <[Z.to_nat (split_ptr hm) :=
        {| entries := low_half (pre_expansion_size hm) (entries original) |}]> (table hm)
    ++ [ {| entries := high_half (pre_expansion_size hm) (entries original) |} ].
Proof. unfold split_state. cbv zeta. by case_match. Qed.

Lemma split_state_fields hm original :
  init_size (split_state hm original) = init_size hm
  ∧ max_load_factor (split_state hm original) = max_load_factor hm
  ∧ num_elem (split_state hm original) = num_elem hm
  ∧ table_size (split_state hm original) = table_size hm + 1.
Proof.
  unfold table_size. rewrite split_state_table, length_app, length_insert. simpl.
  unfold split_state. cbv zeta. case_match; (repeat split; [done..|lia]).
Qed.

Lemma size_shl_depth_succ hm m :
  shape_inv hm → pre_expansion_size hm = 2 ^ m → 0 ≤ m → 2 * 2 ^ m < SIZE_MOD →
  size_shl (init_size hm) (depth hm + 1) = 2 * 2 ^ m.
Proof.
  intros Hs Hpre Hm Hlt.
  destruct (shape_pre_expansion hm Hs) as (m' & Hm' & Hpre' & Hmul).
  rewrite Hpre in Hpre'. apply Z.pow_inj_r in Hpre'; [subst m'|lia..].
  pose proof (shape_depth hm Hs).
  unfold size_shl. rewrite Z.shiftl_mul_pow2, Z.pow_add_r by lia.
  rewrite Z.mul_assoc, Hmul. change (2 ^ 1) with 2. rewrite (Z.mul_comm _ 2).
  apply size_wrap_small. pose proof (pow2_lt_half m Hm'). lia.
Qed.

(** The two state variables after a split step: the split pointer moves on,
    or wraps to [0] with [depth] one more. *)
Lemma split_state_cases hm original m :
  shape_inv hm → pre_expansion_size hm = 2 ^ m → 0 ≤ m < 64 →
  table_size hm + 1 < SIZE_MOD →
  (split_ptr hm + 1 < 2 ^ m
   ∧ split_ptr (split_state hm original) = split_ptr hm + 1
   ∧ depth (split_state hm original) = depth hm
   ∧ pre_expansion_size (split_state hm original) = 2 ^ m)
  ∨ (split_ptr hm + 1 = 2 ^ m
     ∧ split_ptr (split_state hm original) = 0
     ∧ depth (split_state hm original) = depth hm + 1
     ∧ pre_expansion_size (split_state hm original) = 2 ^ (m + 1)
     ∧ m + 1 < 64).
Proof.
  intros Hs Hpre Hm Hbound.
  pose proof (shape_sp hm Hs) as Hsp. pose proof (shape_len hm Hs) as Hlen.
  rewrite Hpre in Hsp, Hlen.
  unfold split_state. cbv zeta. fold (pre_expansion_size hm). rewrite Hpre.
  destruct (Z.leb_spec (2 ^ m) (split_ptr hm + 1)) as [Hle|Hgt].
  - right. assert (2 * 2 ^ m < SIZE_MOD) as Hlt by lia.
    repeat split; [lia| |].
    + unfold pre_expansion_size. simpl.
      rewrite (size_shl_depth_succ hm m) by (done || lia).
      rewrite Z.pow_add_r by lia. lia.
    + destruct (Z.lt_ge_cases (m + 1) 64) as [|Hge]; [done|].
      assert (m = 63) as -> by lia. rewrite SIZE_MOD_eq in Hlt. lia.
  - left. repeat split; [lia|done].
Qed.

Lemma split_state_shape hm original :
  shape_inv hm → table_size hm + 1 < SIZE_MOD →
  shape_inv (split_state hm original).
Proof.
  intros Hs Hbound. destruct (shape_pre_expansion hm Hs) as (m & Hm & Hpre & _).
  pose proof (shape_sp hm Hs) as Hsp. pose proof (shape_len hm Hs) as Hlen.
  rewrite Hpre in Hsp, Hlen.
  destruct (split_state_fields hm original) as (Hi & _ & _ & Ht).
  destruct (split_state_cases hm original m Hs Hpre Hm Hbound)
    as [(Hlt & Hsp' & Hd' & Hpre')|(Heq & Hsp' & Hd' & Hpre' & Hm')].
  - split; rewrite ?Hi, ?Hd', ?Hsp', ?Hpre', ?Ht;
      [apply Hs|apply Hs|lia|lia].
  - pose proof (shape_depth hm Hs).
    split; rewrite ?Hi, ?Hd', ?Hsp', ?Hpre', ?Ht; [apply Hs|lia| |].
    + rewrite Z.pow_add_r by lia. lia.
    + split; [lia|]. apply Z.pow_pos_nonneg; lia.
Qed.

Lemma split_state_addr hm original m k :
  shape_inv hm → pre_expansion_size hm = 2 ^ m → 0 ≤ m < 64 →
  table_size hm + 1 < SIZE_MOD →
  hash2bucket (split_state hm original) k =
    if std_hash k mod 2 ^ m <? split_ptr hm + 1
    then std_hash k mod (2 * 2 ^ m) else std_hash k mod 2 ^ m.
Proof.
  intros Hs Hpre Hm Hbound.
  pose proof (shape_sp hm Hs) as Hsp. rewrite Hpre in Hsp.
  destruct (split_state_cases hm original m Hs Hpre Hm Hbound)
    as [(Hlt & Hsp' & Hd' & Hpre')|(Heq & Hsp' & Hd' & Hpre' & Hm')].
  - rewrite (hash2bucket_mod _ k m) by done. by rewrite Hsp'.
  - rewrite (hash2bucket_mod _ k (m + 1)) by (done || lia). rewrite Hsp'.
    assert (0 < 2 ^ (m + 1)) as Hpos by (apply Z.pow_pos_nonneg; lia).
    assert (0 < 2 ^ m) as Hpos' by (apply Z.pow_pos_nonneg; lia).
    pose proof (Z.mod_pos_bound (std_hash k) (2 ^ (m + 1)) Hpos).
    pose proof (Z.mod_pos_bound (std_hash k) (2 ^ m) Hpos').
    rewrite (proj2 (Z.ltb_ge _ 0)) by lia.
    rewrite (proj2 (Z.ltb_lt _ (split_ptr hm + 1))) by lia.
    f_equal. rewrite Z.pow_add_r by lia. lia.
Qed.

(** A half keeps what the scan finds for a key that belongs to it. *)
Lemma low_half_find k mask (es : list (Entry K V)) :
  Z.land (std_hash k) mask = 0 → find_value k (low_half mask es) = find_value k es.
Proof.
  intros Hk. unfold low_half. induction es as [|e es IH]; [done|].
  rewrite filter_cons, (find_value_cons k e es).
  destruct (decide (key e = k)) as [He|He].
  - rewrite decide_True by (by rewrite He).
    by rewrite find_value_cons, decide_True.
  - case_decide; [|done]. by rewrite find_value_cons, decide_False.
Qed.

Lemma high_half_find k mask (es : list (Entry K V)) :
  Z.land (std_hash k) mask ≠ 0 → find_value k (high_half mask es) = find_value k es.
Proof.
  intros Hk. unfold high_half. induction es as [|e es IH]; [done|].
  rewrite filter_cons, (find_value_cons k e es).
  destruct (decide (key e = k)) as [He|He].
  - rewrite decide_True by (by rewrite He).
    by rewrite find_value_cons, decide_True.
  - case_decide; [|done]. by rewrite find_value_cons, decide_False.
Qed.

(** Where the buckets of the table are after a split step. *)
Lemma split_state_lookup hm original (i : nat) :
  table hm !! Z.to_nat (split_ptr hm) = Some original →
  table (split_state hm original) !! i =
    if decide (i = length (table hm))
    then Some {| entries := high_half (pre_expansion_size hm) (entries original) |}
    else if decide (i = Z.to_nat (split_ptr hm))
    then Some {| entries := low_half (pre_expansion_size hm) (entries original) |}
    else table hm !! i.
Proof.
  intros Ho. pose proof (lookup_lt_Some _ _ _ Ho) as Hlt.
  rewrite split_state_table.
  destruct (decide (i = length (table hm))) as [->|Hne].
  - rewrite lookup_app_r by (rewrite length_insert; lia).
    by rewrite length_insert, Nat.sub_diag.
  - destruct (decide (i < length (table hm))%nat) as [Hi|Hi].
    + rewrite lookup_app_l by (by rewrite length_insert).
      destruct (decide (i = Z.to_nat (split_ptr hm))) as [->|Hne'].
      * by rewrite list_lookup_insert_eq.
      * by rewrite list_lookup_insert_ne.
    + rewrite decide_False by lia.
      rewrite lookup_ge_None_2, lookup_ge_None_2; [done|lia|].
      rewrite length_app, length_insert. simpl. lia.
Qed.

(** A split step moves entries, and [get] finds every key as before. *)
Lemma split_state_get hm original k :
  shape_inv hm → table_size hm + 1 < SIZE_MOD →
  table hm !! Z.to_nat (split_ptr hm) = Some original →
  get (split_state hm original) k = get hm k.
Proof.
  intros Hs Hbound Ho. destruct (shape_pre_expansion hm Hs) as (m & Hm & Hpre & _).
  pose proof (shape_sp hm Hs) as Hsp. pose proof (shape_len hm Hs) as Hlen.
  rewrite Hpre in Hsp, Hlen. unfold table_size in Hlen.
  pose proof (split_state_addr hm original m k Hs Hpre Hm Hbound) as Hnew.
  pose proof (hash2bucket_mod hm k m Hm Hpre) as Hold.
  assert (0 ≤ m) as Hm0 by lia.
  destruct (decide (std_hash k mod 2 ^ m = split_ptr hm)) as [Heq|Hne].
  - destruct (addr_split_self (std_hash k) m (split_ptr hm) Hm0 Hsp Heq) as [Ho' Hn'].
    rewrite Ho' in Hold. rewrite Hn' in Hnew.
    rewrite (get_eq hm k original) by (rewrite Hold; done || lia).
    destruct (land_pow2_cases (std_hash k) m Hm0) as [Hl|Hl]; rewrite Hl in Hnew.
    + erewrite get_eq; [|rewrite Hnew, split_state_lookup by done|rewrite Hnew; lia].
      2:{ rewrite decide_False, decide_True by lia. done. }
      simpl. rewrite Hpre. by rewrite low_half_find.
    + erewrite get_eq; [|rewrite Hnew, split_state_lookup by done|rewrite Hnew; lia].
      2:{ rewrite decide_True by lia. done. }
      simpl. rewrite Hpre. rewrite high_half_find; [done|]. lia.
  - destruct (addr_split_other (std_hash k) m (split_ptr hm) Hm0 Hsp Hne)
      as (Hsame & Hnsp & Hrange).
    rewrite <-Hold in Hsame, Hnsp, Hrange. rewrite Hsame in Hnew.
    destruct (at_hash2bucket hm k Hs) as (b & _ & Hb).
    rewrite (get_eq hm k b) by (done || lia).
    apply get_eq; [|lia]. rewrite Hnew, split_state_lookup by done.
    rewrite !decide_False by lia. done.
Qed.

Lemma split_state_Inv hm original :
  Inv hm → table_size hm + 1 < SIZE_MOD →
  table hm !! Z.to_nat (split_ptr hm) = Some original →
  Inv (split_state hm original).
Proof.
  intros [Hs Hpl Hnd Hc] Hbound Ho.
  destruct (shape_pre_expansion hm Hs) as (m & Hm & Hpre & _).
  pose proof (shape_sp hm Hs) as Hsp. pose proof (shape_len hm Hs) as Hlen.
  rewrite Hpre in Hsp, Hlen. unfold table_size in Hlen.
  assert (0 ≤ m) as Hm0 by lia.
  split.
  - by apply split_state_shape.
  - intros i b e Hi He.
    rewrite (split_state_addr hm original m (key e) Hs Hpre Hm Hbound).
    rewrite split_state_lookup in Hi by done.
    assert (∀ e', e' ∈ entries original → std_hash (key e') mod 2 ^ m = split_ptr hm)
      as Horig.
    { intros e' He'. pose proof (Hpl _ _ _ Ho He') as Hp.
      rewrite (hash2bucket_mod hm (key e') m Hm Hpre) in Hp.
      destruct (decide (std_hash (key e') mod 2 ^ m = split_ptr hm)) as [|Hne]; [done|].
      destruct (addr_split_other _ m (split_ptr hm) Hm0 Hsp Hne) as (_ & Hnsp & _).
      lia. }
    destruct (decide (i = length (table hm))) as [->|Hne].
    { injection Hi as <-. simpl in He. rewrite Hpre in He.
      apply list_elem_of_filter in He as [Hbit He].
      destruct (addr_split_self _ m (split_ptr hm) Hm0 Hsp (Horig e He)) as [_ ->].
      destruct (land_pow2_cases (std_hash (key e)) m Hm0); [done|lia]. }
    destruct (decide (i = Z.to_nat (split_ptr hm))) as [->|Hne'].
    { injection Hi as <-. simpl in He. rewrite Hpre in He.
      apply list_elem_of_filter in He as [Hbit He].
      destruct (addr_split_self _ m (split_ptr hm) Hm0 Hsp (Horig e He)) as [_ ->].
      lia. }
    pose proof (Hpl _ _ _ Hi He) as Hp.
    rewrite (hash2bucket_mod hm (key e) m Hm Hpre) in Hp.
    destruct (decide (std_hash (key e) mod 2 ^ m = split_ptr hm)) as [Heq|Hneq].
    + destruct (addr_split_self _ m (split_ptr hm) Hm0 Hsp Heq) as [Hold _]. lia.
    + destruct (addr_split_other _ m (split_ptr hm) Hm0 Hsp Hneq) as (-> & _ & _).
      done.
  - intros i b Hi. rewrite split_state_lookup in Hi by done.
    repeat case_decide.
    + injection Hi as <-. simpl. apply filter_keys_NoDup. by eapply Hnd.
    + injection Hi as <-. simpl. apply filter_keys_NoDup. by eapply Hnd.
    + by eapply Hnd.
  - destruct (split_state_fields hm original) as (_ & _ & -> & _).
    unfold all_entries in *. rewrite split_state_table, entries_count_snoc.
    pose proof (entries_count_insert (table hm) (Z.to_nat (split_ptr hm)) original
      {| entries := low_half (pre_expansion_size hm) (entries original) |} Ho) as Hcount.
    pose proof (halves_length (pre_expansion_size hm) (entries original)).
    simpl in *. lia.
Qed.

(** ** [insert] *)

Lemma should_split_eq hm :
  0 < table_size hm →
  should_split hm =
    PrimFloat.ltb (max_load_factor hm) (load_of (num_elem hm) (table_size hm)).
Proof.
  unfold should_split, table_size. destruct (table hm); [simpl; lia|done].
Qed.

(** The overwrite path: the key is in the bucket it is addressed to. *)
Lemma insert_present hm k v b j e :
  table hm !! Z.to_nat (hash2bucket hm k) = Some b → 0 ≤ hash2bucket hm k →
  scan k (entries b) = Some (j, e) →
  insert hm k v =
    Ok (rewrite_bucket hm (hash2bucket hm k)
          (<[j := {| key := key e; value := v |}]> (entries b)) (num_elem hm)).
Proof.
  intros Hb Hi Hscan. unfold insert. cbv zeta.
  assert (at_ (table hm) (hash2bucket hm k) = Ok b) as -> by (by apply at_Ok).
  simpl. by rewrite Hscan.
Qed.

(** The path of a new key: the entry is appended and counted, then the load
    is checked. *)
Lemma insert_absent hm k v b :
  table hm !! Z.to_nat (hash2bucket hm k) = Some b → 0 ≤ hash2bucket hm k →
  scan k (entries b) = None →
  let hm1 := rewrite_bucket hm (hash2bucket hm k)
               (entries b ++ [ {| key := k; value := v |} ])
               (size_add (num_elem hm) 1) in
  insert hm k v = if should_split hm1 then split_step hm1 else Ok hm1.
Proof.
  intros Hb Hi Hscan. unfold insert. cbv zeta.
  assert (at_ (table hm) (hash2bucket hm k) = Ok b) as -> by (by apply at_Ok).
  simpl. rewrite Hscan. unfold rewrite_bucket.
  by destruct (should_split _).
Qed.

Lemma rewrite_bucket_fields hm i es n :
  init_size (rewrite_bucket hm i es n) = init_size hm
  ∧ max_load_factor (rewrite_bucket hm i es n) = max_load_factor hm
  ∧ split_ptr (rewrite_bucket hm i es n) = split_ptr hm
  ∧ depth (rewrite_bucket hm i es n) = depth hm
  ∧ num_elem (rewrite_bucket hm i es n) = n
  ∧ table_size (rewrite_bucket hm i es n) = table_size hm.
Proof.
  repeat split. unfold table_size. simpl. by rewrite length_insert.
Qed.

Lemma rewrite_bucket_get_self hm k es n :
  shape_inv hm →
  get (rewrite_bucket hm (hash2bucket hm k) es n) k = Ok (find_value k es).
Proof.
  intros Hs. pose proof (hash2bucket_range hm k Hs) as Hr.
  rewrite (get_eq _ k {| entries := es |}); [done| |].
  - change (hash2bucket (rewrite_bucket _ _ _ _) k) with (hash2bucket hm k).
    simpl. apply list_lookup_insert_eq. unfold table_size in Hr. lia.
  - change (hash2bucket (rewrite_bucket _ _ _ _) k) with (hash2bucket hm k). lia.
Qed.

Lemma placed_at hm (i : Z) b e :
  Inv hm → table hm !! Z.to_nat i = Some b → 0 ≤ i → e ∈ entries b →
  hash2bucket hm (key e) = i.
Proof. intros HI Hb Hi He. rewrite (inv_placed hm HI _ _ _ Hb He). lia. Qed.

Lemma insert_spec hm k v :
  Inv hm → table_size hm + 1 < SIZE_MOD → num_elem hm + 1 < SIZE_MOD →
  ∃ hm', insert hm k v = Ok hm' ∧ Inv hm'
    ∧ (∀ k', get hm' k' = if decide (k = k') then Ok (Some v) else get hm k')
    ∧ init_size hm' = init_size hm
    ∧ max_load_factor hm' = max_load_factor hm
    ∧ (((∃ v0, get hm k = Ok (Some v0))
        ∧ num_elem hm' = num_elem hm ∧ table_size hm' = table_size hm
        ∧ split_ptr hm' = split_ptr hm ∧ depth hm' = depth hm)
       ∨ (get hm k = Ok None
          ∧ num_elem hm' = num_elem hm + 1
          ∧ if PrimFloat.ltb (max_load_factor hm)
                 (load_of (num_elem hm + 1) (table_size hm))
            then table_size hm' = table_size hm + 1 ∧ split_advanced hm hm'
            else table_size hm' = table_size hm
                 ∧ split_ptr hm' = split_ptr hm ∧ depth hm' = depth hm)).
Proof.
  intros HI Hbt Hbn. pose proof (inv_shape hm HI) as Hs.
  pose proof (hash2bucket_range hm k Hs) as Hr.
  destruct (at_hash2bucket hm k Hs) as (b & _ & Hb).
  pose proof (get_eq hm k b Hb (proj1 Hr)) as Hget.
  destruct (scan k (entries b)) as [[j e]|] eqn:Hscan.
  - (* overwrite *)
    destruct (scan_Some _ _ _ _ Hscan) as [Hj Hk].
    exists (rewrite_bucket hm (hash2bucket hm k)
              (<[j := {| key := key e; value := v |}]> (entries b)) (num_elem hm)).
    split; [apply (insert_present hm k v b j e); (done || lia)|].
    split; [|split; [|split; [done|split; [done|left]]]].
    + eapply rewrite_bucket_Inv; eauto; [lia| |by rewrite keys_insert_same; [eapply inv_distinct|]|].
      * intros e' He'. apply list_elem_of_lookup in He' as [j' Hj'].
        apply list_lookup_insert_Some in Hj' as [(-> & <- & _)|[_ Hj']].
        -- simpl. congruence.
        -- eapply placed_at; [done..|lia|]. by eapply list_elem_of_lookup_2.
      * rewrite length_insert. lia.
    + intros k'. destruct (decide (k = k')) as [<-|Hne].
      * rewrite rewrite_bucket_get_self by done.
        by rewrite (find_value_overwrite k k _ j e v Hscan), decide_True.
      * eapply rewrite_bucket_get; eauto. intros _.
        by rewrite (find_value_overwrite k k' _ j e v Hscan), decide_False.
    + rewrite Hget. unfold find_value. rewrite Hscan. simpl.
      split; [by eexists|]. repeat split. unfold table_size. simpl.
      by rewrite length_insert.
  - (* new key *)
    pose proof (insert_absent hm k v b Hb (proj1 Hr) Hscan) as Hins. cbv zeta in Hins.
    pose proof (inv_count hm HI) as Hc.
    assert (size_add (num_elem hm) 1 = num_elem hm + 1) as Hadd.
    { apply size_wrap_small. lia. }
    rewrite Hadd in Hins.
    set (hm1 := rewrite_bucket hm (hash2bucket hm k)
                  (entries b ++ [ {| key := k; value := v |} ]) (num_elem hm + 1)) in *.
    destruct (rewrite_bucket_fields hm (hash2bucket hm k)
                (entries b ++ [ {| key := k; value := v |} ]) (num_elem hm + 1))
      as (Hi1 & Hl1 & Hsp1 & Hd1 & Hn1 & Ht1). fold hm1 in Hi1, Hl1, Hsp1, Hd1, Hn1, Ht1.
    assert (Inv hm1) as HI1.
    { eapply rewrite_bucket_Inv; eauto; [lia| | |].
      - intros e' [He'| ->%list_elem_of_singleton]%elem_of_app; [|done].
        eapply placed_at; [done..|lia|done].
      - rewrite fmap_app. simpl. apply NoDup_app. split; [by eapply inv_distinct|].
        split; [|apply NoDup_singleton].
        intros k0 Hk0 ->%list_elem_of_singleton. by apply scan_None in Hscan.
      - rewrite length_app. simpl. lia. }
    assert (∀ k', get hm1 k' = if decide (k = k') then Ok (Some v) else get hm k') as Hget1.
    { intros k'. destruct (decide (k = k')) as [<-|Hne].
      - unfold hm1. rewrite rewrite_bucket_get_self by done.
        by rewrite (find_value_snoc k k _ v Hscan), decide_True.
      - eapply rewrite_bucket_get; eauto. intros _.
        by rewrite (find_value_snoc k k' _ v Hscan), decide_False. }
    assert (get hm k = Ok None) as Hnone.
    { rewrite Hget. unfold find_value. by rewrite Hscan. }
    rewrite should_split_eq in Hins by lia. rewrite Hl1, Hn1, Ht1 in Hins.
    destruct (PrimFloat.ltb (max_load_factor hm)
                (load_of (num_elem hm + 1) (table_size hm))) eqn:Hload.
    + (* one split step *)
      pose proof (inv_shape hm1 HI1) as Hs1.
      assert (∃ original, table hm1 !! Z.to_nat (split_ptr hm1) = Some original)
        as [original Ho].
      { apply lookup_lt_is_Some_2. pose proof (shape_sp hm1 Hs1).
        pose proof (shape_len hm1 Hs1). unfold table_size in *. lia. }
      rewrite (split_step_eq hm1 original Hs1 Ho) in Hins.
      destruct (split_state_fields hm1 original) as (Hi2 & Hl2 & Hn2 & Ht2).
      exists (split_state hm1 original). split; [done|].
      split; [apply split_state_Inv; (done || lia)|].
      split; [intros k'; rewrite split_state_get by (done || lia); apply Hget1|].
      split; [congruence|]. split; [congruence|]. right.
      split; [done|]. split; [congruence|]. split; [lia|].
      destruct (shape_pre_expansion hm1 Hs1) as (m & Hm & Hpre & _).
      assert (pre_expansion_size hm = 2 ^ m) as Hpre0.
      { rewrite <-Hpre. unfold pre_expansion_size. by rewrite Hi1, Hd1. }
      destruct (split_state_cases hm1 original m Hs1 Hpre Hm)
        as [(Hlt & Hsp' & Hd' & _)|(Heq & Hsp' & Hd' & _)]; [lia|..].
      * left. rewrite Hpre0. rewrite Hsp', Hd'. lia.
      * right. rewrite Hpre0. rewrite Hsp', Hd'. lia.
    + exists hm1. split; [done|]. split; [done|]. split; [done|].
      split; [done|]. split; [done|]. right. done.
Qed.

(** ** [remove] *)

Lemma bucket_le_all (t : list (Bucket K V)) (i : nat) b :
  t !! i = Some b → (length (entries b) ≤ length (mjoin (entries <$> t)))%nat.
Proof.
  intros Hi. rewrite <-(take_drop_middle t i b Hi).
  rewrite fmap_app, fmap_cons, join_app. simpl. rewrite !length_app. lia.
Qed.

Lemma remove_spec hm k :
  Inv hm → num_elem hm < SIZE_MOD →
  ∃ hm' r, remove hm k = Ok (hm', r) ∧ Inv hm'
    ∧ (∀ k', get hm' k' = if decide (k = k') then Ok None else get hm k')
    ∧ init_size hm' = init_size hm
    ∧ max_load_factor hm' = max_load_factor hm
    ∧ split_ptr hm' = split_ptr hm ∧ depth hm' = depth hm
    ∧ table_size hm' = table_size hm
    ∧ (((∃ v0, get hm k = Ok (Some v0)) ∧ r = true
        ∧ num_elem hm' = num_elem hm - 1
        ∧ ∃ b j e,
            table hm !! Z.to_nat (hash2bucket hm k) = Some b
            ∧ entries b !! j = Some e ∧ key e = k
            ∧ table hm' = <[Z.to_nat (hash2bucket hm k) :=
                             {| entries := swap_pop j (entries b) |}]> (table hm)
            ∧ entries b ≡ₚ e :: swap_pop j (entries b))
       ∨ (get hm k = Ok None ∧ r = false ∧ hm' = hm)).
Proof.
  intros HI Hbn. pose proof (inv_shape hm HI) as Hs.
  pose proof (hash2bucket_range hm k Hs) as Hr.
  destruct (at_hash2bucket hm k Hs) as (b & Hat & Hb).
  pose proof (get_eq hm k b Hb (proj1 Hr)) as Hget.
  unfold remove. cbv zeta. rewrite Hat. simpl.
  destruct (scan k (entries b)) as [[j e]|] eqn:Hscan.
  - destruct (scan_Some _ _ _ _ Hscan) as [Hj Hk].
    pose proof (inv_distinct hm HI _ _ Hb) as Hnd.
    destruct (swap_pop_NoDup _ _ _ Hj Hnd) as [Hnotin Hnd'].
    pose proof (swap_pop_length _ _ _ Hj) as Hlen.
    pose proof (bucket_le_all _ _ _ Hb) as Hle.
    pose proof (inv_count hm HI) as Hc. unfold all_entries in Hc.
    assert (size_sub (num_elem hm) 1 = num_elem hm - 1) as ->.
    { apply size_wrap_small. lia. }
    fold (rewrite_bucket hm (hash2bucket hm k) (swap_pop j (entries b)) (num_elem hm - 1)).
    eexists _, _. split; [done|]. split.
    { eapply rewrite_bucket_Inv; eauto; [lia| |lia].
      intros e' He'. eapply placed_at; [done..|lia|].
      apply (swap_pop_elem _ _ _ e' Hj). by right. }
    split.
    { intros k'. destruct (decide (k = k')) as [<-|Hne].
      - rewrite rewrite_bucket_get_self by done.
        by rewrite (find_value_swap_pop k k _ j e Hnd Hscan), decide_True.
      - eapply rewrite_bucket_get; eauto. intros _.
        by rewrite (find_value_swap_pop k k' _ j e Hnd Hscan), decide_False. }
    destruct (rewrite_bucket_fields hm (hash2bucket hm k) (swap_pop j (entries b))
                (num_elem hm - 1)) as (? & ? & ? & ? & ? & ?).
    repeat (split; [done|]). left.
    split. { rewrite Hget. unfold find_value. rewrite Hscan. by eexists. }
    split; [done|]. split; [done|].
    exists b, j, e. repeat (split; [done|]). by apply swap_pop_perm.
  - exists hm, false. split; [done|]. split; [done|]. split.
    { intros k'. case_decide as Hk; [subst k'|done].
      rewrite Hget. unfold find_value. by rewrite Hscan. }
    repeat (split; [done|]). right. split; [|done].
    rewrite Hget. unfold find_value. by rewrite Hscan.
Qed.

(** ** The constructor *)

Lemma ctor_throws size lf :
  0 ≤ size < SIZE_MOD →
  LinearHash_ctor (K:=K) (V:=V) size lf = Throw invalid_argument
  ↔ size = 0 ∨ ¬ is_pow2 size.
Proof.
  intros Hsize. unfold LinearHash_ctor.
  destruct (decide (size = 0)) as [->|Hne].
  { rewrite bool_decide_eq_true_2 by done. simpl. split; [by left|done]. }
  rewrite (bool_decide_eq_false_2 (size = 0)) by done. simpl.
  assert (size_sub size 1 = size - 1) as -> by (apply size_wrap_small; lia).
  case_bool_decide as Hland; simpl.
  - split; [done|]. intros [?|Hnp]; [done|].
    exfalso. apply Hnp. apply land_pred_zero_pow2; [lia|done].
  - split; [|done]. intros _. right. intros (n & Hn & ->).
    apply Hland. by apply pow2_land_pred.
Qed.

Lemma ctor_Ok size lf :
  0 ≤ size < SIZE_MOD → size ≠ 0 → is_pow2 size →
  LinearHash_ctor (K:=K) (V:=V) size lf =
    Ok {| table := replicate (Z.to_nat size) {| entries := [] |};
          max_load_factor := lf; num_elem := 0; split_ptr := 0;
          init_size := size; depth := 0 |}.
Proof.
  intros Hsize Hne Hp.
  destruct (LinearHash_ctor (K:=K) (V:=V) size lf) as [hm|ex] eqn:Hc.
  - unfold LinearHash_ctor in Hc. by case_match.
  - assert (ex = invalid_argument) as ->.
    { unfold LinearHash_ctor in Hc. case_match; congruence. }
    apply ctor_throws in Hc as [?|?]; done.
Qed.

Lemma join_replicate_nil (n : nat) :
  mjoin (entries <$> replicate n ({| entries := [] |} : Bucket K V)) = [].
Proof. induction n as [|n IH]; [done|]. simpl. exact IH. Qed.

Lemma ctor_Inv size lf hm :
  0 ≤ size < SIZE_MOD → LinearHash_ctor size lf = Ok hm →
  Inv hm ∧ (∀ k, get hm k = Ok None)
  ∧ table_size hm = size ∧ num_elem hm = 0 ∧ split_ptr hm = 0 ∧ depth hm = 0
  ∧ init_size hm = size ∧ max_load_factor hm = lf.
Proof.
  intros Hsize Hc.
  assert (size ≠ 0 ∧ is_pow2 size) as [Hne Hp].
  { unfold LinearHash_ctor in Hc.
    destruct (decide (size = 0)) as [->|Hne].
    { by rewrite bool_decide_eq_true_2 in Hc. }
    rewrite (bool_decide_eq_false_2 (size = 0)) in Hc by done. simpl in Hc.
    assert (size_sub size 1 = size - 1) as Hsub by (apply size_wrap_small; lia).
    rewrite Hsub in Hc. case_bool_decide as Hland; [|done].
    split; [done|]. apply land_pred_zero_pow2; [lia|done]. }
  rewrite ctor_Ok in Hc by done. injection Hc as <-.
  assert (Z.of_nat (length (replicate (Z.to_nat size)
            ({| entries := [] |} : Bucket K V))) = size) as Hlen.
  { rewrite length_replicate. lia. }
  assert (shape_inv ({| table := replicate (Z.to_nat size) {| entries := [] |};
            max_load_factor := lf; num_elem := 0; split_ptr := 0;
            init_size := size; depth := 0 |} : LinearHash K V)) as Hs.
  { assert (size_shl size 0 = size) as Hshl.
    { unfold size_shl. rewrite Z.shiftl_0_r. by apply size_wrap_small. }
    split; unfold pre_expansion_size, table_size; simpl; rewrite ?Hshl; [done|lia|lia|lia]. }
  split; [split|].
  - done.
  - intros i b e Hi He. simpl in Hi. apply lookup_replicate in Hi as [-> _].
    by apply not_elem_of_nil in He.
  - intros i b Hi. simpl in Hi. apply lookup_replicate in Hi as [-> _].
    simpl. apply NoDup_nil_2.
  - unfold all_entries. simpl. by rewrite join_replicate_nil.
  - split; [|done]. intros k.
    destruct (at_hash2bucket _ k Hs) as (b & _ & Hb).
    rewrite (get_eq _ k b Hb) by (pose proof (hash2bucket_range _ k Hs); lia).
    simpl in Hb. apply lookup_replicate in Hb as [-> _]. done.
Qed.

(** ** One split step, and sequences of operations *)

Lemma split_step_spec hm :
  shape_inv hm → table_size hm + 1 < SIZE_MOD →
  ∃ hm', split_step hm = Ok hm' ∧ shape_inv hm'
    ∧ table_size hm' = table_size hm + 1 ∧ split_advanced hm hm'
    ∧ num_elem hm' = num_elem hm ∧ init_size hm' = init_size hm
    ∧ (∀ k, get hm' k = get hm k)
    ∧ (Inv hm → Inv hm').
Proof.
  intros Hs Hbound.
  assert (∃ original, table hm !! Z.to_nat (split_ptr hm) = Some original)
    as [original Ho].
  { apply lookup_lt_is_Some_2. pose proof (shape_sp hm Hs).
    pose proof (shape_len hm Hs). unfold table_size in *. lia. }
  exists (split_state hm original).
  destruct (split_state_fields hm original) as (Hi & Hl & Hn & Ht).
  split; [by apply split_step_eq|]. split; [by apply split_state_shape|].
  split; [done|]. split.
  { destruct (shape_pre_expansion hm Hs) as (m & Hm & Hpre & _).
    destruct (split_state_cases hm original m Hs Hpre Hm Hbound)
      as [(Hlt & Hsp' & Hd' & _)|(Heq & Hsp' & Hd' & _)].
    - left. rewrite Hpre. done.
    - right. rewrite Hpre. done. }
  split; [done|]. split; [done|]. split.
  - intros k. by apply split_state_get.
  - intros HI. by apply split_state_Inv.
Qed.

Lemma placed_one_bucket hm : placed hm → one_bucket_per_key hm.
Proof.
  intros Hpl i j bi bj ei ej Hi Hj Hei Hej Hk.
  pose proof (Hpl _ _ _ Hi Hei) as H1. pose proof (Hpl _ _ _ Hj Hej) as H2.
  rewrite Hk in H1. lia.
Qed.

Lemma run_spec (ops : list (op K V)) hm :
  Inv hm →
  table_size hm + Z.of_nat (length ops) < SIZE_MOD →
  num_elem hm + Z.of_nat (length ops) < SIZE_MOD →
  ∃ hm', run hm ops = Ok hm' ∧ Inv hm'
    ∧ (∀ k m, get hm k = Ok m → get hm' k = Ok (fold_left (write k) ops m))
    ∧ table_size hm ≤ table_size hm' ≤ table_size hm + Z.of_nat (length ops)
    ∧ num_elem hm' ≤ num_elem hm + Z.of_nat (length ops)
    ∧ init_size hm' = init_size hm
    ∧ max_load_factor hm' = max_load_factor hm.
Proof.
  revert hm. induction ops as [|[k v|k] ops IH]; intros hm HI Hbt Hbn.
  - exists hm. simpl. split; [done|]. split; [done|]. split; [done|].
    split; [lia|]. split; [lia|done].
  - simpl in Hbt, Hbn.
    destruct (insert_spec hm k v HI) as (hm1 & Hins & HI1 & Hget & Hi & Hl & Hcase);
      [lia..|].
    assert (table_size hm ≤ table_size hm1 ≤ table_size hm + 1
            ∧ num_elem hm1 ≤ num_elem hm + 1) as [Ht Hn].
    { destruct Hcase as [(_ & -> & -> & _)|(_ & -> & Hsplit)]; [lia|].
      destruct (PrimFloat.ltb _ _); destruct Hsplit as [-> _]; lia. }
    destruct (IH hm1 HI1) as (hm' & Hrun & HI' & Hget' & Ht' & Hn' & Hi' & Hl');
      [lia..|].
    exists hm'. simpl. rewrite Hins. simpl.
    split; [done|]. split; [done|]. split.
    { intros k' m Hm. apply Hget'. rewrite Hget. simpl.
      case_decide; [done|]. done. }
    repeat split; (congruence || lia).
  - simpl in Hbt, Hbn.
    destruct (remove_spec hm k HI) as (hm1 & r & Hrem & HI1 & Hget & Hi & Hl & _ & _ & Ht & Hcase);
      [lia|].
    assert (num_elem hm1 ≤ num_elem hm) as Hn.
    { destruct Hcase as [(_ & _ & -> & _)|(_ & _ & ->)]; lia. }
    destruct (IH hm1 HI1) as (hm' & Hrun & HI' & Hget' & Ht' & Hn' & Hi' & Hl');
      [lia..|].
    exists hm'. simpl. rewrite Hrem. simpl.
    split; [done|]. split; [done|]. split.
    { intros k' m Hm. apply Hget'. rewrite Hget. simpl.
      case_decide; [done|]. done. }
    repeat split; (congruence || lia).
Qed.

(** From the constructor. *)
Lemma run_from_ctor size lf (ops : list (op K V)) hm0 :
  0 ≤ size < SIZE_MOD → LinearHash_ctor size lf = Ok hm0 →
  size + Z.of_nat (length ops) < SIZE_MOD →
  ∃ hm, run hm0 ops = Ok hm ∧ Inv hm
    ∧ (∀ k, get hm k = Ok (last_write ops k))
    ∧ size ≤ table_size hm ≤ size + Z.of_nat (length ops)
    ∧ num_elem hm ≤ Z.of_nat (length ops)
    ∧ init_size hm = size ∧ max_load_factor hm = lf.
Proof.
  intros Hsize Hc Hbound.
  destruct (ctor_Inv size lf hm0 Hsize Hc) as (HI & Hget & Ht & Hn & _ & _ & Hi & Hl).
  destruct (run_spec ops hm0 HI) as (hm & Hrun & HI' & Hget' & Ht' & Hn' & Hi' & Hl');
    [lia..|].
  exists hm. split; [done|]. split; [done|]. split.
  { intros k. by apply Hget'. }
  repeat split; (congruence || lia).
Qed.

(** ** The last write of a key in a sequence of operations *)

Lemma fold_write_untouched k (ops : list (op K V)) m :
  (∀ o, o ∈ ops → op_key o ≠ k) → fold_left (write k) ops m = m.
Proof.
  revert m. induction ops as [|o ops IH]; intros m Hall; [done|].
  simpl. rewrite IH by (intros o' Ho'; apply Hall; by right).
  assert (op_key o ≠ k) as Hne by (apply Hall; by left).
  destruct o as [k' v|k']; simpl in *; by rewrite decide_False.
Qed.

Lemma last_write_insert k v (ops1 ops2 : list (op K V)) :
  (∀ o, o ∈ ops2 → op_key o ≠ k) →
  last_write (ops1 ++ Insert k v :: ops2) k = Some v.
Proof.
  intros Hall. unfold last_write. rewrite fold_left_app. simpl.
  rewrite decide_True by done. by apply fold_write_untouched.
Qed.

Lemma last_write_remove k (ops1 ops2 : list (op K V)) :
  (∀ o, o ∈ ops2 → op_key o ≠ k) →
  last_write (ops1 ++ Remove k :: ops2) k = None.
Proof.
  intros Hall. unfold last_write. rewrite fold_left_app. simpl.
  rewrite decide_True by done. by apply fold_write_untouched.
Qed.

Lemma last_write_never k (ops : list (op K V)) :
  (∀ v, Insert k v ∉ ops) → last_write ops k = None.
Proof.
  intros Hall. unfold last_write.
  assert (∀ m, m = None → fold_left (write k) ops m = None) as Hgen; [|by apply Hgen].
  induction ops as [|o ops IH]; intros m ->; [done|].
  simpl. apply IH.
  - intros v Hv. apply (Hall v). by right.
  - destruct o as [k' v|k']; simpl; case_decide; try done.
    subst k'. exfalso. apply (Hall v). by left.
Qed.

(** ** States reached from the constructor *)

Lemma reached_Inv size lf (ops : list (op K V)) hm0 hm :
  0 ≤ size < SIZE_MOD → LinearHash_ctor size lf = Ok hm0 →
  run hm0 ops = Ok hm → size + Z.of_nat (length ops) < SIZE_MOD →
  Inv hm ∧ table_size hm ≤ size + Z.of_nat (length ops)
  ∧ num_elem hm ≤ Z.of_nat (length ops)
  ∧ (∀ k, get hm k = Ok (last_write ops k)).
Proof.
  intros Hsize Hc Hrun Hbound.
  destruct (run_from_ctor size lf ops hm0 Hsize Hc Hbound)
    as (hm' & Hrun' & HI & Hget & Ht & Hn & _).
  rewrite Hrun in Hrun'. injection Hrun' as <-.
  split; [done|]. split; [lia|]. split; [lia|done].
Qed.

(** ** [in] and [get] agree, and see every entry of the table *)

Lemma in_get hm k :
  shape_inv hm →
  (in_ hm k = Ok true ↔ ∃ v, get hm k = Ok (Some v))
  ∧ (in_ hm k = Ok false ↔ get hm k = Ok None).
Proof.
  intros Hs. pose proof (hash2bucket_range hm k Hs) as Hr.
  destruct (at_hash2bucket hm k Hs) as (b & _ & Hb).
  rewrite (in_eq hm k b Hb), (get_eq hm k b Hb) by lia.
  destruct (find_value k (entries b)) as [v|]; simpl;
    (split; split; intros Hx; try done; try (by eexists); try (by destruct Hx)).
Qed.

Lemma elem_of_all_entries hm e :
  e ∈ all_entries hm ↔ ∃ (i : nat) b, table hm !! i = Some b ∧ e ∈ entries b.
Proof.
  unfold all_entries. rewrite list_elem_of_join. split.
  - intros (l & He & (b & -> & Hb)%list_elem_of_fmap).
    apply list_elem_of_lookup in Hb as [i Hi]. by exists i, b.
  - intros (i & b & Hi & He). exists (entries b). split; [done|].
    apply list_elem_of_fmap. exists b. split; [done|].
    by eapply list_elem_of_lookup_2.
Qed.

Lemma present_iff hm k :
  Inv hm → in_ hm k = Ok true ↔ k ∈ key <$> all_entries hm.
Proof.
  intros HI. pose proof (inv_shape hm HI) as Hs.
  pose proof (hash2bucket_range hm k Hs) as Hr.
  destruct (at_hash2bucket hm k Hs) as (b & _ & Hb).
  rewrite (in_eq hm k b Hb) by lia. split.
  - intros [= Hd]. apply bool_decide_eq_true in Hd as [v Hv].
    apply find_value_Some_elem in Hv.
    apply list_elem_of_fmap. exists {| key := k; value := v |}. split; [done|].
    apply elem_of_all_entries. by exists (Z.to_nat (hash2bucket hm k)), b.
  - intros (e & -> & (i & b' & Hi & He)%elem_of_all_entries)%list_elem_of_fmap.
    pose proof (inv_placed hm HI _ _ _ Hi He) as Hp.
    rewrite Hp, Nat2Z.id in Hb. rewrite Hi in Hb. injection Hb as ->.
    f_equal. apply bool_decide_eq_true.
    destruct (find_value (key e) (entries b)) eqn:Hf; [by eexists|].
    apply find_value_None in Hf. exfalso. apply Hf.
    apply list_elem_of_fmap. by exists e.
Qed.

(** Inserting what [get] already returns changes nothing. *)
Lemma insert_same hm k v :
  shape_inv hm → get hm k = Ok (Some v) → insert hm k v = Ok hm.
Proof.
  intros Hs Hget. pose proof (hash2bucket_range hm k Hs) as Hr.
  destruct (at_hash2bucket hm k Hs) as (b & _ & Hb).
  rewrite (get_eq hm k b Hb) in Hget by lia. injection Hget as Hfv.
  unfold find_value in Hfv.
  destruct (scan k (entries b)) as [[j e]|] eqn:Hscan; [|done].
  injection Hfv as Hv. destruct (scan_Some _ _ _ _ Hscan) as [Hj Hk].
  rewrite (insert_present hm k v b j e) by (done || lia). f_equal.
  unfold rewrite_bucket.
  assert (<[j := {| key := key e; value := v |}]> (entries b) = entries b) as ->.
  { apply list_insert_id. rewrite Hj. f_equal. destruct e. simpl in *. by subst. }
  assert (<[Z.to_nat (hash2bucket hm k) := {| entries := entries b |}]> (table hm)
          = table hm) as ->.
  { apply list_insert_id. rewrite Hb. f_equal. by destruct b. }
  by destruct hm.
Qed.

(** Under the shape invariants no operation throws. *)
Lemma insert_total hm k v : shape_inv hm → ∃ hm', insert hm k v = Ok hm'.
Proof.
  intros Hs. pose proof (hash2bucket_range hm k Hs) as Hr.
  destruct (at_hash2bucket hm k Hs) as (b & _ & Hb).
  destruct (scan k (entries b)) as [[j e]|] eqn:Hscan.
  - eexists. apply (insert_present hm k v b j e); (done || lia).
  - rewrite (insert_absent hm k v b Hb) by (done || lia).
    destruct (should_split _); [|by eexists].
    match goal with |- ∃ _, split_step ?h = _ => set (hm1 := h) end.
    assert (shape_inv hm1) as Hs1.
    { eapply shape_inv_ext; [..|exact Hs]; try done.
      unfold table_size. simpl. by rewrite length_insert. }
    assert (∃ original, table hm1 !! Z.to_nat (split_ptr hm1) = Some original)
      as [original Ho].
    { apply lookup_lt_is_Some_2. pose proof (shape_sp hm1 Hs1).
      pose proof (shape_len hm1 Hs1). unfold table_size in *. lia. }
    eexists. by apply split_step_eq.
Qed.

Lemma get_total hm k : shape_inv hm → ∃ r, get hm k = Ok r.
Proof.
  intros Hs. destruct (at_hash2bucket hm k Hs) as (b & _ & Hb).
  eexists. apply get_eq; [done|]. apply hash2bucket_range; done.
Qed.

Lemma in_total hm k : shape_inv hm → ∃ r, in_ hm k = Ok r.
Proof.
  intros Hs. destruct (at_hash2bucket hm k Hs) as (b & _ & Hb).
  eexists. apply in_eq; [done|]. apply hash2bucket_range; done.
Qed.

Lemma remove_total hm k : shape_inv hm → ∃ r, remove hm k = Ok r.
Proof.
  intros Hs. destruct (at_hash2bucket hm k Hs) as (b & Hat & _).
  unfold remove. cbv zeta. rewrite Hat. simpl.
  destruct (scan k (entries b)) as [[??]|]; by eexists.
Qed.

(** One [insert] of a key that [get] does not find, in a table whose
    counters are known. *)
Lemma insert_new_key hm k v :
  Inv hm → get hm k = Ok None →
  table_size hm + 1 < SIZE_MOD → num_elem hm + 1 < SIZE_MOD →
  ∃ hm', insert hm k v = Ok hm' ∧ Inv hm'
    ∧ (∀ k', k' ≠ k → get hm' k' = get hm k')
    ∧ init_size hm' = init_size hm
    ∧ max_load_factor hm' = max_load_factor hm
    ∧ num_elem hm' = num_elem hm + 1
    ∧ if PrimFloat.ltb (max_load_factor hm)
           (load_of (num_elem hm + 1) (table_size hm))
      then table_size hm' = table_size hm + 1 ∧ split_advanced hm hm'
      else table_size hm' = table_size hm
           ∧ split_ptr hm' = split_ptr hm ∧ depth hm' = depth hm.
Proof.
  intros HI Hnone Hbt Hbn.
  destruct (insert_spec hm k v HI Hbt Hbn) as (hm' & Hins & HI' & Hget & Hi & Hl & Hcase).
  exists hm'. split; [done|]. split; [done|]. split.
  { intros k' Hne. rewrite Hget. by rewrite decide_False. }
  split; [done|]. split; [done|].
  destruct Hcase as [([v0 Hv0] & _)|(_ & Hn & Hsplit)]; [congruence|done].
Qed.

(** ** The iterator *)

Section Iteration.

Variable hm : LinearHash K V.
Hypothesis table_fits : table_size hm < SIZE_MOD.
Hypothesis buckets_fit :
  ∀ (i : nat) b, table hm !! i = Some b → Z.of_nat (length (entries b)) < SIZE_MOD.

Lemma at_table_middle (pre suf : list (Bucket K V)) b :
  table hm = pre ++ b :: suf →
  at_ (table hm) (Z.of_nat (length pre)) = Ok b.
Proof using Type.
  intros Ht. apply at_Ok. split; [lia|]. rewrite Nat2Z.id, Ht.
  by rewrite lookup_app_r, Nat.sub_diag by lia.
Qed.

(** [go2data] stops at the first bucket that is not empty, or at the end of
    the table, before its fuel runs out. *)
Lemma go2data_loop_spec (suf pre : list (Bucket K V)) (fuel : nat) :
  table hm = pre ++ suf → (length suf < fuel)%nat →
  go2data_loop fuel hm (Z.of_nat (length pre)) =
    Ok (Z.of_nat (length pre + leading_empty suf)).
Proof using table_fits.
  revert pre fuel. induction suf as [|b suf IH]; intros pre fuel Ht Hfuel.
  - destruct fuel as [|fuel]; [simpl in Hfuel; lia|]. simpl.
    unfold table_size. rewrite Ht, app_nil_r, Z.ltb_irrefl. f_equal. lia.
  - destruct fuel as [|fuel]; [simpl in Hfuel; lia|]. simpl.
    assert (Z.of_nat (length pre) < table_size hm) as Hlt.
    { unfold table_size. rewrite Ht, length_app. simpl. lia. }
    rewrite (proj2 (Z.ltb_lt _ _) Hlt), (at_table_middle pre suf b Ht). simpl.
    destruct (is_empty b); simpl.
    + assert (size_add (Z.of_nat (length pre)) 1 = Z.of_nat (length (pre ++ [b]))) as ->.
      { rewrite length_app. simpl. unfold size_add. rewrite size_wrap_small; lia. }
      rewrite (IH (pre ++ [b]) fuel); [|by rewrite <-app_assoc|simpl in Hfuel; lia].
      f_equal. rewrite length_app. simpl. lia.
    + f_equal. lia.
Qed.

Lemma go2data_spec (suf pre : list (Bucket K V)) (j : Z) :
  table hm = pre ++ suf →
  go2data hm {| _bucket_idx := Z.of_nat (length pre); _entry_idx := j |} =
    Ok {| _bucket_idx := Z.of_nat (length pre + leading_empty suf); _entry_idx := j |}.
Proof using table_fits.
  intros Ht. unfold go2data. simpl _bucket_idx.
  rewrite (go2data_loop_spec suf pre); [done..|].
  rewrite Ht, length_app. lia.
Qed.

(** The loop condition of [go2data] fails when it returns: the fuel of the
    model is never what stops it. *)
Lemma go2data_loop_exit (idx : Z) :
  0 ≤ idx →
  ∃ idx', go2data_loop (S (length (table hm))) hm idx = Ok idx'
    ∧ idx ≤ idx'
    ∧ (idx' < table_size hm →
       ∃ b, table hm !! Z.to_nat idx' = Some b ∧ is_empty b = false).
Proof using table_fits.
  intros Hidx0.
  destruct (Z.lt_ge_cases (table_size hm) idx) as [Hgt|Hin].
  { exists idx. simpl. rewrite (proj2 (Z.ltb_ge _ _)) by lia.
    split; [done|]. split; [lia|]. intros; lia. }
  assert (0 ≤ idx ≤ table_size hm) as Hidx by lia.
  pose proof (take_drop (Z.to_nat idx) (table hm)) as Ht. symmetry in Ht.
  assert (length (take (Z.to_nat idx) (table hm)) = Z.to_nat idx) as Hlen.
  { rewrite length_take. unfold table_size in Hidx. lia. }
  pose proof (go2data_loop_spec _ _ (S (length (table hm))) Ht) as Hspec.
  rewrite Hlen, Z2Nat.id in Hspec by lia.
  rewrite Hspec by (rewrite length_drop; lia).
  eexists. split; [done|].
  assert (∀ (suf : list (Bucket K V)),
            (leading_empty suf ≤ length suf)%nat
            ∧ ((leading_empty suf < length suf)%nat →
               ∃ b, suf !! leading_empty suf = Some b ∧ is_empty b = false)) as Hle.
  { induction suf as [|b suf [IH1 IH2]]; simpl; [split; [lia|intros; lia]|].
    destruct (is_empty b) eqn:Hb; simpl.
    - split; [lia|]. intros Hlt. apply IH2. lia.
    - split; [lia|]. intros _. by exists b. }
  destruct (Hle (drop (Z.to_nat idx) (table hm))) as [Hle1 Hle2].
  rewrite length_drop in Hle1, Hle2. unfold table_size in *.
  split; [lia|]. intros Hlt.
  destruct Hle2 as (b & Hb & He); [lia|]. exists b. split; [|done].
  rewrite lookup_drop in Hb. rewrite <-Hb. f_equal. lia.
Qed.

(** Walking through the rest of one bucket, then on to the next buckets. *)
Lemma traverse_in_bucket (pre suf : list (Bucket K V)) b rest :
  table hm = pre ++ b :: suf →
  (∀ fuel, (length rest < fuel)%nat →
     traverse fuel hm
       {| _bucket_idx := Z.of_nat (length (pre ++ [b]) + leading_empty suf);
          _entry_idx := 0 |} (end_position hm) = Some (Ok rest)) →
  ∀ esuf epre e fuel,
    entries b = epre ++ e :: esuf →
    (length (e :: esuf) + length rest < fuel)%nat →
    traverse fuel hm
      {| _bucket_idx := Z.of_nat (length pre); _entry_idx := Z.of_nat (length epre) |}
      (end_position hm)
    = Some (Ok (bucket_positions (length pre) (length epre) (e :: esuf) ++ rest)).
Proof.
  intros Ht Hrest.
  assert (table hm !! length pre = Some b) as Hb.
  { rewrite Ht. by rewrite lookup_app_r, Nat.sub_diag by lia. }
  pose proof (buckets_fit _ _ Hb) as Hfit.
  assert (Z.of_nat (length pre) < table_size hm) as Hlt.
  { unfold table_size. rewrite Ht, length_app. simpl. lia. }
  induction esuf as [|e' esuf IH]; intros epre e fuel He Hfuel.
  - destruct fuel as [|fuel]; [simpl in Hfuel; lia|]. simpl traverse.
    unfold Iterator_eq, end_position. simpl _bucket_idx. simpl _entry_idx.
    rewrite (proj2 (Z.eqb_neq _ _)) by lia. simpl.
    unfold Iterator_deref, Iterator_incr. simpl _bucket_idx. simpl _entry_idx.
    rewrite (at_table_middle pre suf b Ht). simpl.
    assert (at_ (entries b) (Z.of_nat (length epre)) = Ok e) as ->.
    { apply at_Ok. split; [lia|]. rewrite Nat2Z.id, He.
      by rewrite lookup_app_r, Nat.sub_diag by lia. }
    rewrite He, length_app in Hfit |- *. simpl length in *.
    assert (size_add (Z.of_nat (length epre)) 1 = Z.of_nat (length epre) + 1) as ->.
    { apply size_wrap_small. lia. }
    rewrite (proj2 (Z.leb_le _ _)) by lia.
    assert (size_add (Z.of_nat (length pre)) 1 = Z.of_nat (length (pre ++ [b]))) as ->.
    { rewrite length_app. simpl. unfold size_add. rewrite size_wrap_small; lia. }
    rewrite (go2data_spec suf (pre ++ [b])) by (by rewrite <-app_assoc).
    fold (end_position hm). rewrite Hrest by lia. done.
  - destruct fuel as [|fuel]; [simpl in Hfuel; lia|]. simpl traverse.
    unfold Iterator_eq, end_position. simpl _bucket_idx. simpl _entry_idx.
    rewrite (proj2 (Z.eqb_neq _ _)) by lia. simpl.
    unfold Iterator_deref, Iterator_incr. simpl _bucket_idx. simpl _entry_idx.
    rewrite (at_table_middle pre suf b Ht). simpl.
    assert (at_ (entries b) (Z.of_nat (length epre)) = Ok e) as ->.
    { apply at_Ok. split; [lia|]. rewrite Nat2Z.id, He.
      by rewrite lookup_app_r, Nat.sub_diag by lia. }
    rewrite He, length_app in Hfit |- *. simpl length in *.
    assert (size_add (Z.of_nat (length epre)) 1 = Z.of_nat (length epre) + 1) as ->.
    { apply size_wrap_small. lia. }
    rewrite (proj2 (Z.leb_gt _ _)) by lia.
    rewrite (go2data_spec (b :: suf) pre) by done.
    assert (leading_empty (b :: suf) = 0%nat) as ->.
    { simpl. unfold is_empty. rewrite He. by destruct epre. }
    rewrite Nat.add_0_r.
    replace (Z.of_nat (length epre) + 1) with (Z.of_nat (length (epre ++ [e])))
      by (rewrite length_app; simpl; lia).
    fold (end_position hm).
    rewrite (IH (epre ++ [e]) e' fuel); [|by rewrite <-app_assoc|simpl in *; lia].
    rewrite length_app. simpl.
    replace (length epre + 1)%nat with (S (length epre)) by lia. done.
Qed.

Lemma traverse_from (suf pre : list (Bucket K V)) (fuel : nat) :
  table hm = pre ++ suf →
  (length (positions_from (length pre) suf) < fuel)%nat →
  traverse fuel hm
    {| _bucket_idx := Z.of_nat (length pre + leading_empty suf); _entry_idx := 0 |}
    (end_position hm)
  = Some (Ok (positions_from (length pre) suf)).
Proof.
  revert pre fuel. induction suf as [|b suf IH]; intros pre fuel Ht Hfuel.
  - destruct fuel as [|fuel]; [simpl in Hfuel; lia|]. simpl.
    unfold Iterator_eq, end_position, table_size. simpl.
    rewrite Ht, app_nil_r, Nat.add_0_r, !Z.eqb_refl. done.
  - assert (∀ fuel', (length (positions_from (S (length pre)) suf) < fuel')%nat →
       traverse fuel' hm
         {| _bucket_idx := Z.of_nat (length (pre ++ [b]) + leading_empty suf);
            _entry_idx := 0 |} (end_position hm)
       = Some (Ok (positions_from (S (length pre)) suf))) as Hrest.
    { intros fuel' Hfuel'.
      replace (S (length pre)) with (length (pre ++ [b])) in Hfuel' |- *
        by (rewrite length_app; simpl; lia).
      apply IH; [by rewrite <-app_assoc|done]. }
    simpl positions_from in *. simpl leading_empty. unfold is_empty.
    destruct (entries b) as [|e es] eqn:He.
    + simpl in *. specialize (Hrest fuel Hfuel).
      rewrite length_app in Hrest. simpl in Hrest.
      replace (length pre + S (leading_empty suf))%nat
        with (length pre + 1 + leading_empty suf)%nat by lia. done.
    + rewrite Nat.add_0_r.
      apply (traverse_in_bucket pre suf b _ Ht Hrest es [] e fuel); [done|].
      rewrite length_app in Hfuel. simpl in *. 
      assert (∀ i j (l : list (Entry K V)), length (bucket_positions i j l) = length l) as Hl.
      { intros i j l. revert j. induction l; intros; simpl; auto. }
      rewrite Hl in Hfuel. lia.
Qed.

Lemma begin_eq :
  begin_ hm =
    Ok {| _bucket_idx := Z.of_nat (leading_empty (table hm)); _entry_idx := 0 |}.
Proof using table_fits.
  unfold begin_, Iterator_ctor. cbv zeta.
  assert (table hm = [] ∨ ∃ b bs, table hm = b :: bs) as [Ht|(b & bs & Ht)].
  { clear. destruct (table hm); eauto. }
  - unfold table_size. rewrite Ht. done.
  - assert ((0 <? table_size hm) = true) as ->.
    { apply Z.ltb_lt. unfold table_size. rewrite Ht. simpl. lia. }
    pose proof (at_table_middle [] bs b Ht) as Hat.
    change (Z.of_nat (length [])) with 0 in Hat. rewrite Hat. simpl.
    pose proof (go2data_spec (b :: bs) [] 0 Ht) as Hgo.
    change (Z.of_nat (length [])) with 0 in Hgo. simpl in Hgo.
    destruct (is_empty b) eqn:Hb.
    + rewrite Hgo, Ht. simpl. by rewrite Hb.
    + rewrite Ht. simpl. by rewrite Hb.
Qed.

Lemma end_eq : end_ hm = Ok (end_position hm).
Proof using Type. unfold end_, Iterator_ctor. cbv zeta. by rewrite Z.ltb_irrefl. Qed.

End Iteration.

Lemma bucket_positions_snd (i j : nat) (es : list (Entry K V)) :
  (bucket_positions i j es).*2 = es.
Proof. revert j. induction es as [|e es IH]; intros j; simpl; [done|]. by rewrite IH. Qed.

Lemma positions_from_snd (i : nat) (bs : list (Bucket K V)) :
  (positions_from i bs).*2 = mjoin (entries <$> bs).
Proof.
  revert i. induction bs as [|b bs IH]; intros i; simpl; [done|].
  by rewrite fmap_app, bucket_positions_snd, IH.
Qed.

Lemma elem_of_bucket_positions (i j0 : nat) (es : list (Entry K V)) it e :
  ((it, e) ∈ bucket_positions i j0 es) ↔
  ∃ d : nat, it = {| _bucket_idx := Z.of_nat i; _entry_idx := Z.of_nat (j0 + d) |}
             ∧ es !! d = Some e.
Proof.
  revert j0. induction es as [|e' es IH]; intros j0; simpl.
  - split; [by intros ?%not_elem_of_nil|by intros (d & _ & ?)].
  - rewrite elem_of_cons, IH. split.
    + intros [[= -> ->]|(d & -> & Hd)].
      * exists 0%nat. by rewrite Nat.add_0_r.
      * exists (S d). split; [|done]. do 2 f_equal. lia.
    + intros ([|d] & -> & Hd); simpl in Hd.
      * injection Hd as ->. left. by rewrite Nat.add_0_r.
      * right. exists d. split; [|done]. do 2 f_equal. lia.
Qed.

Lemma elem_of_positions_from (i0 : nat) (bs : list (Bucket K V)) it e :
  ((it, e) ∈ positions_from i0 bs) ↔
  ∃ (d j : nat) b,
    it = {| _bucket_idx := Z.of_nat (i0 + d); _entry_idx := Z.of_nat j |}
    ∧ bs !! d = Some b ∧ entries b !! j = Some e.
Proof.
  revert i0. induction bs as [|b bs IH]; intros i0; simpl.
  - split; [by intros ?%not_elem_of_nil|by intros (d & j & b & _ & ? & _)].
  - rewrite elem_of_app, elem_of_bucket_positions, IH. split.
    + intros [(j & -> & Hj)|(d & j & b' & -> & Hd & Hj)].
      * exists 0%nat, j, b. by rewrite Nat.add_0_r.
      * exists (S d), j, b'. split; [|done]. do 2 f_equal. lia.
    + intros ([|d] & j & b' & -> & Hd & Hj); simpl in Hd.
      * injection Hd as ->. left. exists j. by rewrite Nat.add_0_r.
      * right. exists d, j, b'. split; [|done]. do 2 f_equal. lia.
Qed.

Lemma leading_empty_all (bs : list (Bucket K V)) :
  (leading_empty bs ≤ length bs)%nat
  ∧ (leading_empty bs = length bs ↔ mjoin (entries <$> bs) = []).
Proof.
  induction bs as [|b bs [IH1 IH2]]; simpl; [done|].
  unfold is_empty. destruct (entries b) as [|e es]; simpl.
  - split; [lia|]. rewrite <-IH2. lia.
  - split; [lia|]. done.
Qed.

(** * The claims *)

(** C1. Start from a freshly constructed table and run any sequence of
    [insert] and [remove] that the table can hold ([size + |ops| < 2^64]).
    The run does not throw, and for every key [k], [get(k)] returns the value
    of the last [insert(k, v)] that no [remove(k)] follows, splits or not:
    the value [v] when the last operation on [k] is [insert(k, v)], and the
    absent optional when the last operation on [k] is [remove(k)] or when
    [k] was never inserted. *)
Theorem C1_get_last_write size lf (ops : list (op K V)) hm0 :
  0 ≤ size < SIZE_MOD → LinearHash_ctor size lf = Ok hm0 →
  size + Z.of_nat (length ops) < SIZE_MOD →
  ∃ hm, run hm0 ops = Ok hm ∧ ∀ k,
    get hm k = Ok (last_write ops k)
    ∧ (∀ ops1 v ops2, ops = ops1 ++ Insert k v :: ops2 →
         (∀ o, o ∈ ops2 → op_key o ≠ k) → get hm k = Ok (Some v))
    ∧ (∀ ops1 ops2, ops = ops1 ++ Remove k :: ops2 →
         (∀ o, o ∈ ops2 → op_key o ≠ k) → get hm k = Ok None)
    ∧ ((∀ v, Insert k v ∉ ops) → get hm k = Ok None).
Proof.
  intros Hsize Hc Hbound.
  destruct (run_from_ctor size lf ops hm0 Hsize Hc Hbound)
    as (hm & Hrun & _ & Hget & _).
  exists hm. split; [done|]. intros k. rewrite Hget.
  split; [done|]. split; [|split].
  - intros ops1 v ops2 -> Hall. f_equal. by apply last_write_insert.
  - intros ops1 ops2 -> Hall. f_equal. by apply last_write_remove.
  - intros Hall. f_equal. by apply last_write_never.
Qed.

(** C2. After every sequence of operations from the constructor, every
    entry sits in the bucket [hash2bucket] gives for its key under the
    current [init_size], [depth] and [split_ptr], no key is in two buckets,
    and no key is twice in a bucket.  A split step keeps all of this: run on
    a table that satisfies the invariants, it leaves one that does. *)
Theorem C2_placement size lf (ops : list (op K V)) hm0 :
  0 ≤ size < SIZE_MOD → LinearHash_ctor size lf = Ok hm0 →
  size + Z.of_nat (length ops) < SIZE_MOD →
  (∃ hm, run hm0 ops = Ok hm
     ∧ placed hm ∧ one_bucket_per_key hm ∧ bucket_keys_distinct hm)
  ∧ (∀ hm1, Inv hm1 → table_size hm1 + 1 < SIZE_MOD →
       ∃ hm2, split_step hm1 = Ok hm2 ∧ shape_inv hm2
         ∧ placed hm2 ∧ one_bucket_per_key hm2 ∧ bucket_keys_distinct hm2).
Proof.
  intros Hsize Hc Hbound. split.
  - destruct (run_from_ctor size lf ops hm0 Hsize Hc Hbound)
      as (hm & Hrun & [_ Hpl Hnd _] & _).
    exists hm. split; [done|]. split; [done|].
    split; [by apply placed_one_bucket|done].
  - intros hm1 HI Hb.
    destruct (split_step_spec hm1 (inv_shape hm1 HI) Hb)
      as (hm2 & Hstep & Hs2 & _ & _ & _ & _ & _ & HI2).
    destruct (HI2 HI) as [_ Hpl Hnd _].
    exists hm2. split; [done|]. split; [done|]. split; [done|].
    split; [by apply placed_one_bucket|done].
Qed.

(** C5. After every sequence of operations from the constructor,
    [table.size() == (init_size << depth) + split_ptr] and
    [0 <= split_ptr < (init_size << depth)], where the shift has not wrapped.
    A split step keeps both: it adds one bucket and either moves the split
    pointer on by one, or, when the pointer reaches the pre-expansion size,
    resets it to [0] and increments [depth]. *)
Theorem C5_shape size lf (ops : list (op K V)) hm0 :
  0 ≤ size < SIZE_MOD → LinearHash_ctor size lf = Ok hm0 →
  size + Z.of_nat (length ops) < SIZE_MOD →
  (∃ hm, run hm0 ops = Ok hm
     ∧ table_size hm = size_shl (init_size hm) (depth hm) + split_ptr hm
     ∧ 0 ≤ split_ptr hm < size_shl (init_size hm) (depth hm)
     ∧ size_shl (init_size hm) (depth hm) = init_size hm * 2 ^ depth hm)
  ∧ (∀ hm1, shape_inv hm1 → table_size hm1 + 1 < SIZE_MOD →
       ∃ hm2, split_step hm1 = Ok hm2
         ∧ table_size hm2 = table_size hm1 + 1
         ∧ split_advanced hm1 hm2
         ∧ table_size hm2 = size_shl (init_size hm2) (depth hm2) + split_ptr hm2
         ∧ 0 ≤ split_ptr hm2 < size_shl (init_size hm2) (depth hm2)).
Proof.
  intros Hsize Hc Hbound. split.
  - destruct (run_from_ctor size lf ops hm0 Hsize Hc Hbound)
      as (hm & Hrun & [Hs _ _ _] & _).
    exists hm. split; [done|].
    destruct (shape_pre_expansion hm Hs) as (m & _ & Hpre & Hmul).
    split; [apply Hs|]. split; [apply Hs|].
    fold (pre_expansion_size hm). congruence.
  - intros hm1 Hs Hb.
    destruct (split_step_spec hm1 Hs Hb) as (hm2 & Hstep & Hs2 & Ht & Hadv & _).
    exists hm2. split; [done|]. split; [done|]. split; [done|].
    split; apply Hs2.
Qed.

(** C6, as amended.  The constructor throws [invalid_argument] exactly when
    [init_size] is zero or not a power of two, whatever the load factor is.
    Otherwise (for instance with [(2, 0.75)]) the table has [init_size] empty
    buckets, [size() == 0], [capacity() == init_size] and
    [split_ptr() == 0]. *)
Theorem C6_constructor size lf :
  0 ≤ size < SIZE_MOD →
  (LinearHash_ctor (K:=K) (V:=V) size lf = Throw invalid_argument
   ↔ size = 0 ∨ ¬ is_pow2 size)
  ∧ (size ≠ 0 → is_pow2 size →
     ∃ hm : LinearHash K V, LinearHash_ctor size lf = Ok hm
       ∧ table hm = replicate (Z.to_nat size) {| entries := [] |}
       ∧ get_num_elem hm = 0 ∧ get_table_size hm = size
       ∧ get_split_ptr hm = 0 ∧ depth hm = 0
       ∧ init_size hm = size ∧ max_load_factor hm = lf)
  ∧ (∃ hm : LinearHash K V, LinearHash_ctor 2 0.75%float = Ok hm
       ∧ get_num_elem hm = 0 ∧ get_table_size hm = 2 ∧ get_split_ptr hm = 0).
Proof.
  intros Hsize. split; [by apply ctor_throws|]. split.
  - intros Hne Hp. eexists. split; [by apply ctor_Ok|].
    unfold get_table_size, table_size. simpl. rewrite length_replicate.
    repeat split. lia.
  - eexists. split; [reflexivity|]. done.
Qed.

(** C7. In a table reached from the constructor, inserting a key that is
    present overwrites its value, leaves every other key, [num_elem], the
    capacity, [split_ptr] and [depth] as they were, and splits nothing.  So
    [insert(k, v); insert(k, v)] leaves the very state [insert(k, v)]
    leaves, for every such table, key and value. *)
Theorem C7_overwrite size lf (ops : list (op K V)) hm0 hm k v :
  0 ≤ size < SIZE_MOD → LinearHash_ctor size lf = Ok hm0 →
  run hm0 ops = Ok hm → size + Z.of_nat (length ops) + 1 < SIZE_MOD →
  (in_ hm k = Ok true →
     ∃ hm', insert hm k v = Ok hm'
       ∧ get hm' k = Ok (Some v)
       ∧ (∀ k', k' ≠ k → get hm' k' = get hm k')
       ∧ get_num_elem hm' = get_num_elem hm
       ∧ get_table_size hm' = get_table_size hm
       ∧ get_split_ptr hm' = get_split_ptr hm
       ∧ depth hm' = depth hm)
  ∧ (∃ hm1, insert hm k v = Ok hm1 ∧ insert hm1 k v = Ok hm1).
Proof.
  intros Hsize Hc Hrun Hbound.
  destruct (reached_Inv size lf ops hm0 hm Hsize Hc Hrun) as (HI & Ht & Hn & _); [lia|].
  destruct (insert_spec hm k v HI) as (hm1 & Hins & HI1 & Hget & _ & _ & Hcase); [lia..|].
  split.
  - intros Hin. apply (in_get hm k (inv_shape hm HI)) in Hin as [v0 Hv0].
    exists hm1. split; [done|]. split.
    { rewrite Hget. by rewrite decide_True. }
    split.
    { intros k' Hne. rewrite Hget. by rewrite decide_False. }
    destruct Hcase as [(_ & ? & ? & ? & ?)|(Hnone & _)]; [done|congruence].
  - exists hm1. split; [done|]. apply insert_same; [apply HI1|].
    rewrite Hget. by rewrite decide_True.
Qed.

(** C8. In a table reached from the constructor, [remove(k)] never throws.
    When [k] is present (which [in] reports, wherever the entry is) it
    returns [true], [num_elem] is one less, the bucket of [k] has lost
    exactly the entry of [k] by swap-and-pop, every other bucket and every
    other key is as before, and [k] is absent.  When [k] is absent it returns
    [false] and the state is the same. *)
Theorem C8_remove size lf (ops : list (op K V)) hm0 hm k :
  0 ≤ size < SIZE_MOD → LinearHash_ctor size lf = Ok hm0 →
  run hm0 ops = Ok hm → size + Z.of_nat (length ops) < SIZE_MOD →
  (in_ hm k = Ok true ↔ k ∈ key <$> all_entries hm)
  ∧ (in_ hm k = Ok true ∨ in_ hm k = Ok false)
  ∧ (in_ hm k = Ok true →
       ∃ hm', remove hm k = Ok (hm', true)
         ∧ get_num_elem hm' = get_num_elem hm - 1
         ∧ in_ hm' k = Ok false
         ∧ (∀ k', k' ≠ k → get hm' k' = get hm k')
         ∧ (∃ b j e,
              table hm !! Z.to_nat (hash2bucket hm k) = Some b
              ∧ entries b !! j = Some e ∧ key e = k
              ∧ table hm' = <[Z.to_nat (hash2bucket hm k) :=
                               {| entries := swap_pop j (entries b) |}]> (table hm)
              ∧ entries b ≡ₚ e :: swap_pop j (entries b))
         ∧ get_split_ptr hm' = get_split_ptr hm ∧ depth hm' = depth hm
         ∧ init_size hm' = init_size hm
         ∧ max_load_factor hm' = max_load_factor hm)
  ∧ (in_ hm k = Ok false → remove hm k = Ok (hm, false)).
Proof.
  intros Hsize Hc Hrun Hbound.
  destruct (reached_Inv size lf ops hm0 hm Hsize Hc Hrun Hbound) as (HI & Ht & Hn & _).
  pose proof (inv_shape hm HI) as Hs.
  destruct (in_get hm k Hs) as [Htrue Hfalse].
  destruct (remove_spec hm k HI) as
    (hm' & r & Hrem & HI' & Hget & Hi & Hl & Hsp & Hd & Hts & Hcase); [lia|].
  split; [by apply present_iff|]. split.
  { destruct (in_total hm k Hs) as [[|] ?]; auto. }
  split.
  - intros [v0 Hv0]%Htrue.
    destruct Hcase as [(_ & -> & Hnum & Hbucket)|(Hnone & _)]; [|congruence].
    exists hm'. split; [done|]. split; [done|]. split.
    { apply (in_get hm' k (inv_shape hm' HI')). rewrite Hget. by rewrite decide_True. }
    split.
    { intros k' Hne. rewrite Hget. by rewrite decide_False. }
    done.
  - intros Hnone%Hfalse.
    destruct Hcase as [([v0 Hv0] & _)|(_ & -> & ->)]; [congruence|done].
Qed.

(** C10.  Take a table the constructor has built, so that its const
    member [init_size] is the constructor's argument.  In every state of it,
    under the state invariants [0 <= split_ptr < (init_size << depth)] and
    [table.size() == (init_size << depth) + split_ptr], [hash2bucket] returns
    an index below [table.size()], so the [table.at(hash2bucket(key))] of
    [insert], [get], [in] and [remove] never throws [out_of_range], and
    neither does the rest of these functions.  Every run of [insert] and
    [remove] from the constructor returns without throwing and ends in a
    state where both invariants hold, so there the lookups are in range for
    any key. *)
Theorem C10_lookups_in_range size lf (hm0 : LinearHash K V) :
  0 ≤ size < SIZE_MOD → LinearHash_ctor size lf = Ok hm0 →
  (∀ hm k v,
     init_size hm = init_size hm0 → 0 ≤ depth hm →
     table_size hm = size_shl (init_size hm) (depth hm) + split_ptr hm →
     0 ≤ split_ptr hm < size_shl (init_size hm) (depth hm) →
     0 ≤ hash2bucket hm k < table_size hm
     ∧ (∃ b, at_ (table hm) (hash2bucket hm k) = Ok b)
     ∧ (∃ hm', insert hm k v = Ok hm')
     ∧ (∃ r, get hm k = Ok r)
     ∧ (∃ r, in_ hm k = Ok r)
     ∧ (∃ r, remove hm k = Ok r))
  ∧ (∀ ops : list (op K V),
       size + Z.of_nat (length ops) < SIZE_MOD →
       ∃ hm, run hm0 ops = Ok hm
         ∧ init_size hm = init_size hm0
         ∧ table_size hm = size_shl (init_size hm) (depth hm) + split_ptr hm
         ∧ 0 ≤ split_ptr hm < size_shl (init_size hm) (depth hm)
         ∧ ∀ k v,
             0 ≤ hash2bucket hm k < table_size hm
             ∧ (∃ b, at_ (table hm) (hash2bucket hm k) = Ok b)
             ∧ (∃ hm', insert hm k v = Ok hm')
             ∧ (∃ r, get hm k = Ok r)
             ∧ (∃ r, in_ hm k = Ok r)
             ∧ (∃ r, remove hm k = Ok r)).
Proof.
  intros Hsize Hc.
  destruct (ctor_Inv size lf hm0 Hsize Hc) as (HI0 & _ & _ & _ & _ & _ & Hi0 & _).
  assert (∀ hm k v, shape_inv hm →
    0 ≤ hash2bucket hm k < table_size hm
    ∧ (∃ b, at_ (table hm) (hash2bucket hm k) = Ok b)
    ∧ (∃ hm', insert hm k v = Ok hm')
    ∧ (∃ r, get hm k = Ok r)
    ∧ (∃ r, in_ hm k = Ok r)
    ∧ (∃ r, remove hm k = Ok r)) as Hlookups.
  { intros hm k v Hs.
    split; [by apply hash2bucket_range|]. split.
    { destruct (at_hash2bucket hm k Hs) as (b & Hat & _). by exists b. }
    split; [by apply insert_total|]. split; [by apply get_total|].
    split; [by apply in_total|by apply remove_total]. }
  split.
  - intros hm k v Hi Hd Hlen Hsp. apply Hlookups.
    split; [|done..]. rewrite Hi. exact (shape_init hm0 (inv_shape hm0 HI0)).
  - intros ops Hbound.
    destruct (run_from_ctor size lf ops hm0 Hsize Hc Hbound)
      as (hm & Hrun & HI & _ & _ & _ & Hi & _).
    pose proof (inv_shape hm HI) as Hs.
    exists hm. split; [done|]. split; [congruence|].
    split; [exact (shape_len hm Hs)|]. split; [exact (shape_sp hm Hs)|].
    intros k v. by apply Hlookups.
Qed.

(** C4. Construct with [(2, 0.5)] and insert three distinct keys (the
    keys [1], [2], [3] of the scenario): after the first insert the capacity
    is 2 and [split_ptr] is 0; after the second the capacity is 3 and
    [split_ptr] is 1; after the third the capacity is 4 and [split_ptr] is 0
    with [depth] advanced to 1.  In general, in a table reached from the
    constructor, an [insert] adds at most one bucket, and it adds one
    exactly when the key is new and the load
    [double(num_elem) / double(table.size())], with the new key counted,
    is greater than [max_load_factor]; the split pointer then advances as in
    a split step, and stays where it is otherwise. *)
Theorem C4_incremental_split k1 k2 k3 v1 v2 v3 :
  k1 ≠ k2 → k1 ≠ k3 → k2 ≠ k3 →
  (∃ hm0 hm1 hm2 hm3 : LinearHash K V,
     LinearHash_ctor 2 0.5%float = Ok hm0
     ∧ insert hm0 k1 v1 = Ok hm1
     ∧ get_table_size hm1 = 2 ∧ get_split_ptr hm1 = 0 ∧ depth hm1 = 0
     ∧ insert hm1 k2 v2 = Ok hm2
     ∧ get_table_size hm2 = 3 ∧ get_split_ptr hm2 = 1 ∧ depth hm2 = 0
     ∧ insert hm2 k3 v3 = Ok hm3
     ∧ get_table_size hm3 = 4 ∧ get_split_ptr hm3 = 0 ∧ depth hm3 = 1)
  ∧ (∀ size lf (ops : list (op K V)) hm0 hm k v,
       0 ≤ size < SIZE_MOD → LinearHash_ctor size lf = Ok hm0 →
       run hm0 ops = Ok hm → size + Z.of_nat (length ops) + 1 < SIZE_MOD →
       ∃ hm', insert hm k v = Ok hm'
         ∧ (get_table_size hm' = get_table_size hm
            ∨ get_table_size hm' = get_table_size hm + 1)
         ∧ (get_table_size hm' = get_table_size hm + 1
            ↔ in_ hm k = Ok false
              ∧ PrimFloat.ltb (max_load_factor hm)
                  (load_of (get_num_elem hm + 1) (get_table_size hm)) = true)
         ∧ (get_table_size hm' = get_table_size hm + 1 → split_advanced hm hm')
         ∧ (get_table_size hm' = get_table_size hm →
            get_split_ptr hm' = get_split_ptr hm ∧ depth hm' = depth hm)).
Proof.
  intros H12 H13 H23. split.
  - assert (0 ≤ 2 < SIZE_MOD) as Hsize by done.
    assert (is_pow2 2) as Hp by (exists 1; done).
    assert (∃ hm0 : LinearHash K V, LinearHash_ctor 2 0.5%float = Ok hm0)
      as [hm0 Hc] by (eexists; by apply ctor_Ok).
    destruct (ctor_Inv 2 0.5%float hm0 Hsize Hc)
      as (HI0 & Hg0 & Ht0 & Hn0 & Hsp0 & Hd0 & Hi0 & Hl0).
    destruct (insert_new_key hm0 k1 v1 HI0 (Hg0 k1))
      as (hm1 & Hins1 & HI1 & Hg1 & Hi1 & Hl1 & Hn1 & Hs1);
      [rewrite ?Ht0, ?Hn0; done..|].
    rewrite Hl0, Hn0, Ht0 in Hs1.
    change (PrimFloat.ltb 0.5 (load_of (0 + 1) 2)) with false in Hs1.
    destruct Hs1 as (Ht1 & Hsp1 & Hd1).
    rewrite ?Ht0 in Ht1. rewrite ?Hsp0 in Hsp1. rewrite ?Hd0 in Hd1.
    rewrite ?Hn0 in Hn1. rewrite ?Hi0 in Hi1. rewrite ?Hl0 in Hl1.
    assert (get hm1 k2 = Ok None) as Hg12 by (rewrite Hg1 by done; apply Hg0).
    assert (get hm1 k3 = Ok None) as Hg13 by (rewrite Hg1 by done; apply Hg0).
    destruct (insert_new_key hm1 k2 v2 HI1 Hg12)
      as (hm2 & Hins2 & HI2 & Hg2 & Hi2 & Hl2 & Hn2 & Hs2);
      [rewrite ?Ht1, ?Hn1; done..|].
    rewrite Hl1, Hn1, Ht1 in Hs2.
    change (PrimFloat.ltb 0.5 (load_of (0 + 1 + 1) 2)) with true in Hs2.
    destruct Hs2 as (Ht2 & Hadv2).
    assert (pre_expansion_size hm1 = 2) as Hpre1.
    { unfold pre_expansion_size. by rewrite Hi1, Hd1. }
    assert (split_ptr hm2 = 1 ∧ depth hm2 = 0) as [Hsp2 Hd2].
    { destruct Hadv2 as [(_ & -> & ->)|(Heq & _)]; [|lia]. lia. }
    rewrite ?Ht1 in Ht2. rewrite ?Hn1 in Hn2. rewrite ?Hi1 in Hi2. rewrite ?Hl1 in Hl2.
    assert (get hm2 k3 = Ok None) as Hg23 by (rewrite Hg2 by done; done).
    destruct (insert_new_key hm2 k3 v3 HI2 Hg23)
      as (hm3 & Hins3 & HI3 & Hg3 & Hi3 & Hl3 & Hn3 & Hs3);
      [rewrite ?Ht2, ?Hn2; done..|].
    rewrite Hl2, Hn2, Ht2 in Hs3.
    change (PrimFloat.ltb 0.5 (load_of (0 + 1 + 1 + 1) (2 + 1))) with true in Hs3.
    destruct Hs3 as (Ht3 & Hadv3).
    assert (pre_expansion_size hm2 = 2) as Hpre2.
    { unfold pre_expansion_size. by rewrite Hi2, Hd2. }
    assert (split_ptr hm3 = 0 ∧ depth hm3 = 1) as [Hsp3 Hd3].
    { destruct Hadv3 as [(Hlt & _)|(_ & -> & ->)]; lia. }
    exists hm0, hm1, hm2, hm3. unfold get_table_size, get_split_ptr.
    repeat split; (done || lia).
  - intros size lf ops hm0 hm k v Hsize Hc Hrun Hbound.
    destruct (reached_Inv size lf ops hm0 hm Hsize Hc Hrun) as (HI & Ht & Hn & _); [lia|].
    pose proof (inv_shape hm HI) as Hs.
    destruct (in_get hm k Hs) as [Htrue Hfalse].
    destruct (insert_spec hm k v HI) as (hm' & Hins & _ & _ & _ & _ & Hcase); [lia..|].
    exists hm'. split; [done|]. unfold get_table_size, get_split_ptr, get_num_elem.
    destruct Hcase as [(Hsome & _ & Hts & Hsp & Hd)|(Hnone & _ & Hsplit)].
    + split; [by left|]. split; [|split; [lia|done]].
      split; [lia|]. intros [Habs%Hfalse _]. destruct Hsome. congruence.
    + apply Hfalse in Hnone.
      destruct (PrimFloat.ltb _ _).
      * destruct Hsplit as [Hts Hadv]. split; [by right|].
        split; [done|]. split; [done|]. lia.
      * destruct Hsplit as (Hts & Hsp & Hd). split; [by left|].
        split; [|split; [lia|done]].
        split; [lia|]. by intros [_ ?].
Qed.

(** C9. On a table at rest, whose sizes fit [size_t], the loop
    [for (it = begin(); it != end(); ++it)] ends without throwing once it
    has visited, in this order, the positions [(i, j)] of all entries: bucket
    after bucket by index, inside a bucket in storage order.  The entries
    seen are all the entries of the table, each once; the buckets visited are
    never empty; [end()] is [(table.size(), 0)], no visited iterator equals
    it, so an iterator of the traversal equals [end()] exactly when its
    [bucket_idx] is [table.size()]; and [begin() == end()] if and only if
    the table has no entry, which under invariant 6 is [size() == 0]. *)
Theorem C9_iteration hm :
  table_size hm < SIZE_MOD →
  (∀ (i : nat) b, table hm !! i = Some b →
     Z.of_nat (length (entries b)) < SIZE_MOD) →
  (∀ fuel, (length (all_entries hm) < fuel)%nat →
     for_each fuel hm = Some (Ok (positions hm)))
  ∧ (positions hm).*2 = all_entries hm
  ∧ (∀ it e, (it, e) ∈ positions hm ↔
       ∃ (i j : nat) b,
         it = {| _bucket_idx := Z.of_nat i; _entry_idx := Z.of_nat j |}
         ∧ table hm !! i = Some b ∧ entries b !! j = Some e)
  ∧ end_ hm = Ok (end_position hm)
  ∧ (∀ it, it ∈ (positions hm).*1 ∨ it = end_position hm →
       Iterator_eq it (end_position hm) = true ↔ _bucket_idx it = table_size hm)
  ∧ (∃ first, begin_ hm = Ok first
       ∧ (Iterator_eq first (end_position hm) = true ↔ all_entries hm = [])
       ∧ (get_num_elem hm = Z.of_nat (length (all_entries hm)) →
          Iterator_eq first (end_position hm) = true ↔ get_num_elem hm = 0)).
Proof.
  intros Hfit Hbuckets.
  assert (∀ it e, (it, e) ∈ positions hm ↔
       ∃ (i j : nat) b,
         it = {| _bucket_idx := Z.of_nat i; _entry_idx := Z.of_nat j |}
         ∧ table hm !! i = Some b ∧ entries b !! j = Some e) as Hpos.
  { intros it e. unfold positions. rewrite elem_of_positions_from. done. }
  split; [|split; [|split; [|split; [|split]]]].
  - intros fuel Hfuel. unfold for_each.
    rewrite (begin_eq hm Hfit), (end_eq hm).
    apply (traverse_from hm Hfit Hbuckets (table hm) [] fuel); [done|].
    change (length []) with 0%nat.
    rewrite <-(length_fmap snd), (positions_from_snd 0 (table hm)). exact Hfuel.
  - apply positions_from_snd.
  - done.
  - apply end_eq.
  - intros it [Hit| ->].
    + apply list_elem_of_fmap in Hit as ([it' e] & -> & Hin). simpl.
      apply Hpos in Hin as (i & j & b & -> & Hi & _).
      apply lookup_lt_Some in Hi. unfold Iterator_eq, end_position, table_size. simpl.
      rewrite (proj2 (Z.eqb_neq _ _)) by lia. simpl. split; [done|lia].
    + unfold Iterator_eq, end_position. simpl. by rewrite !Z.eqb_refl.
  - eexists. split; [apply (begin_eq hm Hfit)|].
    assert (Iterator_eq
              {| _bucket_idx := Z.of_nat (leading_empty (table hm)); _entry_idx := 0 |}
              (end_position hm) = true ↔ all_entries hm = []) as Hempty.
    { unfold Iterator_eq, end_position, table_size. simpl.
      rewrite andb_true_r, Z.eqb_eq.
      destruct (leading_empty_all (table hm)) as [_ Hall].
      unfold all_entries. rewrite <-Hall. lia. }
    split; [exact Hempty|]. intros Hcount. rewrite Hempty, Hcount.
    destruct (all_entries hm); simpl; split; (done || lia).
Qed.

End Theory.

(** * Further properties of the code *)

Section More.

Context {K V : Type} `{EqDecision K} `{Hash K}.

Implicit Types (hm : LinearHash K V) (k : K) (v : V) (e : Entry K V)
  (b : Bucket K V).

(** ** What the table holds *)

Lemma keys_NoDup_join (t : list (Bucket K V)) :
  (∀ (i : nat) b, t !! i = Some b → NoDup (key <$> entries b)) →
  (∀ (i j : nat) bi bj ei ej,
     t !! i = Some bi → t !! j = Some bj →
     ei ∈ entries bi → ej ∈ entries bj → key ei = key ej → i = j) →
  NoDup (key <$> mjoin (entries <$> t)).
Proof.
  induction t as [|b t IH]; intros Hnd Hone; [apply NoDup_nil_2|].
  simpl. rewrite fmap_app. apply NoDup_app. split; [|split].
  - apply (Hnd 0%nat b). done.
  - intros k0 (e1 & -> & He1)%list_elem_of_fmap (e2 & Hk & He2)%list_elem_of_fmap.
    apply list_elem_of_join in He2 as (l & He2 & (b2 & -> & Hb2)%list_elem_of_fmap).
    apply list_elem_of_lookup in Hb2 as [j Hj].
    assert (0%nat = S j) as Hcontra; [|done].
    by apply (Hone 0%nat (S j) b b2 e1 e2).
  - apply IH.
    + intros i b' Hi. by apply (Hnd (S i)).
    + intros i j bi bj ei ej Hi Hj Hei Hej Hk.
      assert (S i = S j) as Heq; [|lia].
      by apply (Hone (S i) (S j) bi bj ei ej).
Qed.

(** No key has two entries in the table. *)
Lemma all_keys_NoDup hm : Inv hm → NoDup (key <$> all_entries hm).
Proof.
  intros HI. apply keys_NoDup_join; [apply HI|].
  apply placed_one_bucket, HI.
Qed.

(** An entry is in the table exactly when [get] of its key returns its
    value. *)
Lemma elem_all_entries_get hm k v :
  Inv hm →
  {| key := k; value := v |} ∈ all_entries hm ↔ get hm k = Ok (Some v).
Proof.
  intros HI. pose proof (inv_shape hm HI) as Hs.
  pose proof (hash2bucket_range hm k Hs) as Hr.
  destruct (at_hash2bucket hm k Hs) as (b & _ & Hb).
  rewrite (get_eq hm k b Hb) by lia. rewrite elem_of_all_entries. split.
  - intros (i & b' & Hi & He).
    pose proof (inv_placed hm HI _ _ _ Hi He) as Hp. simpl in Hp.
    rewrite Hp, Nat2Z.id, Hi in Hb. injection Hb as ->.
    do 2 f_equal.
    apply (find_value_elem k (entries b) {| key := k; value := v |});
      [by eapply inv_distinct|done..].
  - intros [= Hf]. apply find_value_Some_elem in Hf.
    by exists (Z.to_nat (hash2bucket hm k)), b.
Qed.

(** The sizes of a table that satisfies the invariants fit [size_t]. *)
Lemma Inv_fits hm :
  Inv hm → num_elem hm < SIZE_MOD →
  table_size hm < SIZE_MOD
  ∧ ∀ (i : nat) b, table hm !! i = Some b →
      Z.of_nat (length (entries b)) < SIZE_MOD.
Proof.
  intros HI Hn. split; [apply table_size_lt_mod, HI|].
  intros i b Hi. pose proof (bucket_le_all _ _ _ Hi) as Hle.
  pose proof (inv_count hm HI) as Hc. unfold all_entries in Hc. lia.
Qed.

Lemma for_each_positions hm (fuel : nat) :
  table_size hm < SIZE_MOD →
  (∀ (i : nat) b, table hm !! i = Some b →
     Z.of_nat (length (entries b)) < SIZE_MOD) →
  (length (all_entries hm) < fuel)%nat →
  for_each fuel hm = Some (Ok (positions hm)).
Proof.
  intros Hfit Hbuckets Hfuel. unfold for_each.
  rewrite (begin_eq hm Hfit), (end_eq hm).
  apply (traverse_from hm Hfit Hbuckets (table hm) [] fuel); [done|].
  change (length []) with 0%nat.
  rewrite <-(length_fmap snd), (positions_from_snd 0 (table hm)). exact Hfuel.
Qed.

(** X1. In a table reached from the constructor, [get_num_elem] is the
    number of entries stored, no two of them have the same key, and the keys
    stored are the keys whose last operation is an [insert]: [size()] counts
    the distinct live keys. *)
Theorem X1_size_counts_live_keys size lf (ops : list (op K V)) hm0 hm :
  0 ≤ size < SIZE_MOD → LinearHash_ctor size lf = Ok hm0 →
  run hm0 ops = Ok hm → size + Z.of_nat (length ops) < SIZE_MOD →
  get_num_elem hm = Z.of_nat (length (all_entries hm))
  ∧ NoDup (key <$> all_entries hm)
  ∧ (∀ k, k ∈ key <$> all_entries hm ↔ is_Some (last_write ops k)).
Proof.
  intros Hsize Hc Hrun Hbound.
  destruct (reached_Inv size lf ops hm0 hm Hsize Hc Hrun Hbound)
    as (HI & _ & _ & Hget).
  split; [apply HI|]. split; [by apply all_keys_NoDup|].
  intros k. rewrite <-(present_iff hm k HI).
  rewrite (proj1 (in_get hm k (inv_shape hm HI))), Hget. split.
  - intros [v [= Hv]]. rewrite Hv. by eexists.
  - intros [v Hv]. exists v. by rewrite Hv.
Qed.

(** X2. In a table reached from the constructor, the loop from [begin()]
    to [end()] ends without throwing after [size()] steps, meets no key
    twice, and meets the pair [(k, v)] exactly when [get(k)] returns [v]. *)
Theorem X2_iteration_agrees_with_get size lf (ops : list (op K V)) hm0 hm :
  0 ≤ size < SIZE_MOD → LinearHash_ctor size lf = Ok hm0 →
  run hm0 ops = Ok hm → size + Z.of_nat (length ops) < SIZE_MOD →
  ∃ visited,
    for_each (S (Z.to_nat (get_num_elem hm))) hm = Some (Ok visited)
    ∧ Z.of_nat (length visited) = get_num_elem hm
    ∧ NoDup (key <$> visited.*2)
    ∧ (∀ k v, {| key := k; value := v |} ∈ visited.*2 ↔ get hm k = Ok (Some v)).
Proof.
  intros Hsize Hc Hrun Hbound.
  destruct (reached_Inv size lf ops hm0 hm Hsize Hc Hrun Hbound)
    as (HI & _ & Hn & _).
  destruct (Inv_fits hm HI) as [Hfit Hbuckets]; [lia|].
  pose proof (inv_count hm HI) as Hcount.
  assert ((positions hm).*2 = all_entries hm) as Hsnd by apply positions_from_snd.
  exists (positions hm). unfold get_num_elem. split; [|split; [|split]].
  - apply for_each_positions; [done..|]. lia.
  - rewrite <-(length_fmap snd), Hsnd. lia.
  - rewrite Hsnd. by apply all_keys_NoDup.
  - intros k v. rewrite Hsnd. by apply elem_all_entries_get.
Qed.

(** X3. In a table reached from the constructor, [in(k)] does not throw
    and is [true] exactly when [get(k)] has a value, that is when the last
    operation on [k] is an [insert]. *)
Theorem X3_in_agrees_with_get size lf (ops : list (op K V)) hm0 hm k :
  0 ≤ size < SIZE_MOD → LinearHash_ctor size lf = Ok hm0 →
  run hm0 ops = Ok hm → size + Z.of_nat (length ops) < SIZE_MOD →
  in_ hm k = Ok (bool_decide (is_Some (last_write ops k)))
  ∧ (in_ hm k = Ok true ↔ ∃ v, get hm k = Ok (Some v))
  ∧ (in_ hm k = Ok false ↔ get hm k = Ok None).
Proof.
  intros Hsize Hc Hrun Hbound.
  destruct (reached_Inv size lf ops hm0 hm Hsize Hc Hrun Hbound)
    as (HI & _ & _ & Hget).
  pose proof (inv_shape hm HI) as Hs.
  destruct (in_get hm k Hs) as [Htrue Hfalse].
  split; [|done].
  destruct (last_write ops k) as [v|] eqn:Hlw.
  - rewrite bool_decide_eq_true_2 by (by eexists).
    apply Htrue. exists v. by rewrite Hget, Hlw.
  - rewrite bool_decide_eq_false_2 by (by intros [??]).
    apply Hfalse. by rewrite Hget, Hlw.
Qed.

(** ** How operations compose *)

(** X4. In a table reached from the constructor that does not hold [k],
    [insert(k, v)] followed by [remove(k)] succeeds with [true] and restores
    what a caller can see: [size()], the absence of [k], and the value of
    every key.  The capacity may have grown by one bucket, and never
    shrinks. *)
Theorem X4_insert_then_remove size lf (ops : list (op K V)) hm0 hm k v :
  0 ≤ size < SIZE_MOD → LinearHash_ctor size lf = Ok hm0 →
  run hm0 ops = Ok hm → size + Z.of_nat (length ops) + 1 < SIZE_MOD →
  in_ hm k = Ok false →
  ∃ hm1 hm2,
    insert hm k v = Ok hm1 ∧ remove hm1 k = Ok (hm2, true)
    ∧ get_num_elem hm2 = get_num_elem hm
    ∧ in_ hm2 k = Ok false
    ∧ (∀ k', get hm2 k' = get hm k')
    ∧ get_table_size hm ≤ get_table_size hm2 ≤ get_table_size hm + 1.
Proof.
  intros Hsize Hc Hrun Hbound Hin.
  destruct (reached_Inv size lf ops hm0 hm Hsize Hc Hrun) as (HI & Ht & Hn & _); [lia|].
  apply (in_get hm k (inv_shape hm HI)) in Hin.
  destruct (insert_new_key hm k v HI Hin)
    as (hm1 & Hins & HI1 & Hget1 & _ & _ & Hn1 & Hsplit); [lia..|].
  assert (get hm1 k = Ok (Some v)) as Hk1.
  { destruct (insert_spec hm k v HI) as (hm1' & Hins' & _ & Hg & _); [lia..|].
    rewrite Hins in Hins'. injection Hins' as <-. rewrite Hg. by rewrite decide_True. }
  destruct (remove_spec hm1 k HI1)
    as (hm2 & r & Hrem & HI2 & Hget2 & _ & _ & _ & _ & Hts & Hcase); [lia|].
  destruct Hcase as [(_ & -> & Hn2 & _)|(Hnone & _)]; [|congruence].
  exists hm1, hm2. split; [done|]. split; [done|].
  unfold get_num_elem, get_table_size. split; [lia|]. split.
  { apply (in_get hm2 k (inv_shape hm2 HI2)). rewrite Hget2. by rewrite decide_True. }
  split.
  { intros k'. rewrite Hget2. case_decide as Hk; [by subst k'|].
    apply Hget1. congruence. }
  rewrite Hts. destruct (PrimFloat.ltb _ _); destruct Hsplit as [-> _]; lia.
Qed.

(** X5. In a table reached from the constructor, a second [remove(k)]
    right after a [remove(k)] returns [false] and changes nothing. *)
Theorem X5_remove_twice size lf (ops : list (op K V)) hm0 hm k :
  0 ≤ size < SIZE_MOD → LinearHash_ctor size lf = Ok hm0 →
  run hm0 ops = Ok hm → size + Z.of_nat (length ops) < SIZE_MOD →
  ∃ hm1 r, remove hm k = Ok (hm1, r) ∧ remove hm1 k = Ok (hm1, false).
Proof.
  intros Hsize Hc Hrun Hbound.
  destruct (reached_Inv size lf ops hm0 hm Hsize Hc Hrun Hbound) as (HI & Ht & Hn & _).
  destruct (remove_spec hm k HI)
    as (hm1 & r & Hrem & HI1 & Hget1 & _ & _ & _ & _ & _ & Hcase); [lia|].
  assert (num_elem hm1 < SIZE_MOD) as Hn1.
  { destruct Hcase as [(_ & _ & -> & _)|(_ & _ & ->)]; lia. }
  exists hm1, r. split; [done|].
  destruct (remove_spec hm1 k HI1)
    as (hm2 & r2 & Hrem2 & _ & _ & _ & _ & _ & _ & _ & Hcase2); [lia|].
  assert (get hm1 k = Ok None) as Hnone by (rewrite Hget1; by rewrite decide_True).
  destruct Hcase2 as [([v0 Hv0] & _)|(_ & -> & ->)]; [congruence|done].
Qed.

(** ** Growth *)

Lemma run_growth (ops : list (op K V)) hm hm' :
  Inv hm → run hm ops = Ok hm' →
  table_size hm + Z.of_nat (length ops) < SIZE_MOD →
  num_elem hm + Z.of_nat (length ops) < SIZE_MOD →
  table_size hm ≤ table_size hm' ≤ table_size hm + Z.of_nat (count_inserts ops)
  ∧ num_elem hm' ≤ num_elem hm + Z.of_nat (count_inserts ops).
Proof.
  revert hm. induction ops as [|[k v|k] ops IH]; intros hm HI Hrun Hbt Hbn.
  - injection Hrun as <-. simpl. lia.
  - simpl in Hbt, Hbn, Hrun.
    destruct (insert_spec hm k v HI) as (hm1 & Hins & HI1 & _ & _ & _ & Hcase);
      [lia..|].
    rewrite Hins in Hrun. simpl in Hrun.
    assert (table_size hm ≤ table_size hm1 ≤ table_size hm + 1
            ∧ num_elem hm1 ≤ num_elem hm + 1) as [Ht Hn].
    { destruct Hcase as [(_ & -> & -> & _)|(_ & -> & Hsplit)]; [lia|].
      destruct (PrimFloat.ltb _ _); destruct Hsplit as [-> _]; lia. }
    destruct (IH hm1 HI1 Hrun) as [Ht' Hn']; [lia..|].
    change (count_inserts (Insert k v :: ops)) with (S (count_inserts ops)). lia.
  - simpl in Hbt, Hbn, Hrun.
    destruct (remove_spec hm k HI)
      as (hm1 & r & Hrem & HI1 & _ & _ & _ & _ & _ & Ht & Hcase); [lia|].
    rewrite Hrem in Hrun. simpl in Hrun.
    assert (num_elem hm1 ≤ num_elem hm) as Hn.
    { destruct Hcase as [(_ & _ & -> & _)|(_ & _ & ->)]; lia. }
    destruct (IH hm1 HI1 Hrun) as [Ht' Hn']; [lia..|].
    change (count_inserts (Remove k :: ops)) with (count_inserts ops). lia.
Qed.

(** X6. A table reached from the constructor always has at least one
    bucket and never fewer than [init_size]; its capacity exceeds
    [init_size] by at most the number of [insert] calls, and [size()] is at
    most that number: the table never shrinks, and grows by at most one
    bucket for each insert. *)
Theorem X6_capacity_bounds size lf (ops : list (op K V)) hm0 hm :
  0 ≤ size < SIZE_MOD → LinearHash_ctor size lf = Ok hm0 →
  run hm0 ops = Ok hm → size + Z.of_nat (length ops) < SIZE_MOD →
  1 ≤ size
  ∧ size ≤ get_table_size hm ≤ size + Z.of_nat (count_inserts ops)
  ∧ 0 ≤ get_num_elem hm ≤ Z.of_nat (count_inserts ops)
  ∧ init_size hm = size.
Proof.
  intros Hsize Hc Hrun Hbound.
  destruct (ctor_Inv size lf hm0 Hsize Hc) as (HI0 & _ & Ht0 & Hn0 & _ & _ & Hi0 & _).
  destruct (run_growth ops hm0 hm HI0 Hrun) as [Ht Hn]; [lia..|].
  destruct (run_spec ops hm0 HI0) as (hm' & Hrun' & HI & _ & _ & _ & Hi & _); [lia..|].
  rewrite Hrun in Hrun'. injection Hrun' as <-.
  pose proof (inv_count hm HI) as Hcount.
  pose proof (shape_init hm0 (inv_shape hm0 HI0)) as (n & Hn1 & Hpow).
  assert (0 < 2 ^ n) by (apply Z.pow_pos_nonneg; lia).
  unfold get_table_size, get_num_elem. repeat split; (congruence || lia).
Qed.

(** X7. The capacity determines the split state: two tables with the same
    [init_size] and the same number of buckets, both satisfying invariants 1
    to 3, have the same [depth] and the same [split_ptr], and so send every
    key to the same bucket index. *)
Theorem X7_capacity_determines_split hm hm' k :
  shape_inv hm → shape_inv hm' →
  init_size hm = init_size hm' → table_size hm = table_size hm' →
  depth hm = depth hm' ∧ split_ptr hm = split_ptr hm'
  ∧ hash2bucket hm k = hash2bucket hm' k.
Proof.
  intros Hs Hs' Hi Ht.
  destruct (shape_pre_expansion hm Hs) as (m & Hm & Hpre & Hmul).
  destruct (shape_pre_expansion hm' Hs') as (m' & Hm' & Hpre' & Hmul').
  pose proof (shape_len hm Hs) as Hlen. pose proof (shape_sp hm Hs) as Hsp.
  pose proof (shape_len hm' Hs') as Hlen'. pose proof (shape_sp hm' Hs') as Hsp'.
  rewrite Hpre in Hlen, Hsp. rewrite Hpre' in Hlen', Hsp'.
  assert (m = m') as <-.
  { destruct (Z.lt_trichotomy m m') as [Hlt|[Heq|Hgt]]; [exfalso|done|exfalso].
    - assert (2 ^ (m + 1) ≤ 2 ^ m') by (apply Z.pow_le_mono_r; lia).
      rewrite Z.pow_add_r in * by lia. lia.
    - assert (2 ^ (m' + 1) ≤ 2 ^ m) by (apply Z.pow_le_mono_r; lia).
      rewrite Z.pow_add_r in * by lia. lia. }
  assert (split_ptr hm = split_ptr hm') as Hspeq by lia.
  assert (depth hm = depth hm') as Hdeq.
  { destruct (shape_init hm Hs) as (n & Hn & Hinit).
    pose proof (shape_depth hm Hs). pose proof (shape_depth hm' Hs').
    rewrite <-Hi, Hinit, <-Z.pow_add_r in Hmul' by lia.
    rewrite Hinit, <-Z.pow_add_r in Hmul by lia.
    rewrite <-Hmul' in Hmul. apply Z.pow_inj_r in Hmul; lia. }
  split; [done|]. split; [done|].
  unfold hash2bucket. by rewrite Hi, Hdeq, Hspeq.
Qed.

(** ** The split step moves entries and nothing else *)

Lemma halves_perm mask (es : list (Entry K V)) :
  low_half mask es ++ high_half mask es ≡ₚ es.
Proof.
  unfold low_half, high_half. induction es as [|e es IH]; [done|].
  rewrite !filter_cons.
  destruct (decide (Z.land (std_hash (key e)) mask = 0)).
  - rewrite decide_False by tauto. simpl. by rewrite IH.
  - rewrite decide_True by tauto. rewrite <-Permutation_middle. by rewrite IH.
Qed.

(** X8. A split step on a table that satisfies invariants 1 to 3, with
    room for one more bucket, does not throw and keeps every entry: the
    entries of the table are the same up to order, [num_elem] is unchanged,
    the bucket at [split_ptr] and the new last bucket share out the entries
    the bucket at [split_ptr] had, every other bucket is untouched, and
    [get] returns what it returned. *)
Theorem X8_split_keeps_entries hm :
  shape_inv hm → table_size hm + 1 < SIZE_MOD →
  ∃ hm' original lo hi,
    split_step hm = Ok hm'
    ∧ all_entries hm' ≡ₚ all_entries hm
    ∧ get_num_elem hm' = get_num_elem hm
    ∧ table hm !! Z.to_nat (split_ptr hm) = Some original
    ∧ table hm' !! Z.to_nat (split_ptr hm) = Some lo
    ∧ table hm' !! length (table hm) = Some hi
    ∧ entries lo ++ entries hi ≡ₚ entries original
    ∧ (∀ i : nat, i ≠ Z.to_nat (split_ptr hm) → (i < length (table hm))%nat →
         table hm' !! i = table hm !! i)
    ∧ (∀ k, get hm' k = get hm k).
Proof.
  intros Hs Hbound.
  assert (∃ original, table hm !! Z.to_nat (split_ptr hm) = Some original)
    as [original Ho].
  { apply lookup_lt_is_Some_2. pose proof (shape_sp hm Hs).
    pose proof (shape_len hm Hs). unfold table_size in *. lia. }
  pose proof (lookup_lt_Some _ _ _ Ho) as Hlt.
  exists (split_state hm original), original,
    {| entries := low_half (pre_expansion_size hm) (entries original) |},
    {| entries := high_half (pre_expansion_size hm) (entries original) |}.
  destruct (split_state_fields hm original) as (_ & _ & Hn & _).
  split; [by apply split_step_eq|]. split.
  { unfold all_entries. rewrite split_state_table.
    rewrite insert_take_drop by done.
    rewrite <-(take_drop_middle (table hm) _ original Ho) at 3.
    rewrite !fmap_app, !fmap_cons, !join_app. simpl. rewrite app_nil_r.
    rewrite <-(halves_perm (pre_expansion_size hm) (entries original)) at 3.
    rewrite <-!app_assoc. do 2 f_equiv. apply Permutation_app_comm. }
  split; [done|]. split; [done|]. split.
  { rewrite split_state_lookup by done.
    rewrite decide_False, decide_True by lia. done. }
  split.
  { rewrite split_state_lookup by done. by rewrite decide_True. }
  split; [apply halves_perm|]. split.
  - intros i Hne Hi. rewrite split_state_lookup by done.
    by rewrite !decide_False by lia.
  - intros k. by apply split_state_get.
Qed.

(** X9. Under invariants 1 to 3 the bucket index of a key agrees with its
    hash modulo the pre-expansion size [init_size << depth], and so modulo
    [init_size]: as the table grows, a key only ever moves between buckets
    whose indices differ by a multiple of [init_size]. *)
Theorem X9_bucket_congruent_to_hash hm k :
  shape_inv hm →
  hash2bucket hm k mod pre_expansion_size hm = std_hash k mod pre_expansion_size hm
  ∧ hash2bucket hm k mod init_size hm = std_hash k mod init_size hm.
Proof.
  intros Hs. destruct (shape_pre_expansion hm Hs) as (m & Hm & Hpre & Hmul).
  pose proof (pow2_lt_half m Hm) as [Hpos _].
  assert (hash2bucket hm k mod 2 ^ m = std_hash k mod 2 ^ m) as Hmod.
  { rewrite (hash2bucket_mod hm k m Hm Hpre).
    destruct (std_hash k mod 2 ^ m <? split_ptr hm); [|by rewrite Z.mod_mod by lia].
    rewrite mod_pow2_succ by lia.
    destruct (land_pow2_cases (std_hash k) m) as [-> | ->]; [lia|..].
    - by rewrite Z.add_0_r, Z.mod_mod by lia.
    - rewrite <-(Z.mul_1_l (2 ^ m)) at 2. by rewrite Z.mod_add, Z.mod_mod by lia. }
  split; [by rewrite Hpre|].
  destruct (shape_init hm Hs) as (n & Hn & Hinit).
  pose proof (shape_depth hm Hs) as Hd.
  assert (0 < init_size hm) as Hipos by (rewrite Hinit; apply Z.pow_pos_nonneg; lia).
  assert (2 ^ m = init_size hm * 2 ^ depth hm) as Hm2 by lia.
  assert (∀ x, (x mod 2 ^ m) mod init_size hm = x mod init_size hm) as Hdrop.
  { intros x. rewrite Hm2. rewrite Z.rem_mul_r by (try apply Z.pow_nonzero; lia).
    rewrite (Z.mul_comm (init_size hm)), Z.mod_add by lia.
    by rewrite Z.mod_mod by lia. }
  by rewrite <-(Hdrop (hash2bucket hm k)), Hmod, Hdrop.
Qed.

(** ** The iterator: one step, and the end *)

Lemma leading_empty_stop (suf : list (Bucket K V)) :
  (leading_empty suf ≤ length suf)%nat
  ∧ ((leading_empty suf < length suf)%nat →
     ∃ b e, suf !! leading_empty suf = Some b ∧ entries b !! 0%nat = Some e).
Proof.
  induction suf as [|b suf [IH1 IH2]]; simpl; [split; [lia|intros; lia]|].
  unfold is_empty. destruct (entries b) as [|e es] eqn:He; simpl.
  - split; [lia|]. intros Hlt. apply IH2. lia.
  - split; [lia|]. intros _. exists b, e. by rewrite He.
Qed.

Lemma Iterator_step hm (pre suf : list (Bucket K V)) b (j : nat) e :
  table_size hm < SIZE_MOD →
  Z.of_nat (length (entries b)) < SIZE_MOD →
  table hm = pre ++ b :: suf → entries b !! j = Some e →
  Iterator_deref hm
    {| _bucket_idx := Z.of_nat (length pre); _entry_idx := Z.of_nat j |} = Ok e
  ∧ Iterator_incr hm
      {| _bucket_idx := Z.of_nat (length pre); _entry_idx := Z.of_nat j |}
    = Ok (if decide (S j < length (entries b))%nat
          then {| _bucket_idx := Z.of_nat (length pre);
                  _entry_idx := Z.of_nat (S j) |}
          else {| _bucket_idx := Z.of_nat (length pre + 1 + leading_empty suf);
                  _entry_idx := 0 |}).
Proof.
  intros Hfit Hbfit Ht Hj. pose proof (lookup_lt_Some _ _ _ Hj) as Hlt.
  assert (Z.of_nat (length pre) < table_size hm) as Hpre.
  { unfold table_size. rewrite Ht, length_app. simpl. lia. }
  unfold Iterator_deref, Iterator_incr. simpl _bucket_idx. simpl _entry_idx.
  rewrite (at_table_middle hm pre suf b Ht). simpl.
  split.
  { apply at_Ok. split; [lia|]. by rewrite Nat2Z.id. }
  assert (size_add (Z.of_nat j) 1 = Z.of_nat (S j)) as ->.
  { unfold size_add. rewrite size_wrap_small; lia. }
  case_decide as Hnext.
  - rewrite (proj2 (Z.leb_gt _ _)) by lia.
    rewrite (go2data_spec hm Hfit (b :: suf) pre _ Ht).
    assert (leading_empty (b :: suf) = 0%nat) as ->.
    { simpl. unfold is_empty. destruct (entries b); [simpl in Hlt; lia|done]. }
    by rewrite Nat.add_0_r.
  - rewrite (proj2 (Z.leb_le _ _)) by lia.
    assert (size_add (Z.of_nat (length pre)) 1 = Z.of_nat (length (pre ++ [b]))) as ->.
    { rewrite length_app. simpl. unfold size_add. rewrite size_wrap_small; lia. }
    rewrite (go2data_spec hm Hfit suf (pre ++ [b])) by (by rewrite <-app_assoc).
    rewrite length_app. done.
Qed.

(** X10. At the position [(i, j)] of an entry of a table whose sizes fit
    [size_t], [*it] is that entry, and [it++] returns the iterator as it was
    and leaves one that is later in bucket-then-entry order (so [!=] holds
    between them) and that is either [end()] or again the position of an
    entry; an iterator on an entry is never equal to [end()]. *)
Theorem X10_iterator_step hm (i j : nat) b e :
  table_size hm < SIZE_MOD →
  (∀ (i : nat) b, table hm !! i = Some b →
     Z.of_nat (length (entries b)) < SIZE_MOD) →
  table hm !! i = Some b → entries b !! j = Some e →
  let it := {| _bucket_idx := Z.of_nat i; _entry_idx := Z.of_nat j |} in
  ∃ it',
    Iterator_post_incr hm it = Ok (it, it')
    ∧ Iterator_incr hm it = Ok it'
    ∧ Iterator_deref hm it = Ok e
    ∧ Iterator_lt it it'
    ∧ Iterator_neq it it' = true
    ∧ Iterator_neq it (end_position hm) = true
    ∧ (it' = end_position hm ∨ ∃ e', (it', e') ∈ positions hm).
Proof.
  intros Hfit Hbuckets Hi Hj it.
  pose proof (lookup_lt_Some _ _ _ Hi) as Hilt.
  pose proof (lookup_lt_Some _ _ _ Hj) as Hjlt.
  pose proof (take_drop_middle (table hm) i b Hi) as Ht. symmetry in Ht.
  assert (length (take i (table hm)) = i) as Hlen by (rewrite length_take; lia).
  destruct (Iterator_step hm _ _ b j e Hfit (Hbuckets _ _ Hi) Ht Hj) as [Hderef Hincr].
  rewrite Hlen in Hderef, Hincr. fold it in Hderef, Hincr.
  eexists. unfold Iterator_post_incr. rewrite Hincr. simpl.
  split; [done|]. split; [done|]. split; [done|].
  assert (∀ a c, Iterator_lt a c → Iterator_neq a c = true) as Hlt_neq.
  { intros a c [Hlt|[Heq Hlt]]; unfold Iterator_neq, Iterator_eq.
    - rewrite (proj2 (Z.eqb_neq _ _)) by lia. done.
    - rewrite (proj2 (Z.eqb_neq (_entry_idx a) _)) by lia.
      by rewrite andb_false_r. }
  assert (Iterator_lt it (end_position hm)) as Hend.
  { left. unfold it, end_position, table_size. simpl. lia. }
  case_decide as Hnext.
  - assert (Iterator_lt it
              {| _bucket_idx := Z.of_nat i; _entry_idx := Z.of_nat (S j) |}) as Hlt.
    { right. unfold it. simpl. lia. }
    split; [done|]. split; [by apply Hlt_neq|]. split; [by apply Hlt_neq|].
    right. destruct (lookup_lt_is_Some_2 (entries b) (S j)) as [e' He']; [lia|].
    exists e'. apply elem_of_positions_from. by exists i, (S j), b.
  - assert (Iterator_lt it
              {| _bucket_idx := Z.of_nat (i + 1 + leading_empty (drop (S i) (table hm)));
                 _entry_idx := 0 |}) as Hlt.
    { left. unfold it. simpl. lia. }
    split; [done|]. split; [by apply Hlt_neq|]. split; [by apply Hlt_neq|].
    destruct (leading_empty_stop (drop (S i) (table hm))) as [Hle Hstop].
    rewrite length_drop in Hle, Hstop.
    destruct (decide (leading_empty (drop (S i) (table hm))
                      = length (table hm) - S i)%nat) as [Hall|Hsome].
    + left. unfold end_position, table_size. do 2 f_equal. rewrite Hall. lia.
    + right. destruct Hstop as (b' & e' & Hb' & He'); [lia|].
      rewrite lookup_drop in Hb'. exists e'.
      apply elem_of_positions_from.
      exists (S i + leading_empty (drop (S i) (table hm)))%nat, 0%nat, b'.
      split; [|done]. simpl. do 2 f_equal. lia.
Qed.


(** ** The empty table *)

(** X12. On the table a successful constructor call returns, every key is
    absent: [get] returns the absent optional, [in] returns [false],
    [remove] returns [false] and changes nothing, [size()] is 0,
    [begin() == end()], and the loop from [begin()] to [end()] runs its body
    no time. *)
Theorem X12_fresh_table_is_empty size lf hm k :
  0 ≤ size < SIZE_MOD → LinearHash_ctor size lf = Ok hm →
  get hm k = Ok None
  ∧ in_ hm k = Ok false
  ∧ remove hm k = Ok (hm, false)
  ∧ get_num_elem hm = 0
  ∧ (∃ first last, begin_ hm = Ok first ∧ end_ hm = Ok last
       ∧ Iterator_eq first last = true)
  ∧ for_each 1 hm = Some (Ok []).
Proof.
  intros Hsize Hc.
  destruct (ctor_Inv size lf hm Hsize Hc) as (HI & Hget & Ht & Hn & _).
  pose proof (inv_shape hm HI) as Hs.
  pose proof (inv_count hm HI) as Hcount. rewrite Hn in Hcount.
  assert (all_entries hm = []) as Hnil.
  { destruct (all_entries hm); [done|simpl in Hcount; lia]. }
  destruct (Inv_fits hm HI) as [Hfit Hbuckets]; [rewrite Hn; done|].
  split; [apply Hget|]. split; [apply (in_get hm k Hs), Hget|]. split.
  { destruct (remove_spec hm k HI)
      as (hm' & r & Hrem & _ & _ & _ & _ & _ & _ & _ & Hcase); [rewrite Hn; done|].
    destruct Hcase as [([v0 Hv0] & _)|(_ & -> & ->)]; [|done].
    rewrite Hget in Hv0. done. }
  split; [done|]. split.
  { eexists _, _. split; [apply (begin_eq hm Hfit)|]. split; [apply end_eq|].
    unfold Iterator_eq, end_position, table_size. simpl.
    rewrite andb_true_r. apply Z.eqb_eq.
    destruct (leading_empty_all (table hm)) as [_ Hall].
    unfold all_entries in Hnil. apply Hall in Hnil. lia. }
  rewrite (for_each_positions hm 1 Hfit Hbuckets) by (rewrite Hnil; simpl; lia).
  do 2 f_equal. apply (fmap_nil_inv snd).
  unfold positions. by rewrite positions_from_snd.
Qed.

(** ** Load factors no load exceeds *)

Lemma ltb_nan_or_infinity (lf x : float) :
  lf = nan ∨ lf = infinity → PrimFloat.ltb lf x = false.
Proof.
  intros Hlf. rewrite ltb_spec.
  destruct Hlf as [-> | ->].
  - change (Prim2SF nan) with S754_nan. done.
  - change (Prim2SF infinity) with (S754_infinity false).
    unfold SFltb, SFcompare. by destruct (Prim2SF x) as [| [|] | |].
Qed.

Lemma run_without_split (ops : list (op K V)) hm hm' :
  Inv hm → (∀ x, PrimFloat.ltb (max_load_factor hm) x = false) →
  run hm ops = Ok hm' →
  table_size hm + Z.of_nat (length ops) < SIZE_MOD →
  num_elem hm + Z.of_nat (length ops) < SIZE_MOD →
  table_size hm' = table_size hm ∧ split_ptr hm' = split_ptr hm
  ∧ depth hm' = depth hm.
Proof.
  revert hm. induction ops as [|[k v|k] ops IH]; intros hm HI Hlf Hrun Hbt Hbn.
  - by injection Hrun as <-.
  - simpl in Hbt, Hbn, Hrun.
    destruct (insert_spec hm k v HI) as (hm1 & Hins & HI1 & _ & _ & Hl & Hcase);
      [lia..|].
    rewrite Hins in Hrun. simpl in Hrun.
    assert (table_size hm1 = table_size hm ∧ split_ptr hm1 = split_ptr hm
            ∧ depth hm1 = depth hm ∧ num_elem hm1 ≤ num_elem hm + 1)
      as (Ht & Hsp & Hd & Hn).
    { destruct Hcase as [(_ & -> & -> & -> & ->)|(_ & -> & Hsplit)]; [lia|].
      rewrite Hlf in Hsplit. destruct Hsplit as (-> & -> & ->). lia. }
    destruct (IH hm1 HI1) as (Ht' & Hsp' & Hd'); [by rewrite Hl|done|lia..|].
    repeat split; congruence.
  - simpl in Hbt, Hbn, Hrun.
    destruct (remove_spec hm k HI)
      as (hm1 & r & Hrem & HI1 & _ & _ & Hl & Hsp & Hd & Ht & Hcase); [lia|].
    rewrite Hrem in Hrun. simpl in Hrun.
    assert (num_elem hm1 ≤ num_elem hm) as Hn.
    { destruct Hcase as [(_ & _ & -> & _)|(_ & _ & ->)]; lia. }
    destruct (IH hm1 HI1) as (Ht' & Hsp' & Hd'); [by rewrite Hl|done|lia..|].
    repeat split; congruence.
Qed.

(** X13. The constructor accepts a load factor that is NaN or plus
    infinity, and the table it builds never splits: after every sequence of
    operations its capacity is still [init_size], [split_ptr] and [depth] are
    still 0, while [get] keeps returning the last value inserted. *)
Theorem X13_never_splits size lf (ops : list (op K V)) hm0 hm k :
  0 ≤ size < SIZE_MOD → lf = nan ∨ lf = infinity →
  LinearHash_ctor size lf = Ok hm0 → run hm0 ops = Ok hm →
  size + Z.of_nat (length ops) < SIZE_MOD →
  get_table_size hm = size ∧ get_split_ptr hm = 0 ∧ depth hm = 0
  ∧ get hm k = Ok (last_write ops k).
Proof.
  intros Hsize Hlf Hc Hrun Hbound.
  destruct (ctor_Inv size lf hm0 Hsize Hc)
    as (HI0 & _ & Ht0 & Hn0 & Hsp0 & Hd0 & _ & Hl0).
  destruct (run_without_split ops hm0 hm HI0) as (Ht & Hsp & Hd);
    [intros x; rewrite Hl0; by apply ltb_nan_or_infinity|done|lia..|].
  destruct (reached_Inv size lf ops hm0 hm Hsize Hc Hrun Hbound) as (_ & _ & _ & Hget).
  unfold get_table_size, get_split_ptr.
  split; [congruence|]. split; [congruence|]. split; [congruence|apply Hget].
Qed.

(** ** What a caller sees depends on the live pairs only *)

(** X14. Two tables reached from constructors by sequences of operations
    that leave every key with the same last write hold the same entries up
    to order: [get] and [in] answer alike for every key and [size()] is the
    same, whatever the initial sizes, the load factors and the capacities
    reached are. *)
Theorem X14_same_live_pairs size1 lf1 (ops1 : list (op K V)) hm01 hm1
    size2 lf2 (ops2 : list (op K V)) hm02 hm2 :
  0 ≤ size1 < SIZE_MOD → LinearHash_ctor size1 lf1 = Ok hm01 →
  run hm01 ops1 = Ok hm1 → size1 + Z.of_nat (length ops1) < SIZE_MOD →
  0 ≤ size2 < SIZE_MOD → LinearHash_ctor size2 lf2 = Ok hm02 →
  run hm02 ops2 = Ok hm2 → size2 + Z.of_nat (length ops2) < SIZE_MOD →
  (∀ k, last_write ops1 k = last_write ops2 k) →
  (∀ k, get hm1 k = get hm2 k ∧ in_ hm1 k = in_ hm2 k)
  ∧ all_entries hm1 ≡ₚ all_entries hm2
  ∧ get_num_elem hm1 = get_num_elem hm2.
Proof.
  intros Hs1 Hc1 Hr1 Hb1 Hs2 Hc2 Hr2 Hb2 Hsame.
  destruct (reached_Inv size1 lf1 ops1 hm01 hm1 Hs1 Hc1 Hr1 Hb1) as (HI1 & _ & _ & Hg1).
  destruct (reached_Inv size2 lf2 ops2 hm02 hm2 Hs2 Hc2 Hr2 Hb2) as (HI2 & _ & _ & Hg2).
  assert (∀ k, get hm1 k = get hm2 k) as Hget.
  { intros k. by rewrite Hg1, Hg2, Hsame. }
  assert (all_entries hm1 ≡ₚ all_entries hm2) as Hperm.
  { apply NoDup_Permutation.
    - eapply NoDup_fmap_1, all_keys_NoDup, HI1.
    - eapply NoDup_fmap_1, all_keys_NoDup, HI2.
    - intros [k v].
      by rewrite (elem_all_entries_get hm1 k v HI1),
                 (elem_all_entries_get hm2 k v HI2), Hget. }
  split; [|split; [done|]].
  - intros k. split; [done|].
    destruct (in_get hm1 k (inv_shape hm1 HI1)) as [Ht1 Hf1].
    destruct (in_get hm2 k (inv_shape hm2 HI2)) as [Ht2 Hf2].
    destruct (in_total hm1 k (inv_shape hm1 HI1)) as [[|] Hin].
    + rewrite Hin. symmetry. apply Ht2. rewrite <-Hget. by apply Ht1.
    + rewrite Hin. symmetry. apply Hf2. rewrite <-Hget. by apply Hf1.
  - unfold get_num_elem.
    rewrite (inv_count hm1 HI1), (inv_count hm2 HI2). by rewrite Hperm.
Qed.

(** ** Overwriting in place *)

Lemma set_value_other k v (es : list (Entry K V)) :
  k ∉ key <$> es → set_value k v <$> es = es.
Proof.
  induction es as [|e es IH]; [done|]. rewrite fmap_cons, not_elem_of_cons.
  intros [Hne Hnotin]. csimpl. rewrite IH by done.
  unfold set_value. by rewrite decide_False.
Qed.

Lemma set_value_found k v (es : list (Entry K V)) j e :
  NoDup (key <$> es) → scan k es = Some (j, e) →
  set_value k v <$> es = <[j := {| key := key e; value := v |}]> es.
Proof.
  revert j. induction es as [|e' es IH]; intros j Hnd Hs; [done|].
  rewrite fmap_cons, NoDup_cons in Hnd. destruct Hnd as [Hnotin Hnd].
  rewrite scan_cons in Hs. destruct (decide (key e' = k)) as [Hk|Hk].
  - injection Hs as <- <-. csimpl. rewrite set_value_other by congruence.
    unfold set_value. by rewrite decide_True.
  - destruct (scan k es) as [[j' e'']|] eqn:Hs'; [|done].
    injection Hs as <- <-. csimpl. rewrite (IH j') by done.
    unfold set_value. by rewrite decide_False.
Qed.

Lemma keys_set_value_in k v (t : list (Bucket K V)) :
  key <$> mjoin (entries <$> (set_value_in k v <$> t))
  = key <$> mjoin (entries <$> t).
Proof.
  induction t as [|b t IH]; [done|].
  rewrite !fmap_cons.
  change (mjoin (?l :: ?ls)) with (l ++ mjoin ls).
  rewrite !fmap_app, IH. f_equal.
  unfold set_value_in. simpl entries.
  rewrite <-list_fmap_compose. apply list_fmap_ext. intros i e _. simpl.
  unfold set_value. by case_decide.
Qed.

(** X15. In a table reached from the constructor, [insert(k, v)] of a key
    that is present rewrites the value of the entry of [k] where it is
    stored: every bucket keeps its entries in their order, so no entry moves
    and no position of a traversal changes. *)
Theorem X15_overwrite_in_place size lf (ops : list (op K V)) hm0 hm k v :
  0 ≤ size < SIZE_MOD → LinearHash_ctor size lf = Ok hm0 →
  run hm0 ops = Ok hm → size + Z.of_nat (length ops) < SIZE_MOD →
  in_ hm k = Ok true →
  ∃ hm', insert hm k v = Ok hm'
    ∧ table hm' = set_value_in k v <$> table hm
    ∧ (key <$> all_entries hm') = (key <$> all_entries hm).
Proof.
  intros Hsize Hc Hrun Hbound Hin.
  destruct (reached_Inv size lf ops hm0 hm Hsize Hc Hrun Hbound) as (HI & _ & _ & _).
  pose proof (inv_shape hm HI) as Hs.
  pose proof (hash2bucket_range hm k Hs) as Hr.
  destruct (at_hash2bucket hm k Hs) as (b & _ & Hb).
  rewrite (in_eq hm k b Hb) in Hin by lia. injection Hin as Hin.
  apply bool_decide_eq_true in Hin as [v0 Hv0]. unfold find_value in Hv0.
  destruct (scan k (entries b)) as [[j e]|] eqn:Hscan; [|done].
  assert (<[Z.to_nat (hash2bucket hm k) :=
             {| entries := <[j := {| key := key e; value := v |}]> (entries b) |}]>
            (table hm) = set_value_in k v <$> table hm) as Htable.
  { apply list_eq. intros i. rewrite list_lookup_fmap.
    destruct (decide (i = Z.to_nat (hash2bucket hm k))) as [->|Hne].
    - rewrite list_lookup_insert_eq by (by eapply lookup_lt_Some).
      rewrite Hb. simpl. unfold set_value_in. f_equal. f_equal.
      symmetry. apply set_value_found; [by eapply inv_distinct|done].
    - rewrite list_lookup_insert_ne by done.
      destruct (table hm !! i) as [b'|] eqn:Hi; [|done]. simpl.
      unfold set_value_in. rewrite set_value_other; [by destruct b'|].
      intros (e' & Hk & He')%list_elem_of_fmap.
      pose proof (inv_placed hm HI _ _ _ Hi He') as Hp. rewrite <-Hk in Hp. lia. }
  exists (rewrite_bucket hm (hash2bucket hm k)
            (<[j := {| key := key e; value := v |}]> (entries b)) (num_elem hm)).
  split; [apply (insert_present hm k v b j e); (done || lia)|].
  split; [exact Htable|].
  unfold all_entries. simpl table. rewrite Htable. apply keys_set_value_in.
Qed.

End More.

(** * The claims on [int] keys: instances and counterexamples *)

Module Examples.

Import IntKeys.

Local Ltac size_fact := unfold SIZE_MOD, SIZE_WIDTH; simpl; lia.

(** The constructor on [(2, 0.5)], and the three inserts of the test
    "Incremental split", evaluated. *)
Lemma fresh_ctor :
  LinearHash_ctor 2 0.5%float = Ok (fresh 2 0.5%float).
Proof. reflexivity. Qed.

Lemma scenario_run : run (fresh 2 0.5%float) scenario_ops = Ok after_scenario.
Proof. vm_compute. reflexivity. Qed.

(** The table after the three inserts satisfies the invariants and has room
    for one more bucket. *)
Lemma after_scenario_Inv : Inv after_scenario.
Proof.
  eapply (reached_Inv 2 0.5%float scenario_ops (fresh 2 0.5%float));
    [size_fact|exact fresh_ctor|exact scenario_run|size_fact].
Qed.

Lemma after_scenario_room : table_size after_scenario + 1 < SIZE_MOD.
Proof. vm_compute. reflexivity. Qed.

(** C1 on [mixed_ops]: key [1] was overwritten, key [2] removed, key [4]
    never inserted. *)
Lemma C1_witness :
  0 ≤ 2 < SIZE_MOD
  ∧ LinearHash_ctor 2 0.5%float = Ok (fresh 2 0.5%float)
  ∧ 2 + Z.of_nat (length mixed_ops) < SIZE_MOD
  ∧ ∃ hm, run (fresh 2 0.5%float) mixed_ops = Ok hm
      ∧ get hm 1 = Ok (Some 7) ∧ get hm 2 = Ok None
      ∧ get hm 3 = Ok (Some 3) ∧ get hm 4 = Ok None.
Proof.
  assert (0 ≤ 2 < SIZE_MOD) as H1 by size_fact.
  assert (2 + Z.of_nat (length mixed_ops) < SIZE_MOD) as H3 by size_fact.
  split; [exact H1|]. split; [exact fresh_ctor|]. split; [exact H3|].
  destruct (C1_get_last_write 2 0.5%float mixed_ops (fresh 2 0.5%float)
              H1 fresh_ctor H3) as (hm & Hrun & Hget).
  exists hm. split; [exact Hrun|].
  split; [exact (proj1 (Hget 1))|]. split; [exact (proj1 (Hget 2))|].
  split; [exact (proj1 (Hget 3))|exact (proj1 (Hget 4))].
Defined.

(** C2 on [mixed_ops], and a split step on the table after the three
    inserts. *)
Lemma C2_witness :
  0 ≤ 2 < SIZE_MOD
  ∧ LinearHash_ctor 2 0.5%float = Ok (fresh 2 0.5%float)
  ∧ 2 + Z.of_nat (length mixed_ops) < SIZE_MOD
  ∧ (∃ hm, run (fresh 2 0.5%float) mixed_ops = Ok hm
       ∧ placed hm ∧ one_bucket_per_key hm ∧ bucket_keys_distinct hm)
  ∧ (∃ hm2, split_step after_scenario = Ok hm2 ∧ shape_inv hm2
       ∧ placed hm2 ∧ one_bucket_per_key hm2 ∧ bucket_keys_distinct hm2).
Proof.
  assert (0 ≤ 2 < SIZE_MOD) as H1 by size_fact.
  assert (2 + Z.of_nat (length mixed_ops) < SIZE_MOD) as H3 by size_fact.
  split; [exact H1|]. split; [exact fresh_ctor|]. split; [exact H3|].
  destruct (C2_placement 2 0.5%float mixed_ops (fresh 2 0.5%float)
              H1 fresh_ctor H3) as [Hrun Hsplit].
  split; [exact Hrun|].
  exact (Hsplit after_scenario after_scenario_Inv after_scenario_room).
Defined.

(** C4 on the keys [1], [2], [3] of the scenario. *)
Lemma C4_witness :
  1 ≠ 2 ∧ 1 ≠ 3 ∧ 2 ≠ 3
  ∧ ∃ hm0 hm1 hm2 hm3 : IntMap,
      LinearHash_ctor 2 0.5%float = Ok hm0
      ∧ insert hm0 1 1 = Ok hm1
      ∧ get_table_size hm1 = 2 ∧ get_split_ptr hm1 = 0 ∧ depth hm1 = 0
      ∧ insert hm1 2 2 = Ok hm2
      ∧ get_table_size hm2 = 3 ∧ get_split_ptr hm2 = 1 ∧ depth hm2 = 0
      ∧ insert hm2 3 3 = Ok hm3
      ∧ get_table_size hm3 = 4 ∧ get_split_ptr hm3 = 0 ∧ depth hm3 = 1.
Proof.
  assert (1 ≠ 2) as H12 by lia. assert (1 ≠ 3) as H13 by lia.
  assert (2 ≠ 3) as H23 by lia.
  split; [exact H12|]. split; [exact H13|]. split; [exact H23|].
  exact (proj1 (C4_incremental_split (V:=Z) 1 2 3 1 2 3 H12 H13 H23)).
Defined.

(** C5 on [mixed_ops], and a split step on the table after the three
    inserts. *)
Lemma C5_witness :
  0 ≤ 2 < SIZE_MOD
  ∧ LinearHash_ctor 2 0.5%float = Ok (fresh 2 0.5%float)
  ∧ 2 + Z.of_nat (length mixed_ops) < SIZE_MOD
  ∧ (∃ hm, run (fresh 2 0.5%float) mixed_ops = Ok hm
       ∧ table_size hm = size_shl (init_size hm) (depth hm) + split_ptr hm
       ∧ 0 ≤ split_ptr hm < size_shl (init_size hm) (depth hm)
       ∧ size_shl (init_size hm) (depth hm) = init_size hm * 2 ^ depth hm)
  ∧ (∃ hm2, split_step after_scenario = Ok hm2
       ∧ table_size hm2 = table_size after_scenario + 1
       ∧ split_advanced after_scenario hm2
       ∧ table_size hm2 = size_shl (init_size hm2) (depth hm2) + split_ptr hm2
       ∧ 0 ≤ split_ptr hm2 < size_shl (init_size hm2) (depth hm2)).
Proof.
  assert (0 ≤ 2 < SIZE_MOD) as H1 by size_fact.
  assert (2 + Z.of_nat (length mixed_ops) < SIZE_MOD) as H3 by size_fact.
  split; [exact H1|]. split; [exact fresh_ctor|]. split; [exact H3|].
  destruct (C5_shape 2 0.5%float mixed_ops (fresh 2 0.5%float)
              H1 fresh_ctor H3) as [Hrun Hsplit].
  split; [exact Hrun|].
  exact (Hsplit after_scenario (inv_shape _ after_scenario_Inv) after_scenario_room).
Defined.

(** C6, as the claim states it, fails: a load factor that is zero or
    negative is accepted. *)
Lemma C6_counterexample :
  PrimFloat.leb 0 0 = true
  ∧ LinearHash_ctor 2 0%float = Ok (fresh 2 0%float)
  ∧ PrimFloat.leb (-1) 0 = true
  ∧ LinearHash_ctor 2 (-1)%float = Ok (fresh 2 (-1)%float).
Proof. repeat split; reflexivity. Qed.

(** C6 on [(2, 0.75)], the initial state of the test "Basic Operations". *)
Lemma C6_witness :
  0 ≤ 2 < SIZE_MOD
  ∧ ∃ hm : IntMap, LinearHash_ctor 2 0.75%float = Ok hm
      ∧ get_num_elem hm = 0 ∧ get_table_size hm = 2 ∧ get_split_ptr hm = 0.
Proof.
  assert (0 ≤ 2 < SIZE_MOD) as H1 by size_fact.
  split; [exact H1|].
  exact (proj2 (proj2 (C6_constructor (K:=Z) (V:=Z) 2 0.75%float H1))).
Defined.

(** C7 on the table after the three inserts: key [2] is overwritten, and
    inserting the new key [4] twice is inserting it once. *)
Lemma C7_witness :
  0 ≤ 2 < SIZE_MOD
  ∧ LinearHash_ctor 2 0.5%float = Ok (fresh 2 0.5%float)
  ∧ run (fresh 2 0.5%float) scenario_ops = Ok after_scenario
  ∧ 2 + Z.of_nat (length scenario_ops) + 1 < SIZE_MOD
  ∧ in_ after_scenario 2 = Ok true
  ∧ (∃ hm', insert after_scenario 2 20 = Ok hm'
       ∧ get hm' 2 = Ok (Some 20)
       ∧ get_num_elem hm' = get_num_elem after_scenario
       ∧ get_table_size hm' = get_table_size after_scenario)
  ∧ (∃ hm1, insert after_scenario 4 4 = Ok hm1 ∧ insert hm1 4 4 = Ok hm1).
Proof.
  assert (0 ≤ 2 < SIZE_MOD) as H1 by size_fact.
  assert (2 + Z.of_nat (length scenario_ops) + 1 < SIZE_MOD) as H4 by size_fact.
  assert (in_ after_scenario 2 = Ok true) as Hin by reflexivity.
  split; [exact H1|]. split; [exact fresh_ctor|]. split; [exact scenario_run|].
  split; [exact H4|]. split; [exact Hin|]. split.
  - destruct (C7_overwrite 2 0.5%float scenario_ops (fresh 2 0.5%float)
                after_scenario 2 20 H1 fresh_ctor scenario_run H4) as [Hover _].
    destruct (Hover Hin) as (hm' & Hins & Hget & _ & Hnum & Hcap & _).
    exists hm'. split; [exact Hins|]. split; [exact Hget|].
    split; [exact Hnum|exact Hcap].
  - exact (proj2 (C7_overwrite 2 0.5%float scenario_ops (fresh 2 0.5%float)
                    after_scenario 4 4 H1 fresh_ctor scenario_run H4)).
Defined.

(** C8 on the table after the three inserts: key [2] is removed, key [4]
    is not there. *)
Lemma C8_witness :
  0 ≤ 2 < SIZE_MOD
  ∧ LinearHash_ctor 2 0.5%float = Ok (fresh 2 0.5%float)
  ∧ run (fresh 2 0.5%float) scenario_ops = Ok after_scenario
  ∧ 2 + Z.of_nat (length scenario_ops) < SIZE_MOD
  ∧ in_ after_scenario 2 = Ok true
  ∧ in_ after_scenario 4 = Ok false
  ∧ (∃ hm', remove after_scenario 2 = Ok (hm', true)
       ∧ get_num_elem hm' = get_num_elem after_scenario - 1
       ∧ in_ hm' 2 = Ok false)
  ∧ remove after_scenario 4 = Ok (after_scenario, false).
Proof.
  assert (0 ≤ 2 < SIZE_MOD) as H1 by size_fact.
  assert (2 + Z.of_nat (length scenario_ops) < SIZE_MOD) as H4 by size_fact.
  assert (in_ after_scenario 2 = Ok true) as Hin by reflexivity.
  assert (in_ after_scenario 4 = Ok false) as Hout by reflexivity.
  split; [exact H1|]. split; [exact fresh_ctor|]. split; [exact scenario_run|].
  split; [exact H4|]. split; [exact Hin|]. split; [exact Hout|]. split.
  - destruct (C8_remove 2 0.5%float scenario_ops (fresh 2 0.5%float)
                after_scenario 2 H1 fresh_ctor scenario_run H4)
      as (_ & _ & Hpresent & _).
    destruct (Hpresent Hin) as (hm' & Hrem & Hnum & Hgone & _).
    exists hm'. split; [exact Hrem|]. split; [exact Hnum|exact Hgone].
  - destruct (C8_remove 2 0.5%float scenario_ops (fresh 2 0.5%float)
                after_scenario 4 H1 fresh_ctor scenario_run H4)
      as (_ & _ & _ & Habsent).
    exact (Habsent Hout).
Defined.

(** C9 on the table after the three inserts, whose first bucket is empty. *)
Lemma after_scenario_buckets (i : nat) b :
  table after_scenario !! i = Some b → Z.of_nat (length (entries b)) < SIZE_MOD.
Proof.
  intros Hi. do 4 (destruct i as [|i]; [injection Hi as <-; size_fact|]).
  discriminate Hi.
Qed.

Lemma C9_witness :
  table_size after_scenario < SIZE_MOD
  ∧ (∀ (i : nat) b, table after_scenario !! i = Some b →
       Z.of_nat (length (entries b)) < SIZE_MOD)
  ∧ for_each 4 after_scenario = Some (Ok (positions after_scenario))
  ∧ (positions after_scenario).*2 = all_entries after_scenario.
Proof.
  assert (table_size after_scenario < SIZE_MOD) as H1 by (vm_compute; reflexivity).
  split; [exact H1|]. split; [exact after_scenario_buckets|].
  destruct (C9_iteration after_scenario H1 after_scenario_buckets)
    as (Hfor & Hsnd & _).
  split; [|exact Hsnd]. apply Hfor. simpl. lia.
Defined.

(** C10 on the table built by [LinearHash(2, 0.5)]: key [9] in the state
    after the three inserts, and the run [mixed_ops]. *)
Lemma C10_witness :
  0 ≤ 2 < SIZE_MOD
  ∧ LinearHash_ctor 2 0.5%float = Ok (fresh 2 0.5%float)
  ∧ init_size after_scenario = init_size (fresh 2 0.5%float)
  ∧ 0 ≤ depth after_scenario
  ∧ table_size after_scenario
      = size_shl (init_size after_scenario) (depth after_scenario)
        + split_ptr after_scenario
  ∧ 0 ≤ split_ptr after_scenario
      < size_shl (init_size after_scenario) (depth after_scenario)
  ∧ 0 ≤ hash2bucket after_scenario 9 < table_size after_scenario
  ∧ (∃ r, get after_scenario 9 = Ok r)
  ∧ 2 + Z.of_nat (length mixed_ops) < SIZE_MOD
  ∧ ∃ hm, run (fresh 2 0.5%float) mixed_ops = Ok hm
      ∧ 0 ≤ hash2bucket hm 9 < table_size hm.
Proof.
  assert (0 ≤ 2 < SIZE_MOD) as Hsize by size_fact.
  assert (init_size after_scenario = init_size (fresh 2 0.5%float)) as H1
    by reflexivity.
  assert (0 ≤ depth after_scenario) as H2 by (simpl; lia).
  assert (table_size after_scenario
          = size_shl (init_size after_scenario) (depth after_scenario)
            + split_ptr after_scenario) as H3 by reflexivity.
  assert (0 ≤ split_ptr after_scenario
          < size_shl (init_size after_scenario) (depth after_scenario)) as H4.
  { vm_compute. split; congruence. }
  assert (2 + Z.of_nat (length mixed_ops) < SIZE_MOD) as Hbound by size_fact.
  destruct (C10_lookups_in_range 2 0.5%float (fresh 2 0.5%float) Hsize fresh_ctor)
    as [Hstate Hrun].
  destruct (Hstate after_scenario 9 0 H1 H2 H3 H4) as (Hr & _ & _ & Hget & _).
  destruct (Hrun mixed_ops Hbound) as (hm & Hm & _ & _ & _ & Hall).
  destruct (Hall 9 0) as (Hr' & _).
  split; [exact Hsize|]. split; [exact fresh_ctor|]. split; [exact H1|].
  split; [exact H2|]. split; [exact H3|]. split; [exact H4|].
  split; [exact Hr|]. split; [exact Hget|]. split; [exact Hbound|].
  exists hm. split; [exact Hm|exact Hr'].
Defined.

End Examples.

(** * The further properties on [int] keys *)

Module MoreExamples.

Import IntKeys.

Local Ltac size_fact := unfold SIZE_MOD, SIZE_WIDTH; simpl; lia.

Lemma two_fits : 0 ≤ 2 < SIZE_MOD.
Proof. size_fact. Qed.

Lemma scenario_fits : 2 + Z.of_nat (length scenario_ops) < SIZE_MOD.
Proof. size_fact. Qed.

Lemma scenario_room : 2 + Z.of_nat (length scenario_ops) + 1 < SIZE_MOD.
Proof. size_fact. Qed.

Lemma nan_ctor : LinearHash_ctor 2 nan = Ok (fresh 2 nan).
Proof. reflexivity. Qed.

Lemma nan_run : run (fresh 2 nan) scenario_ops = Ok after_scenario_nan.
Proof. vm_compute. reflexivity. Qed.

Lemma after_scenario_shape : shape_inv after_scenario.
Proof. exact (inv_shape _ Examples.after_scenario_Inv). Qed.

Lemma four_empty_shape : shape_inv four_empty.
Proof.
  destruct after_scenario_shape as [Hp Hd Hl Hsp]. by split.
Qed.

(** X1 after the three inserts: three entries, three keys. *)
Lemma X1_witness :
  0 ≤ 2 < SIZE_MOD
  ∧ LinearHash_ctor 2 0.5%float = Ok (fresh 2 0.5%float)
  ∧ run (fresh 2 0.5%float) scenario_ops = Ok after_scenario
  ∧ 2 + Z.of_nat (length scenario_ops) < SIZE_MOD
  ∧ get_num_elem after_scenario = Z.of_nat (length (all_entries after_scenario))
  ∧ NoDup (key <$> all_entries after_scenario).
Proof.
  split; [exact two_fits|]. split; [exact Examples.fresh_ctor|].
  split; [exact Examples.scenario_run|]. split; [exact scenario_fits|].
  destruct (X1_size_counts_live_keys 2 0.5%float scenario_ops (fresh 2 0.5%float)
              after_scenario two_fits Examples.fresh_ctor Examples.scenario_run
              scenario_fits) as (Hn & Hnd & _).
  split; [exact Hn|exact Hnd].
Defined.

(** X2 after the three inserts. *)
Lemma X2_witness :
  0 ≤ 2 < SIZE_MOD
  ∧ LinearHash_ctor 2 0.5%float = Ok (fresh 2 0.5%float)
  ∧ run (fresh 2 0.5%float) scenario_ops = Ok after_scenario
  ∧ 2 + Z.of_nat (length scenario_ops) < SIZE_MOD
  ∧ ∃ visited,
      for_each (S (Z.to_nat (get_num_elem after_scenario))) after_scenario
        = Some (Ok visited)
      ∧ Z.of_nat (length visited) = get_num_elem after_scenario.
Proof.
  split; [exact two_fits|]. split; [exact Examples.fresh_ctor|].
  split; [exact Examples.scenario_run|]. split; [exact scenario_fits|].
  destruct (X2_iteration_agrees_with_get 2 0.5%float scenario_ops
              (fresh 2 0.5%float) after_scenario two_fits Examples.fresh_ctor
              Examples.scenario_run scenario_fits) as (visited & Hfor & Hlen & _).
  exists visited. split; [exact Hfor|exact Hlen].
Defined.

(** X3 after the three inserts, for a key that is there and one that is
    not. *)
Lemma X3_witness :
  0 ≤ 2 < SIZE_MOD
  ∧ LinearHash_ctor 2 0.5%float = Ok (fresh 2 0.5%float)
  ∧ run (fresh 2 0.5%float) scenario_ops = Ok after_scenario
  ∧ 2 + Z.of_nat (length scenario_ops) < SIZE_MOD
  ∧ in_ after_scenario 2 = Ok true ∧ in_ after_scenario 4 = Ok false.
Proof.
  split; [exact two_fits|]. split; [exact Examples.fresh_ctor|].
  split; [exact Examples.scenario_run|]. split; [exact scenario_fits|].
  split.
  - exact (proj1 (X3_in_agrees_with_get 2 0.5%float scenario_ops
                    (fresh 2 0.5%float) after_scenario 2 two_fits
                    Examples.fresh_ctor Examples.scenario_run scenario_fits)).
  - exact (proj1 (X3_in_agrees_with_get 2 0.5%float scenario_ops
                    (fresh 2 0.5%float) after_scenario 4 two_fits
                    Examples.fresh_ctor Examples.scenario_run scenario_fits)).
Defined.

(** X4: insert then remove key [4], which the table does not hold. *)
Lemma X4_witness :
  0 ≤ 2 < SIZE_MOD
  ∧ LinearHash_ctor 2 0.5%float = Ok (fresh 2 0.5%float)
  ∧ run (fresh 2 0.5%float) scenario_ops = Ok after_scenario
  ∧ 2 + Z.of_nat (length scenario_ops) + 1 < SIZE_MOD
  ∧ in_ after_scenario 4 = Ok false
  ∧ ∃ hm1 hm2,
      insert after_scenario 4 40 = Ok hm1 ∧ remove hm1 4 = Ok (hm2, true)
      ∧ get_num_elem hm2 = get_num_elem after_scenario
      ∧ in_ hm2 4 = Ok false.
Proof.
  assert (in_ after_scenario 4 = Ok false) as Hin by reflexivity.
  split; [exact two_fits|]. split; [exact Examples.fresh_ctor|].
  split; [exact Examples.scenario_run|]. split; [exact scenario_room|].
  split; [exact Hin|].
  destruct (X4_insert_then_remove 2 0.5%float scenario_ops (fresh 2 0.5%float)
              after_scenario 4 40 two_fits Examples.fresh_ctor
              Examples.scenario_run scenario_room Hin)
    as (hm1 & hm2 & Hins & Hrem & Hn & Hgone & _).
  exists hm1, hm2. split; [exact Hins|]. split; [exact Hrem|].
  split; [exact Hn|exact Hgone].
Defined.

(** X5: key [2] removed twice. *)
Lemma X5_witness :
  0 ≤ 2 < SIZE_MOD
  ∧ LinearHash_ctor 2 0.5%float = Ok (fresh 2 0.5%float)
  ∧ run (fresh 2 0.5%float) scenario_ops = Ok after_scenario
  ∧ 2 + Z.of_nat (length scenario_ops) < SIZE_MOD
  ∧ ∃ hm1 r, remove after_scenario 2 = Ok (hm1, r)
      ∧ remove hm1 2 = Ok (hm1, false).
Proof.
  split; [exact two_fits|]. split; [exact Examples.fresh_ctor|].
  split; [exact Examples.scenario_run|]. split; [exact scenario_fits|].
  exact (X5_remove_twice 2 0.5%float scenario_ops (fresh 2 0.5%float)
           after_scenario 2 two_fits Examples.fresh_ctor Examples.scenario_run
           scenario_fits).
Defined.

(** X6 after the three inserts: between 2 and 5 buckets. *)
Lemma X6_witness :
  0 ≤ 2 < SIZE_MOD
  ∧ LinearHash_ctor 2 0.5%float = Ok (fresh 2 0.5%float)
  ∧ run (fresh 2 0.5%float) scenario_ops = Ok after_scenario
  ∧ 2 + Z.of_nat (length scenario_ops) < SIZE_MOD
  ∧ 2 ≤ get_table_size after_scenario
      ≤ 2 + Z.of_nat (count_inserts scenario_ops).
Proof.
  split; [exact two_fits|]. split; [exact Examples.fresh_ctor|].
  split; [exact Examples.scenario_run|]. split; [exact scenario_fits|].
  exact (proj1 (proj2 (X6_capacity_bounds 2 0.5%float scenario_ops
                         (fresh 2 0.5%float) after_scenario two_fits
                         Examples.fresh_ctor Examples.scenario_run
                         scenario_fits))).
Defined.

(** X7: two tables of four buckets over [init_size = 2]. *)
Lemma X7_witness :
  shape_inv after_scenario ∧ shape_inv four_empty
  ∧ init_size after_scenario = init_size four_empty
  ∧ table_size after_scenario = table_size four_empty
  ∧ depth after_scenario = depth four_empty
  ∧ split_ptr after_scenario = split_ptr four_empty
  ∧ hash2bucket after_scenario 7 = hash2bucket four_empty 7.
Proof.
  assert (init_size after_scenario = init_size four_empty) as Hi by reflexivity.
  assert (table_size after_scenario = table_size four_empty) as Ht by reflexivity.
  split; [exact after_scenario_shape|]. split; [exact four_empty_shape|].
  split; [exact Hi|]. split; [exact Ht|].
  exact (X7_capacity_determines_split after_scenario four_empty 7
           after_scenario_shape four_empty_shape Hi Ht).
Defined.

(** X8: a split step on the table after the three inserts. *)
Lemma X8_witness :
  shape_inv after_scenario ∧ table_size after_scenario + 1 < SIZE_MOD
  ∧ ∃ hm', split_step after_scenario = Ok hm'
      ∧ all_entries hm' ≡ₚ all_entries after_scenario
      ∧ get_num_elem hm' = get_num_elem after_scenario.
Proof.
  split; [exact after_scenario_shape|]. split; [exact Examples.after_scenario_room|].
  destruct (X8_split_keeps_entries after_scenario after_scenario_shape
              Examples.after_scenario_room)
    as (hm' & original & lo & hi & Hstep & Hperm & Hn & _).
  exists hm'. split; [exact Hstep|]. split; [exact Hperm|exact Hn].
Defined.

(** X9 for key [7] after the three inserts. *)
Lemma X9_witness :
  shape_inv after_scenario
  ∧ hash2bucket after_scenario 7 mod init_size after_scenario
    = std_hash 7 mod init_size after_scenario.
Proof.
  split; [exact after_scenario_shape|].
  exact (proj2 (X9_bucket_congruent_to_hash after_scenario 7 after_scenario_shape)).
Defined.

(** X10 at position [(1, 0)], the entry of key [1]. *)
Lemma X10_witness :
  table_size after_scenario < SIZE_MOD
  ∧ (∀ (i : nat) b, table after_scenario !! i = Some b →
       Z.of_nat (length (entries b)) < SIZE_MOD)
  ∧ table after_scenario !! 1%nat = Some {| entries := [ {| key := 1; value := 1 |} ] |}
  ∧ entries {| entries := [ {| key := 1; value := 1 |} ] |} !! 0%nat
    = Some {| key := 1; value := 1 |}
  ∧ ∃ it', Iterator_post_incr after_scenario
             {| _bucket_idx := 1; _entry_idx := 0 |}
           = Ok ({| _bucket_idx := 1; _entry_idx := 0 |}, it')
      ∧ Iterator_lt {| _bucket_idx := 1; _entry_idx := 0 |} it'.
Proof.
  assert (table_size after_scenario < SIZE_MOD) as H1 by (vm_compute; reflexivity).
  assert (table after_scenario !! 1%nat
          = Some {| entries := [ {| key := 1; value := 1 |} ] |}) as H3 by reflexivity.
  assert (entries {| entries := [ {| key := 1; value := 1 |} ] |} !! 0%nat
          = Some ({| key := 1; value := 1 |} : Entry Z Z)) as H4 by reflexivity.
  split; [exact H1|]. split; [exact Examples.after_scenario_buckets|].
  split; [exact H3|]. split; [exact H4|].
  destruct (X10_iterator_step after_scenario 1 0 _ _ H1
              Examples.after_scenario_buckets H3 H4)
    as (it' & Hpost & _ & _ & Hlt & _).
  exists it'. split; [exact Hpost|exact Hlt].
Defined.

(** X12 on [(2, 0.5)]. *)
Lemma X12_witness :
  0 ≤ 2 < SIZE_MOD
  ∧ LinearHash_ctor 2 0.5%float = Ok (fresh 2 0.5%float)
  ∧ get (fresh 2 0.5%float) 1 = Ok None
  ∧ remove (fresh 2 0.5%float) 1 = Ok (fresh 2 0.5%float, false)
  ∧ for_each 1 (fresh 2 0.5%float) = Some (Ok []).
Proof.
  split; [exact two_fits|]. split; [exact Examples.fresh_ctor|].
  destruct (X12_fresh_table_is_empty 2 0.5%float (fresh 2 0.5%float) 1
              two_fits Examples.fresh_ctor) as (Hget & _ & Hrem & _ & _ & Hfor).
  split; [exact Hget|]. split; [exact Hrem|exact Hfor].
Defined.

(** X13: the three inserts with a NaN load factor leave two buckets. *)
Lemma X13_witness :
  0 ≤ 2 < SIZE_MOD ∧ (nan = nan ∨ nan = infinity)
  ∧ LinearHash_ctor 2 nan = Ok (fresh 2 nan)
  ∧ run (fresh 2 nan) scenario_ops = Ok after_scenario_nan
  ∧ 2 + Z.of_nat (length scenario_ops) < SIZE_MOD
  ∧ get_table_size after_scenario_nan = 2
  ∧ get_split_ptr after_scenario_nan = 0 ∧ depth after_scenario_nan = 0.
Proof.
  assert (nan = nan ∨ nan = infinity) as Hlf by (left; reflexivity).
  split; [exact two_fits|]. split; [exact Hlf|]. split; [exact nan_ctor|].
  split; [exact nan_run|]. split; [exact scenario_fits|].
  destruct (X13_never_splits 2 nan scenario_ops (fresh 2 nan) after_scenario_nan 1
              two_fits Hlf nan_ctor nan_run scenario_fits) as (Ht & Hsp & Hd & _).
  split; [exact Ht|]. split; [exact Hsp|exact Hd].
Defined.

(** X14: the same three inserts with load factors [0.5] and NaN give four
    buckets and two buckets, and the same entries. *)
Lemma X14_witness :
  0 ≤ 2 < SIZE_MOD
  ∧ LinearHash_ctor 2 0.5%float = Ok (fresh 2 0.5%float)
  ∧ run (fresh 2 0.5%float) scenario_ops = Ok after_scenario
  ∧ 2 + Z.of_nat (length scenario_ops) < SIZE_MOD
  ∧ LinearHash_ctor 2 nan = Ok (fresh 2 nan)
  ∧ run (fresh 2 nan) scenario_ops = Ok after_scenario_nan
  ∧ (∀ k, last_write scenario_ops k = last_write scenario_ops k)
  ∧ all_entries after_scenario ≡ₚ all_entries after_scenario_nan
  ∧ get_num_elem after_scenario = get_num_elem after_scenario_nan.
Proof.
  assert (∀ k : Z, last_write scenario_ops k = last_write scenario_ops k) as Hsame
    by (intros k; reflexivity).
  split; [exact two_fits|]. split; [exact Examples.fresh_ctor|].
  split; [exact Examples.scenario_run|]. split; [exact scenario_fits|].
  split; [exact nan_ctor|]. split; [exact nan_run|]. split; [exact Hsame|].
  exact (proj2 (X14_same_live_pairs 2 0.5%float scenario_ops (fresh 2 0.5%float)
                  after_scenario 2 nan scenario_ops (fresh 2 nan)
                  after_scenario_nan two_fits Examples.fresh_ctor
                  Examples.scenario_run scenario_fits two_fits nan_ctor nan_run
                  scenario_fits Hsame)).
Defined.

(** X15: key [2] overwritten after the three inserts. *)
Lemma X15_witness :
  0 ≤ 2 < SIZE_MOD
  ∧ LinearHash_ctor 2 0.5%float = Ok (fresh 2 0.5%float)
  ∧ run (fresh 2 0.5%float) scenario_ops = Ok after_scenario
  ∧ 2 + Z.of_nat (length scenario_ops) < SIZE_MOD
  ∧ in_ after_scenario 2 = Ok true
  ∧ ∃ hm', insert after_scenario 2 20 = Ok hm'
      ∧ table hm' = set_value_in 2 20 <$> table after_scenario.
Proof.
  assert (in_ after_scenario 2 = Ok true) as Hin by reflexivity.
  split; [exact two_fits|]. split; [exact Examples.fresh_ctor|].
  split; [exact Examples.scenario_run|]. split; [exact scenario_fits|].
  split; [exact Hin|].
  destruct (X15_overwrite_in_place 2 0.5%float scenario_ops (fresh 2 0.5%float)
              after_scenario 2 20 two_fits Examples.fresh_ctor
              Examples.scenario_run scenario_fits Hin) as (hm' & Hins & Htable & _).
  exists hm'. split; [exact Hins|exact Htable].
Defined.

End MoreExamples.
